(** * holopy: matrix-product states and their expectation values

    A shallow embedding of [mps.py] (classes [MPS] and [MPO]).

    numpy's [complex128] entries are idealised as the elements of an
    exact commutative ring with a conjugation ([Scalar]); an [ndarray]
    is a shape together with its row-major buffer, and every numpy
    routine the source calls is written out on that representation.
    Python exceptions are values of [pyerror]. *)

From Stdlib Require Import List Arith ZArith Lia Ring Bool Reals Lra.
From Stdlib Require String DecimalString.
Import ListNotations.

(** ** Scalars *)

Class Scalar : Type := {
  C : Type;
  C0 : C;
  C1 : C;
  Cadd : C -> C -> C;
  Cmul : C -> C -> C;
  Csub : C -> C -> C;
  Copp : C -> C;
  Cconj : C -> C;
  (** [Cge0 z]: z is real and non-negative *)
  Cge0 : C -> Prop;
  C_ring : ring_theory C0 C1 Cadd Cmul Csub Copp (@eq C);
  Cconj_0 : Cconj C0 = C0;
  Cconj_1 : Cconj C1 = C1;
  Cconj_add : forall x y, Cconj (Cadd x y) = Cadd (Cconj x) (Cconj y);
  Cconj_mul : forall x y, Cconj (Cmul x y) = Cmul (Cconj x) (Cconj y);
  Cconj_invol : forall x, Cconj (Cconj x) = x;
  Cge0_0 : Cge0 C0;
  Cge0_add : forall x y, Cge0 x -> Cge0 y -> Cge0 (Cadd x y);
  Cge0_sq : forall x, Cge0 (Cmul (Cconj x) x);
  Cge0_real : forall x, Cge0 x -> Cconj x = x
}.

Declare Scope C_scope.
Delimit Scope C_scope with C.
Bind Scope C_scope with C.
Notation "x + y" := (Cadd x y) : C_scope.
Notation "x * y" := (Cmul x y) : C_scope.
Notation "x - y" := (Csub x y) : C_scope.
Notation "- x" := (Copp x) : C_scope.
Notation "x ^*" := (Cconj x) (at level 1, format "x ^*") : C_scope.

(** Gaussian integers: an instance on which everything computes. *)
Module GaussZ.

Definition t : Type := (Z * Z)%type.
Definition zero : t := (0, 0)%Z.
Definition one : t := (1, 0)%Z.
Definition add (x y : t) : t := (fst x + fst y, snd x + snd y)%Z.
Definition mul (x y : t) : t :=
  (fst x * fst y - snd x * snd y, fst x * snd y + snd x * fst y)%Z.
Definition opp (x : t) : t := (- fst x, - snd x)%Z.
Definition sub (x y : t) : t := add x (opp y).
Definition conj (x : t) : t := (fst x, - snd x)%Z.
Definition ge0 (x : t) : Prop := (snd x = 0 /\ 0 <= fst x)%Z.

Lemma ring_laws_Z : ring_theory zero one add mul sub opp (@eq t).
Proof.
  constructor; intros; unfold sub, add, mul, opp, zero, one;
    repeat match goal with x : t |- _ => destruct x end;
    cbn [fst snd]; apply injective_projections; cbn [fst snd]; ring.
Qed.

Ltac by_components_Z :=
  intros; unfold ge0, conj, add, mul, zero, one in *;
  repeat match goal with x : t |- _ => destruct x end;
  cbn [fst snd] in *.

Lemma conj_0_Z : conj zero = zero.
Proof.
  by_components_Z. apply injective_projections; cbn [fst snd]; ring.
Qed.

Lemma conj_1_Z : conj one = one.
Proof.
  by_components_Z. apply injective_projections; cbn [fst snd]; ring.
Qed.

Lemma conj_add_Z x y : conj (add x y) = add (conj x) (conj y).
Proof.
  by_components_Z. apply injective_projections; cbn [fst snd]; ring.
Qed.

Lemma conj_mul_Z x y : conj (mul x y) = mul (conj x) (conj y).
Proof.
  by_components_Z. apply injective_projections; cbn [fst snd]; ring.
Qed.

Lemma conj_invol_Z x : conj (conj x) = x.
Proof.
  by_components_Z. apply injective_projections; cbn [fst snd]; ring.
Qed.

Lemma ge0_0_Z : ge0 zero.
Proof. by_components_Z. lia. Qed.

Lemma ge0_add_Z x y : ge0 x -> ge0 y -> ge0 (add x y).
Proof. by_components_Z. lia. Qed.

Lemma ge0_sq_Z x : ge0 (mul (conj x) x).
Proof. by_components_Z. split; [ring | nia]. Qed.

Lemma ge0_real_Z x : ge0 x -> conj x = x.
Proof.
  by_components_Z. apply injective_projections; cbn [fst snd]; lia.
Qed.

#[export] Instance scalar : Scalar :=
  {| C := t; C0 := zero; C1 := one; Cadd := add; Cmul := mul;
     Csub := sub; Copp := opp; Cconj := conj; Cge0 := ge0;
     C_ring := ring_laws_Z;
     Cconj_0 := conj_0_Z; Cconj_1 := conj_1_Z; Cconj_add := conj_add_Z;
     Cconj_mul := conj_mul_Z; Cconj_invol := conj_invol_Z;
     Cge0_0 := ge0_0_Z; Cge0_add := ge0_add_Z; Cge0_sq := ge0_sq_Z;
     Cge0_real := ge0_real_Z |}.

End GaussZ.

(** The complex numbers, as pairs of reals. *)
Module ComplexR.

Definition t : Type := (R * R)%type.
Definition zero : t := (0, 0)%R.
Definition one : t := (1, 0)%R.
Definition add (x y : t) : t := (fst x + fst y, snd x + snd y)%R.
Definition mul (x y : t) : t :=
  (fst x * fst y - snd x * snd y, fst x * snd y + snd x * fst y)%R.
Definition opp (x : t) : t := (- fst x, - snd x)%R.
Definition sub (x y : t) : t := add x (opp y).
Definition conj (x : t) : t := (fst x, - snd x)%R.
Definition ge0 (x : t) : Prop := (snd x = 0 /\ 0 <= fst x)%R.

Lemma ring_laws_R : ring_theory zero one add mul sub opp (@eq t).
Proof.
  constructor; intros; unfold sub, add, mul, opp, zero, one;
    repeat match goal with x : t |- _ => destruct x end;
    cbn [fst snd]; apply injective_projections; cbn [fst snd]; ring.
Qed.

Ltac by_components_R :=
  intros; unfold ge0, conj, add, mul, zero, one in *;
  repeat match goal with x : t |- _ => destruct x end;
  cbn [fst snd] in *.

Lemma conj_0_R : conj zero = zero.
Proof.
  by_components_R. apply injective_projections; cbn [fst snd]; ring.
Qed.

Lemma conj_1_R : conj one = one.
Proof.
  by_components_R. apply injective_projections; cbn [fst snd]; ring.
Qed.

Lemma conj_add_R x y : conj (add x y) = add (conj x) (conj y).
Proof.
  by_components_R. apply injective_projections; cbn [fst snd]; ring.
Qed.

Lemma conj_mul_R x y : conj (mul x y) = mul (conj x) (conj y).
Proof.
  by_components_R. apply injective_projections; cbn [fst snd]; ring.
Qed.

Lemma conj_invol_R x : conj (conj x) = x.
Proof.
  by_components_R. apply injective_projections; cbn [fst snd]; ring.
Qed.

Lemma ge0_0_R : ge0 zero.
Proof. by_components_R. lra. Qed.

Lemma ge0_add_R x y : ge0 x -> ge0 y -> ge0 (add x y).
Proof. by_components_R. lra. Qed.

Lemma ge0_sq_R x : ge0 (mul (conj x) x).
Proof. by_components_R. split; [ring | nra]. Qed.

Lemma ge0_real_R x : ge0 x -> conj x = x.
Proof.
  by_components_R. apply injective_projections; cbn [fst snd]; lra.
Qed.

#[export] Instance scalar : Scalar :=
  {| C := t; C0 := zero; C1 := one; Cadd := add; Cmul := mul;
     Csub := sub; Copp := opp; Cconj := conj; Cge0 := ge0;
     C_ring := ring_laws_R;
     Cconj_0 := conj_0_R; Cconj_1 := conj_1_R; Cconj_add := conj_add_R;
     Cconj_mul := conj_mul_R; Cconj_invol := conj_invol_R;
     Cge0_0 := ge0_0_R; Cge0_add := ge0_add_R; Cge0_sq := ge0_sq_R;
     Cge0_real := ge0_real_R |}.

End ComplexR.

(** ** Python exceptions and results *)

Inductive pyerror : Type :=
| ValueError
| IndexError
| AttributeError
| NotImplementedError
| LinAlgError.

Inductive result (A : Type) : Type :=
| Ok (a : A)
| Err (e : pyerror).
Arguments Ok {A} a.
Arguments Err {A} e.

Definition bind {A B : Type} (m : result A) (k : A -> result B) : result B :=
  match m with
  | Ok a => k a
  | Err e => Err e
  end.

Notation "x <- m ;; k" := (bind m (fun x => k))
  (at level 61, m at next level, right associativity).

(** ** Python lists *)

Definition getitem {A : Type} (l : list A) (j : nat) : result A :=
  match nth_error l j with
  | Some x => Ok x
  | None => Err IndexError
  end.

Fixpoint set_nth {A : Type} (n : nat) (x : A) (l : list A) : list A :=
  match l, n with
  | [], _ => []
  | _ :: t, O => x :: t
  | h :: t, S k => h :: set_nth k x t
  end.

(** [l[j] = x] *)
Definition setitem {A : Type} (l : list A) (j : nat) (x : A)
  : result (list A) :=
  if j <? length l then Ok (set_nth j x l) else Err IndexError.

Fixpoint remove_nth {A : Type} (n : nat) (l : list A) : list A :=
  match l, n with
  | [], _ => []
  | _ :: t, O => t
  | h :: t, S k => h :: remove_nth k t
  end.

Fixpoint insert_nth {A : Type} (n : nat) (x : A) (l : list A) : list A :=
  match n, l with
  | O, _ => x :: l
  | S k, h :: t => h :: insert_nth k x t
  | S k, [] => [x]
  end.

Definition swap_nth (i j : nat) (l : list nat) : list nat :=
  set_nth i (nth j l 0) (set_nth j (nth i l 0) l).

Fixpoint zip_with {A B D : Type} (f : A -> B -> D) (l : list A) (m : list B)
  : list D :=
  match l, m with
  | a :: l', b :: m' => f a b :: zip_with f l' m'
  | _, _ => []
  end.

(** [for j in range(n): acc = body(j, acc)], stopping at the first
    exception. *)
Fixpoint for_range {A : Type} (js : list nat) (acc : A)
  (body : nat -> A -> result A) : result A :=
  match js with
  | [] => Ok acc
  | j :: js' => acc' <- body j acc ;; for_range js' acc' body
  end.

(** ** numpy arrays *)

Section Holopy.

Context {F : Scalar}.
Add Ring C_Ring : C_ring.

Local Open Scope C_scope.

(** [Csum n f] is f 0 + ... + f (n-1). *)
Fixpoint Csum (n : nat) (f : nat -> C) : C :=
  match n with
  | O => C0
  | S k => Csum k f + f k
  end.

(** An ndarray: its shape and its buffer in row-major (C) order. *)
Record ndarray : Type := mk_ndarray {
  shape : list nat;
  data : list C
}.

Definition size_of (sh : list nat) : nat := fold_right Nat.mul 1%nat sh.

(** [a.size], [a.ndim] *)
Definition nd_size (a : ndarray) : nat := size_of (shape a).
Definition ndim (a : ndarray) : nat := length (shape a).

(** Flat offset of a multi-index, and back. *)
Fixpoint ravel (sh idx : list nat) : nat :=
  match sh, idx with
  | _ :: sh', i :: idx' => (i * size_of sh' + ravel sh' idx')%nat
  | _, _ => O
  end.

Fixpoint unravel (sh : list nat) (k : nat) : list nat :=
  match sh with
  | [] => []
  | _ :: sh' => (k / size_of sh')%nat :: unravel sh' (k mod size_of sh')
  end.

Definition get (a : ndarray) (idx : list nat) : C :=
  nth (ravel (shape a) idx) (data a) C0.

(** The array of shape [sh] whose entry at multi-index [idx] is [f idx]. *)
Definition build (sh : list nat) (f : list nat -> C) : ndarray :=
  {| shape := sh;
     data := map (fun k => f (unravel sh k)) (seq 0 (size_of sh)) |}.

(** A Python number, as numpy sees it: a 0-d array. *)
Definition scalar (c : C) : ndarray := {| shape := []; data := [c] |}.

(** [np.zeros(n)] *)
Definition np_zeros (n : nat) : ndarray := build [n] (fun _ => C0).

(** [np.eye(n, m)] *)
Definition np_eye (n m : nat) : ndarray :=
  build [n; m]
    (fun idx => if (nth 0 idx 0 =? nth 1 idx 0)%nat then C1 else C0).

(** [a.conj()] *)
Definition conj (a : ndarray) : ndarray :=
  {| shape := shape a; data := map Cconj (data a) |}.

(** [a.reshape(sh)] *)
Definition reshape (a : ndarray) (sh : list nat) : result ndarray :=
  if (nd_size a =? size_of sh)%nat
  then Ok {| shape := sh; data := data a |}
  else Err ValueError.

(** [a.T]: the axes reversed *)
Definition transpose (a : ndarray) : ndarray :=
  build (rev (shape a)) (fun idx => get a (rev idx)).

(** [np.swapaxes(a, i, j)]; numpy's AxisError is a ValueError. *)
Definition swapaxes (a : ndarray) (i j : nat) : result ndarray :=
  if ((i <? ndim a) && (j <? ndim a))%bool
  then Ok (build (swap_nth i j (shape a))
             (fun idx => get a (swap_nth i j idx)))
  else Err ValueError.

(** [np.tensordot(a, b, axes=([ka],[kb]))] *)
Definition tensordot (a b : ndarray) (ka kb : nat) : result ndarray :=
  if ((ka <? ndim a) && (kb <? ndim b))%bool then
    let n := nth ka (shape a) 0%nat in
    if (n =? nth kb (shape b) 0)%nat then
      let sa := remove_nth ka (shape a) in
      let sb := remove_nth kb (shape b) in
      Ok (build (sa ++ sb)
            (fun idx =>
               let ia := firstn (length sa) idx in
               let ib := skipn (length sa) idx in
               Csum n (fun p => get a (insert_nth ka p ia)
                                * get b (insert_nth kb p ib))))
    else Err ValueError
  else Err IndexError.

(** [np.kron(a, b)]: the shapes are padded with leading ones to a common
    rank and multiplied axis by axis. *)
Definition pad_shape (n : nat) (sh : list nat) : list nat :=
  repeat 1%nat (n - length sh) ++ sh.

Definition kron (a b : ndarray) : ndarray :=
  let n := Nat.max (ndim a) (ndim b) in
  let sa := pad_shape n (shape a) in
  let sb := pad_shape n (shape b) in
  build (zip_with Nat.mul sa sb)
    (fun idx =>
       nth (ravel sa (zip_with Nat.div idx sb)) (data a) C0
       * nth (ravel sb (zip_with Nat.modulo idx sb)) (data b) C0).

(** [a @ b] on operands of rank one or two.  A 0-d operand is a
    ValueError in numpy; stacks of matrices (rank above two) never arise
    from the rank-one boundary vectors of the docstrings and are not
    modelled. *)
Definition matmul (a b : ndarray) : result ndarray :=
  match shape a, shape b with
  | [n], [m] =>
      if (n =? m)%nat
      then Ok (build [] (fun _ => Csum n (fun k => get a [k] * get b [k])))
      else Err ValueError
  | [r; c], [m] =>
      if (c =? m)%nat
      then Ok (build [r]
                 (fun idx => Csum c (fun k => get a [nth 0 idx 0%nat; k]
                                              * get b [k])))
      else Err ValueError
  | [n], [r; c] =>
      if (n =? r)%nat
      then Ok (build [c]
                 (fun idx => Csum n (fun k => get a [k]
                                              * get b [k; nth 0 idx 0%nat])))
      else Err ValueError
  | [r; c], [r'; c'] =>
      if (c =? r')%nat
      then Ok (build [r; c']
                 (fun idx => Csum c (fun k => get a [nth 0 idx 0%nat; k]
                                              * get b [k; nth 1 idx 0%nat])))
      else Err ValueError
  | _, _ => Err ValueError
  end.

(** [np.dot] agrees with [@] on the rank-one operands the source gives it. *)
Definition np_dot (a b : ndarray) : result ndarray := matmul a b.

(** Basic indexing with one entry per axis, as far as [.size] of the
    result goes: [At i] is the integer i, [All] is the slice [:]. *)
Inductive index : Type :=
| All
| At (i : nat).

Fixpoint index_shape (ix : list index) (sh : list nat)
  : result (list nat) :=
  match ix, sh with
  | [], _ => Ok sh
  | _ :: _, [] => Err IndexError
  | All :: ix', n :: sh' => r <- index_shape ix' sh' ;; Ok (n :: r)
  | At i :: ix', n :: sh' =>
      if (i <? n)%nat then index_shape ix' sh' else Err IndexError
  end.

(** [a[ix].size] *)
Definition index_size (a : ndarray) (ix : list index) : result nat :=
  sh <- index_shape ix (shape a) ;; Ok (size_of sh).

(** [np.array(b == None).all()]: true for [None]; for an array the
    comparison is elementwise and false everywhere, so [all()] holds only
    of an array without entries. *)
Definition is_None_all (b : option ndarray) : bool :=
  match b with
  | None => true
  | Some v => (nd_size v =? 0)%nat
  end.

(** [np.linalg.matrix_power(a, n)].  A negative exponent goes through
    [np.linalg.inv], which is numpy's own and is taken as [linalg_inv]. *)
Variable linalg_inv : ndarray -> result ndarray.

Fixpoint mpow (n : nat) (a : ndarray) (k : nat) : result ndarray :=
  match k with
  | O => Ok (np_eye n n)
  | S k' => p <- mpow n a k' ;; matmul a p
  end.

Definition matrix_power (a : ndarray) (n : Z) : result ndarray :=
  match shape a with
  | [r; c] =>
      if (r =? c)%nat then
        if (n <? 0)%Z
        then ai <- linalg_inv a ;; mpow r ai (Z.to_nat (- n))
        else mpow r a (Z.to_nat n)
      else Err LinAlgError
  | _ => Err LinAlgError
  end.

(** ** class MPS *)

(** [L]: an integer, or [np.inf] for an infinite chain. *)
Inductive chain_length : Type :=
| Finite (n : Z)
| Infinite.

Record MPS : Type := mk_MPS {
  l_uc : nat;
  L : chain_length;
  tensors : list ndarray;
  d : nat;
  chi : nat;
  bdry_vecs : list (option ndarray)
}.

(** [MPS.__init__(tensors, L, bdry_vecs)].  The branch for an unspecified
    left boundary appends [np.zeros(chi)] to [self.bdry_vecs] and then
    assigns through [self.bdry_vec], an attribute that is never set:
    Python raises AttributeError there. *)
Definition MPS_init (tensors : list ndarray) (L : chain_length)
  (bdry_vecs : list (option ndarray)) : result MPS :=
  let l_uc := length tensors in
  t0 <- getitem tensors 0 ;;
  d <- index_size t0 [All; At 0; At 0] ;;
  chi <- index_size t0 [At 0; All; At 0] ;;
  let bv : list (option ndarray) := [] in
  b0 <- getitem bdry_vecs 0 ;;
  bv <- (if is_None_all b0 then
           let bv := bv ++ [Some (np_zeros chi)] in
           Err AttributeError
         else
           match b0 with
           | Some v =>
               if negb (nd_size v =? chi)%nat then Err ValueError
               else Ok (bv ++ [Some v])
           | None => Err AttributeError
           end) ;;
  b1 <- getitem bdry_vecs 1 ;;
  bv <- (if is_None_all b1 then Ok (bv ++ [None])
         else
           match b1 with
           | Some v =>
               if negb (nd_size v =? chi)%nat then Err ValueError
               else Ok (bv ++ [Some v])
           | None => Err AttributeError
           end) ;;
  Ok {| l_uc := l_uc; L := L; tensors := tensors; d := d; chi := chi;
        bdry_vecs := bv |}.

(** ** class MPO *)

Record MPO : Type := mk_MPO {
  o_l_uc : nat;
  o_L : chain_length;
  o_tensors : list ndarray;
  o_d : nat;
  o_chi : nat;
  o_bdry_vecs : list ndarray
}.

(** Broadcasting: two axis lengths agree when they are equal or one of
    them is 1; two shapes are aligned at their last axes. *)
Definition broadcast_dim (m n : nat) : option nat :=
  if (m =? n)%nat then Some m
  else if (m =? 1)%nat then Some n
  else if (n =? 1)%nat then Some m
  else None.

Fixpoint broadcast_rev (s t : list nat) : option (list nat) :=
  match s, t with
  | [], _ => Some t
  | _, [] => Some s
  | m :: s', n :: t' =>
      match broadcast_dim m n, broadcast_rev s' t' with
      | Some k, Some r => Some (k :: r)
      | _, _ => None
      end
  end.

Definition broadcast_shapes (s t : list nat) : option (list nat) :=
  option_map (@rev nat) (broadcast_rev (rev s) (rev t)).

Definition broadcasts (s t : list nat) : bool :=
  match broadcast_shapes s t with
  | Some _ => true
  | None => false
  end.

(** The entry of an operand of shape [sh] that the entry [idx] of the
    broadcast result reads. *)
Definition broadcast_index (sh idx : list nat) : list nat :=
  zip_with (fun n i => if (n =? 1)%nat then 0%nat else i) sh
    (skipn (length idx - length sh) idx).

(** [a + b]: elementwise, with broadcasting. *)
Definition np_add (a b : ndarray) : result ndarray :=
  match broadcast_shapes (shape a) (shape b) with
  | Some sh =>
      Ok (build sh (fun idx => get a (broadcast_index (shape a) idx)
                               + get b (broadcast_index (shape b) idx)))
  | None => Err ValueError
  end.

(** [a += b] on an array [a]: the sum has to fit the shape of [a].
    (numpy also refuses to cast a complex sum into a float array; with
    one scalar type that check has no counterpart here.  The loop of
    [MPO.__init__] never comes this far: the item assignment after a
    first [+=] of an array always raises.) *)
Definition np_iadd (a b : ndarray) : result ndarray :=
  r <- np_add a b ;;
  if list_eq_dec Nat.eq_dec (shape r) (shape a) then Ok r
  else Err ValueError.

(** [np.asarray(l)] of a Python list of arrays: the empty list gives an
    array of shape (0,), arrays of one shape are stacked along a new
    first axis, and a ragged list is a ValueError. *)
Definition np_asarray (l : list ndarray) : result ndarray :=
  match l with
  | [] => Ok {| shape := [0%nat]; data := [] |}
  | v :: _ =>
      if forallb (fun w => if list_eq_dec Nat.eq_dec (shape w) (shape v)
                           then true else false) l
      then Ok {| shape := length l :: shape v;
                 data := concat (map data l) |}
      else Err ValueError
  end.

(** [a[j] = c] for a number [c]: entry [j] along the first axis is
    filled with [c]. *)
Definition np_setitem (a : ndarray) (j : nat) (c : C) : result ndarray :=
  match shape a with
  | [] => Err IndexError
  | n :: _ =>
      if (j <? n)%nat
      then Ok (build (shape a)
                 (fun idx => if (nth 0 idx 0 =? j)%nat then c
                             else get a idx))
      else Err IndexError
  end.

(** The entries [a[0]], [a[1]], ... of an array along its first axis. *)
Definition np_rows (a : ndarray) : list ndarray :=
  match shape a with
  | [] => []
  | n :: sh => map (fun i => build sh (fun idx => get a (i :: idx)))
                 (seq 0 n)
  end.

(** What [self.bdry_vecs] holds while [MPO.__init__] runs: the Python
    list it starts as, or a numpy array.  For a list on the left and an
    array on the right, [+=] is not list extension: the list has no
    numeric addition, so Python hands the operands to the array's, and
    numpy adds [np.asarray(list)] and the array elementwise; the name is
    rebound to the sum. *)
Inductive pyseq : Type :=
| PyList (l : list ndarray)
| PyArray (a : ndarray).

(** [s += b] for an array [b] *)
Definition iadd_array (s : pyseq) (b : ndarray) : result pyseq :=
  match s with
  | PyList l => a <- np_asarray l ;; r <- np_add a b ;; Ok (PyArray r)
  | PyArray a => r <- np_iadd a b ;; Ok (PyArray r)
  end.

(** [s += l] for a Python list [l] *)
Definition iadd_list (s : pyseq) (l : list ndarray) : result pyseq :=
  match s with
  | PyList l0 => Ok (PyList (l0 ++ l))
  | PyArray a => b <- np_asarray l ;; r <- np_iadd a b ;; Ok (PyArray r)
  end.

(** [s[j] = c] for a number [c] *)
Definition seq_setitem (s : pyseq) (j : nat) (c : C) : result pyseq :=
  match s with
  | PyList l => l' <- setitem l j (scalar c) ;; Ok (PyList l')
  | PyArray a => a' <- np_setitem a j c ;; Ok (PyArray a')
  end.

(** [s[0]], [s[1]], ... *)
Definition seq_items (s : pyseq) : list ndarray :=
  match s with
  | PyList l => l
  | PyArray a => np_rows a
  end.

(** [MPO.__init__(tensors, L, bdry_vecs)].  [self.chi] is read along
    axis 2 of the first tensor.  For an unspecified boundary the source
    does [self.bdry_vecs += np.zeros(self.chi)] with a list on the left,
    which is numpy's addition, and then [self.bdry_vecs[j] = 1]; for a
    given vector it does [self.bdry_vecs += [bdry_vecs[j]]], which
    extends the list. *)
Definition MPO_init (tensors : list ndarray) (L : chain_length)
  (bdry_vecs : list (option ndarray)) : result MPO :=
  let l_uc := length tensors in
  t0 <- getitem tensors 0 ;;
  d <- index_size t0 [All; At 0; At 0; At 0] ;;
  chi <- index_size t0 [At 0; At 0; All; At 0] ;;
  bv <- for_range (seq 0 2) (PyList [])
          (fun j bv =>
             b <- getitem bdry_vecs j ;;
             if is_None_all b then
               bv <- iadd_array bv (np_zeros chi) ;;
               seq_setitem bv j C1
             else
               match b with
               | Some v =>
                   if negb (nd_size v =? chi)%nat then Err ValueError
                   else iadd_list bv [v]
               | None => Err AttributeError
               end) ;;
  Ok {| o_l_uc := l_uc; o_L := L; o_tensors := tensors; o_d := d;
        o_chi := chi; o_bdry_vecs := seq_items bv |}.

(** ** MPS.transfer_matrix *)

(** One pass of the loop without an operator. *)
Definition tm_site (self : MPS) (j : nat) (t_mat : ndarray)
  : result ndarray :=
  A <- getitem (tensors self) j ;;
  t_tensor <- tensordot (conj A) A 0 0 ;;
  sw <- swapaxes t_tensor 1 2 ;;
  t_mat_site <- reshape sw [chi self ^ 2; chi self ^ 2]%nat ;;
  matmul t_mat_site t_mat.

(** One pass of the loop with an operator. *)
Definition tm_site_mpo (self : MPS) (mpo : MPO) (j : nat) (t_mat : ndarray)
  : result ndarray :=
  let chi_1 := (o_chi mpo * chi self)%nat in
  O <- getitem (o_tensors mpo) j ;;
  A <- getitem (tensors self) j ;;
  mpo_on_ket <- tensordot O A 2 0 ;;
  sw <- swapaxes mpo_on_ket 2 3 ;;
  mpo_on_ket_reshape <- reshape sw [d self; chi_1; chi_1] ;;
  let chi_t := (chi_1 * chi self)%nat in
  bra <- tensordot (conj A) mpo_on_ket_reshape 0 0 ;;
  sw' <- swapaxes bra 1 2 ;;
  t_mat_site <- reshape sw' [chi_t; chi_t] ;;
  matmul t_mat_site t_mat.

Definition transfer_matrix (self : MPS) (mpo : option MPO)
  : result ndarray :=
  match mpo with
  | None =>
      let t_mat := np_eye (chi self ^ 2) (chi self ^ 2) in
      for_range (seq 0 (l_uc self)) t_mat (tm_site self)
  | Some mpo =>
      let chi_mpo := o_chi mpo in
      let t_mat := np_eye (chi self ^ 2 * chi_mpo) (chi self ^ 2 * chi_mpo) in
      for_range (seq 0 (l_uc self)) t_mat (tm_site_mpo self mpo)
  end.

(** ** MPS.expect *)

(** [self.bdry_vecs[j]] used as an array: [None] has no [conj]. *)
Definition bdry_array (self : MPS) (j : nat) : result ndarray :=
  b <- getitem (bdry_vecs self) j ;;
  match b with
  | Some v => Ok v
  | None => Err AttributeError
  end.

Definition expect (self : MPS) (mpo : option MPO) : result ndarray :=
  match L self with
  | Finite n =>
      tm <- transfer_matrix self mpo ;;
      t_mat <- matrix_power tm n ;;
      match mpo with
      | None =>
          l <- bdry_array self 0 ;;
          let bvec_l := kron (conj l) l in
          b1 <- getitem (bdry_vecs self) 1 ;;
          if is_None_all b1 then
            x <- matmul t_mat bvec_l ;;
            t_mat_on_rvec <- reshape x [chi self ^ 2]%nat ;;
            rvec <- reshape (np_eye (chi self) (chi self))
                      [chi self ^ 2]%nat ;;
            np_dot rvec t_mat_on_rvec
          else
            r <- bdry_array self 1 ;;
            let bvec_r := kron (conj r) r in
            y <- matmul (transpose (conj bvec_r)) t_mat ;;
            matmul y bvec_l
      | Some mpo =>
          l <- bdry_array self 0 ;;
          ol <- getitem (o_bdry_vecs mpo) 0 ;;
          let bvec_l := kron (conj l) (kron ol l) in
          b1 <- getitem (bdry_vecs self) 1 ;;
          if is_None_all b1 then
            x <- matmul t_mat bvec_l ;;
            t_vleft <- reshape x [chi self; o_chi mpo; chi self] ;;
            or <- getitem (o_bdry_vecs mpo) 1 ;;
            c <- tensordot or t_vleft 0 1 ;;
            mpo_rvec_contracted <- reshape c [chi self ^ 2]%nat ;;
            rvec <- reshape (np_eye (chi self) (chi self))
                      [chi self ^ 2]%nat ;;
            np_dot rvec mpo_rvec_contracted
          else
            r <- bdry_array self 1 ;;
            or <- getitem (o_bdry_vecs mpo) 1 ;;
            let bvec_r := kron (conj r) (kron or r) in
            y <- matmul (transpose (conj bvec_r)) t_mat ;;
            matmul y bvec_l
      end
  | Infinite => Err NotImplementedError
  end.

(** ** Canonical form: both methods are stubs in the source. *)

Definition check_rcf (self : MPS) : result bool := Err NotImplementedError.

Definition convert_rcf (self : MPS) : result MPS := Err NotImplementedError.

End Holopy.

(** * Properties *)

Section Theory.

Context {F : Scalar}.
Add Ring C_Ring' : C_ring.

Local Open Scope C_scope.

(** ** Sums *)

Lemma Csum_ext (n : nat) (f g : nat -> C) :
  (forall k, (k < n)%nat -> f k = g k) -> Csum n f = Csum n g.
Proof.
  induction n as [|n IH]; intros H; simpl; [reflexivity|].
  rewrite IH by (intros; apply H; lia). rewrite H by lia. reflexivity.
Qed.

Lemma Csum_zero (n : nat) : Csum n (fun _ => C0) = C0.
Proof. induction n as [|n IH]; simpl; [reflexivity|]. rewrite IH. ring. Qed.

Lemma Csum_add (n : nat) (f g : nat -> C) :
  Csum n (fun k => f k + g k) = Csum n f + Csum n g.
Proof. induction n as [|n IH]; simpl; [ring|]. rewrite IH. ring. Qed.

Lemma Csum_mul_l (n : nat) (c : C) (f : nat -> C) :
  Csum n (fun k => c * f k) = c * Csum n f.
Proof. induction n as [|n IH]; simpl; [ring|]. rewrite IH. ring. Qed.

Lemma Csum_mul_r (n : nat) (c : C) (f : nat -> C) :
  Csum n (fun k => f k * c) = Csum n f * c.
Proof. induction n as [|n IH]; simpl; [ring|]. rewrite IH. ring. Qed.

Lemma Csum_swap (n m : nat) (f : nat -> nat -> C) :
  Csum n (fun i => Csum m (fun j => f i j))
  = Csum m (fun j => Csum n (fun i => f i j)).
Proof.
  induction n as [|n IH]; simpl.
  - symmetry. apply Csum_zero.
  - rewrite IH, <- Csum_add. reflexivity.
Qed.

Lemma Csum_conj (n : nat) (f : nat -> C) :
  (Csum n f)^* = Csum n (fun k => (f k)^*).
Proof.
  induction n as [|n IH]; simpl; [apply Cconj_0|].
  rewrite Cconj_add, IH. reflexivity.
Qed.

(** Kronecker delta *)
Definition delta (i j : nat) : C := if (i =? j)%nat then C1 else C0.

Lemma Csum_delta_l (n j : nat) (f : nat -> C) :
  (j < n)%nat -> Csum n (fun k => delta j k * f k) = f j.
Proof.
  unfold delta. induction n as [|n IH]; intros H; [lia|]. simpl.
  destruct (Nat.eq_dec j n) as [->|Hne].
  - rewrite Nat.eqb_refl.
    rewrite (Csum_ext n _ (fun _ => C0)).
    + rewrite Csum_zero. ring.
    + intros k Hk. destruct (Nat.eqb_spec n k); [lia|ring].
  - rewrite IH by lia. destruct (Nat.eqb_spec j n); [lia|ring].
Qed.

Lemma Csum_delta_r (n j : nat) (f : nat -> C) :
  (j < n)%nat -> Csum n (fun k => f k * delta k j) = f j.
Proof.
  intros H. rewrite <- (Csum_delta_l n j f H). apply Csum_ext.
  intros k _. unfold delta. rewrite (Nat.eqb_sym k j). ring.
Qed.

(** A sum over a flattened pair of indices is a double sum. *)
Lemma Csum_flat (m n : nat) (f : nat -> C) :
  Csum (m * n) f = Csum m (fun a => Csum n (fun b => f (a * n + b)%nat)).
Proof.
  induction m as [|m IH]; simpl; [reflexivity|].
  rewrite <- IH. clear IH.
  replace (n + m * n)%nat with (m * n + n)%nat by lia.
  generalize (m * n)%nat as q. intros q.
  induction n as [|n IH]; simpl.
  - rewrite Nat.add_0_r. ring.
  - replace (q + S n)%nat with (S (q + n)) by lia. simpl.
    rewrite IH. ring.
Qed.

(** ** Lists of indices *)

Lemma nth_map_seq (A : Type) (f : nat -> A) (n k : nat) (dflt : A) :
  (k < n)%nat -> nth k (map f (seq 0 n)) dflt = f k.
Proof.
  intros H. rewrite (nth_indep _ dflt (f 0%nat)) by (rewrite length_map, length_seq; exact H).
  rewrite (map_nth f (seq 0 n) 0%nat k), seq_nth by exact H. reflexivity.
Qed.

Lemma ravel_unravel (sh idx : list nat) :
  Forall2 lt idx sh ->
  (ravel sh idx < size_of sh)%nat /\ unravel sh (ravel sh idx) = idx.
Proof.
  intros H. induction H as [|i s idx sh Hi _ [IH1 IH2]]; simpl.
  - split; [lia | reflexivity].
  - fold (size_of sh). split; [nia|].
    rewrite Nat.div_add_l by lia. rewrite Nat.div_small by exact IH1.
    rewrite Nat.add_0_r. f_equal.
    rewrite Nat.add_comm, Nat.Div0.mod_add, Nat.mod_small by exact IH1.
    exact IH2.
Qed.

Lemma get_build (sh idx : list nat) (f : list nat -> C) :
  Forall2 lt idx sh -> get (build sh f) idx = f idx.
Proof.
  intros H. destruct (ravel_unravel sh idx H) as [H1 H2].
  unfold get, build; simpl. rewrite nth_map_seq by exact H1.
  rewrite H2. reflexivity.
Qed.

Lemma get_conj (a : ndarray) (idx : list nat) :
  get (conj a) idx = (get a idx)^*.
Proof.
  unfold get, conj; simpl. rewrite <- Cconj_0 at 1. apply map_nth.
Qed.

(** ** Arrays as functions of their indices *)

Definition is_vec (v : ndarray) (n : nat) (f : nat -> C) : Prop :=
  shape v = [n] /\ forall i, (i < n)%nat -> get v [i] = f i.

Definition is_mat (M : ndarray) (r c : nat) (f : nat -> nat -> C) : Prop :=
  shape M = [r; c] /\
  forall i j, (i < r)%nat -> (j < c)%nat -> get M [i; j] = f i j.

(** Matrix product, matrix-vector product and power on index functions. *)
Definition fmm (n : nat) (f g : nat -> nat -> C) (i j : nat) : C :=
  Csum n (fun k => f i k * g k j).

Definition fmv (n : nat) (f : nat -> nat -> C) (v : nat -> C) (i : nat) : C :=
  Csum n (fun k => f i k * v k).

Fixpoint fpow (n : nat) (f : nat -> nat -> C) (k : nat) : nat -> nat -> C :=
  match k with
  | O => delta
  | S k' => fmm n f (fpow n f k')
  end.

Lemma unravel_1 (n k : nat) : unravel [n] k = [k].
Proof.
  cbn [unravel size_of fold_right]. rewrite Nat.div_1_r. reflexivity.
Qed.

Lemma unravel_2 (r c k : nat) :
  unravel [r; c] k = [(k / c)%nat; (k mod c)%nat].
Proof.
  cbn [unravel size_of fold_right].
  rewrite Nat.mul_1_r, Nat.div_1_r. reflexivity.
Qed.

Lemma build_is_vec (n : nat) (f : list nat -> C) :
  is_vec (build [n] f) n (fun i => f [i]).
Proof.
  split; [reflexivity|]. intros i Hi. apply get_build.
  repeat constructor. exact Hi.
Qed.

Lemma build_is_mat (r c : nat) (f : list nat -> C) :
  is_mat (build [r; c] f) r c (fun i j => f [i; j]).
Proof.
  split; [reflexivity|]. intros i j Hi Hj. apply get_build.
  repeat constructor; assumption.
Qed.

Lemma np_eye_is_mat (n : nat) : is_mat (np_eye n n) n n delta.
Proof. apply (build_is_mat n n). Qed.

Lemma matmul_mm (a b : ndarray) (r c c' : nat) (f g : nat -> nat -> C) :
  is_mat a r c f -> is_mat b c c' g ->
  exists p, matmul a b = Ok p /\ is_mat p r c' (fmm c f g).
Proof.
  intros [Sa Ha] [Sb Hb]. unfold matmul. rewrite Sa, Sb, Nat.eqb_refl.
  eexists; split; [reflexivity|]. split; [reflexivity|].
  intros i j Hi Hj. rewrite get_build by (repeat constructor; assumption).
  simpl nth. apply Csum_ext. intros k Hk. rewrite Ha, Hb by assumption.
  reflexivity.
Qed.

Lemma matmul_mv (a b : ndarray) (r c : nat) (f : nat -> nat -> C)
  (v : nat -> C) :
  is_mat a r c f -> is_vec b c v ->
  exists p, matmul a b = Ok p /\ is_vec p r (fmv c f v).
Proof.
  intros [Sa Ha] [Sb Hb]. unfold matmul. rewrite Sa, Sb, Nat.eqb_refl.
  eexists; split; [reflexivity|]. split; [reflexivity|].
  intros i Hi. rewrite get_build by (repeat constructor; assumption).
  simpl nth. apply Csum_ext. intros k Hk. rewrite Ha, Hb by assumption.
  reflexivity.
Qed.

Lemma matmul_vm (a b : ndarray) (r c : nat) (v : nat -> C)
  (f : nat -> nat -> C) :
  is_vec a r v -> is_mat b r c f ->
  exists p, matmul a b = Ok p
            /\ is_vec p c (fun j => Csum r (fun k => v k * f k j)).
Proof.
  intros [Sa Ha] [Sb Hb]. unfold matmul. rewrite Sa, Sb, Nat.eqb_refl.
  eexists; split; [reflexivity|]. split; [reflexivity|].
  intros i Hi. rewrite get_build by (repeat constructor; assumption).
  simpl nth. apply Csum_ext. intros k Hk. rewrite Ha, Hb by assumption.
  reflexivity.
Qed.

Lemma matmul_vv (a b : ndarray) (n : nat) (v w : nat -> C) :
  is_vec a n v -> is_vec b n w ->
  matmul a b = Ok (scalar (Csum n (fun k => v k * w k))).
Proof.
  intros [Sa Ha] [Sb Hb]. unfold matmul. rewrite Sa, Sb, Nat.eqb_refl.
  unfold build, scalar; simpl. do 3 f_equal.
  apply Csum_ext. intros k Hk. rewrite Ha, Hb by assumption. reflexivity.
Qed.

Lemma mpow_is_mat (a : ndarray) (n : nat) (f : nat -> nat -> C) (k : nat) :
  is_mat a n n f ->
  exists p, mpow n a k = Ok p /\ is_mat p n n (fpow n f k).
Proof.
  intros Ha. induction k as [|k [p [E Hp]]]; simpl.
  - eexists; split; [reflexivity | apply np_eye_is_mat].
  - rewrite E; simpl. apply (matmul_mm _ _ _ _ _ _ _ Ha Hp).
Qed.

Lemma reshape_vec (x : ndarray) (n m : nat) (f : nat -> C) :
  is_vec x n f -> n = m ->
  exists y, reshape x [m] = Ok y /\ is_vec y m f.
Proof.
  intros [Sx Hx] <-. unfold reshape, nd_size. rewrite Sx, Nat.eqb_refl.
  eexists; split; [reflexivity|]. split; [reflexivity|].
  intros i Hi. rewrite <- Hx by exact Hi. unfold get; rewrite Sx; reflexivity.
Qed.

(** The flattened identity, [np.eye(chi).reshape(chi**2)]. *)
Definition trace_vec (chi i : nat) : C := delta (i / chi) (i mod chi).

Lemma reshape_eye (chi m : nat) :
  m = (chi * chi)%nat ->
  exists y, reshape (np_eye chi chi) [m] = Ok y /\ is_vec y m (trace_vec chi).
Proof.
  intros ->. unfold reshape, nd_size; cbn [shape np_eye build].
  replace (size_of [chi; chi] =? size_of [(chi * chi)%nat])%nat with true
    by (symmetry; apply Nat.eqb_eq; cbn [size_of fold_right]; lia).
  eexists; split; [reflexivity|]. split; [reflexivity|].
  intros i Hi. unfold get; cbn [shape data ravel size_of fold_right].
  replace (i * 1 + 0)%nat with i by lia.
  unfold np_eye, build; cbn [data].
  rewrite nth_map_seq by (cbn [size_of fold_right]; lia).
  rewrite unravel_2. reflexivity.
Qed.

(** [np.kron] of two rank-one arrays *)
Lemma kron_vec (a b : ndarray) (n m : nat) (v w : nat -> C) :
  is_vec a n v -> is_vec b m w ->
  is_vec (kron a b) (n * m) (fun i => v (i / m)%nat * w (i mod m)%nat).
Proof.
  intros [Sa Ha] [Sb Hb]. unfold kron, ndim. rewrite Sa, Sb. simpl.
  split; [reflexivity|]. intros i Hi.
  assert (Hm : (0 < m)%nat) by nia.
  rewrite get_build by (repeat constructor; exact Hi).
  simpl. rewrite <- Ha, <- Hb.
  - unfold get. rewrite Sa, Sb. reflexivity.
  - apply Nat.mod_upper_bound; lia.
  - apply Nat.Div0.div_lt_upper_bound; lia.
Qed.

(** ** The transfer matrix of one site *)

Lemma get_reshape (a b : ndarray) (sh idx idx' : list nat) :
  reshape a sh = Ok b -> ravel sh idx' = ravel (shape a) idx ->
  get b idx' = get a idx.
Proof.
  unfold reshape. destruct (nd_size a =? size_of sh)%nat; [|discriminate].
  intros [= <-] E. unfold get. cbn [shape data]. rewrite E. reflexivity.
Qed.

Lemma shape_reshape (a b : ndarray) (sh : list nat) :
  reshape a sh = Ok b -> shape b = sh.
Proof.
  unfold reshape. destruct (nd_size a =? size_of sh)%nat; [|discriminate].
  intros [= <-]. reflexivity.
Qed.

Lemma reshape_ok (a : ndarray) (sh : list nat) :
  size_of (shape a) = size_of sh -> exists b, reshape a sh = Ok b.
Proof.
  intros E. unfold reshape, nd_size. rewrite E, Nat.eqb_refl. eauto.
Qed.

(** [np.tensordot(a, b, axes=([0],[0]))] of two rank-three arrays *)
Lemma tensordot_3_3 (a b : ndarray) (n x y z w : nat) :
  shape a = [n; x; y] -> shape b = [n; z; w] ->
  exists t, tensordot a b 0 0 = Ok t /\ shape t = [x; y; z; w] /\
    forall i j k l, (i < x)%nat -> (j < y)%nat -> (k < z)%nat -> (l < w)%nat ->
      get t [i; j; k; l] = Csum n (fun p => get a [p; i; j] * get b [p; k; l]).
Proof.
  intros Ha Hb. unfold tensordot, ndim. rewrite Ha, Hb.
  cbn [length Nat.ltb Nat.leb andb nth remove_nth app]. rewrite Nat.eqb_refl.
  eexists; split; [reflexivity|]. split; [reflexivity|].
  intros i j k l Hi Hj Hk Hl.
  rewrite get_build by (repeat constructor; assumption). reflexivity.
Qed.

(** [np.swapaxes(t, 1, 2)] of a rank-four array *)
Lemma swapaxes_4 (t : ndarray) (x y z w : nat) :
  shape t = [x; y; z; w] ->
  exists s, swapaxes t 1 2 = Ok s /\ shape s = [x; z; y; w] /\
    forall i j k l, (i < x)%nat -> (j < z)%nat -> (k < y)%nat -> (l < w)%nat ->
      get s [i; j; k; l] = get t [i; k; j; l].
Proof.
  intros Ht. unfold swapaxes, ndim. rewrite Ht.
  cbn [length Nat.ltb Nat.leb andb swap_nth set_nth nth].
  eexists; split; [reflexivity|]. split; [reflexivity|].
  intros i j k l Hi Hj Hk Hl.
  rewrite get_build by (repeat constructor; assumption). reflexivity.
Qed.

(** Entry (i, j) of the site's matrix: rows are pairs (bra-out, ket-out),
    columns are pairs (bra-in, ket-in), both flattened row-major. *)
Definition site_fn (chi : nat) (A : ndarray) (i j : nat) : C :=
  Csum (nth 0 (shape A) 0%nat)
    (fun p => (get A [p; (i / chi)%nat; (j / chi)%nat])^*
              * get A [p; (i mod chi)%nat; (j mod chi)%nat]).

Lemma ravel_2_4 (c i j : nat) :
  ravel [(c * c)%nat; (c * c)%nat] [i; j]
  = ravel [c; c; c; c] [(i / c)%nat; (i mod c)%nat; (j / c)%nat; (j mod c)%nat].
Proof.
  cbn [ravel size_of fold_right].
  pose proof (Nat.div_mod_eq i c) as Ei.
  pose proof (Nat.div_mod_eq j c) as Ej.
  revert Ei Ej.
  generalize (i / c)%nat (i mod c)%nat (j / c)%nat (j mod c)%nat.
  intros x y z w -> ->. ring.
Qed.

Lemma site_matrix (A : ndarray) (dA c n : nat) :
  shape A = [dA; c; c] -> n = (c * c)%nat ->
  exists T,
    (t_tensor <- tensordot (conj A) A 0 0 ;;
     sw <- swapaxes t_tensor 1 2 ;;
     reshape sw [n; n]) = Ok T
    /\ is_mat T n n (site_fn c A).
Proof.
  intros HA ->.
  destruct (tensordot_3_3 (conj A) A dA c c c c HA HA) as (t & Et & St & Ht).
  destruct (swapaxes_4 t c c c c St) as (sw & Es & Ss & Hs).
  destruct (reshape_ok sw [(c * c)%nat; (c * c)%nat]) as [T ET].
  { rewrite Ss. cbn [size_of fold_right]. ring. }
  rewrite Et; cbn [bind]. rewrite Es; cbn [bind]. rewrite ET.
  exists T; split; [reflexivity|]. split; [exact (shape_reshape _ _ _ ET)|].
  intros i j Hi Hj. assert (Hc : (0 < c)%nat) by nia.
  assert (Hdiv : forall k, (k < c * c)%nat -> (k / c < c)%nat)
    by (intros; apply Nat.Div0.div_lt_upper_bound; lia).
  assert (Hmod : forall k, (k mod c < c)%nat)
    by (intros; apply Nat.mod_upper_bound; lia).
  rewrite (get_reshape sw T _ [(i / c)%nat; (i mod c)%nat; (j / c)%nat; (j mod c)%nat] [i; j] ET)
    by (rewrite Ss; apply ravel_2_4).
  rewrite Hs, Ht by auto. unfold site_fn. rewrite HA. cbn [nth].
  apply Csum_ext. intros p Hp. rewrite get_conj. reflexivity.
Qed.

(** ** The transfer matrix of the unit cell *)

(** A site tensor of shape (d_j, chi, chi). *)
Definition site_shaped (c : nat) (A : ndarray) : bool :=
  match shape A with
  | [_; o; i] => ((o =? c) && (i =? c))%nat
  | _ => false
  end.

Lemma site_shaped_inv (c : nat) (A : ndarray) :
  site_shaped c A = true -> exists dA, shape A = [dA; c; c].
Proof.
  unfold site_shaped.
  destruct (shape A) as [|dA [|o [|i [|? ?]]]]; try discriminate.
  intros H. apply andb_prop in H. destruct H as [H1 H2].
  apply Nat.eqb_eq in H1, H2. subst. eauto.
Qed.

(** What the loop of [transfer_matrix] accumulates, on index functions. *)
Fixpoint cell_fn (n c : nat) (ts : list ndarray) (g : nat -> nat -> C)
  : nat -> nat -> C :=
  match ts with
  | [] => g
  | A :: ts' => cell_fn n c ts' (fmm n (site_fn c A) g)
  end.

Lemma tm_site_step (s : MPS) (j : nat) (A acc : ndarray)
  (g : nat -> nat -> C) :
  nth_error (tensors s) j = Some A ->
  site_shaped (chi s) A = true ->
  is_mat acc (chi s * chi s) (chi s * chi s) g ->
  exists T, tm_site s j acc = Ok T
    /\ is_mat T (chi s * chi s) (chi s * chi s)
         (fmm (chi s * chi s) (site_fn (chi s) A) g).
Proof.
  intros Hj HA Hacc. apply site_shaped_inv in HA. destruct HA as [dA HA].
  unfold tm_site, getitem. rewrite Hj. cbn [bind].
  rewrite Nat.pow_2_r.
  destruct (site_matrix A dA (chi s) _ HA eq_refl) as (T & ET & HT).
  destruct (tensordot (conj A) A 0 0) as [t|e]; [|discriminate].
  cbn [bind] in *.
  destruct (swapaxes t 1 2) as [sw|e]; [|discriminate].
  cbn [bind] in *. rewrite ET. cbn [bind].
  apply (matmul_mm _ _ _ _ _ _ _ HT Hacc).
Qed.

Lemma tm_loop (s : MPS) (ts : list ndarray) :
  forall (pre : list ndarray) (acc : ndarray) (g : nat -> nat -> C),
  tensors s = pre ++ ts ->
  forallb (site_shaped (chi s)) ts = true ->
  is_mat acc (chi s * chi s) (chi s * chi s) g ->
  exists T, for_range (seq (length pre) (length ts)) acc (tm_site s) = Ok T
    /\ is_mat T (chi s * chi s) (chi s * chi s)
         (cell_fn (chi s * chi s) (chi s) ts g).
Proof.
  induction ts as [|A ts IH]; intros pre acc g Hts Hsh Hacc.
  - exists acc. split; [reflexivity | exact Hacc].
  - cbn [forallb] in Hsh. apply andb_prop in Hsh. destruct Hsh as [HA Hsh].
    cbn [length seq for_range].
    destruct (tm_site_step s (length pre) A acc g) as (T & ET & HT);
      try assumption.
    { rewrite Hts, nth_error_app2, Nat.sub_diag by lia. reflexivity. }
    rewrite ET. cbn [bind].
    destruct (IH (pre ++ [A]) T (fmm (chi s * chi s) (site_fn (chi s) A) g))
      as (T' & ET' & HT'); try assumption.
    { rewrite Hts, <- app_assoc. reflexivity. }
    rewrite length_app in ET'. cbn [length] in ET'.
    rewrite Nat.add_1_r in ET'. exists T'. split; assumption.
Qed.

Lemma transfer_matrix_None (s : MPS) :
  l_uc s = length (tensors s) ->
  forallb (site_shaped (chi s)) (tensors s) = true ->
  exists T, transfer_matrix s None = Ok T
    /\ is_mat T (chi s * chi s) (chi s * chi s)
         (cell_fn (chi s * chi s) (chi s) (tensors s) delta).
Proof.
  intros Hl Hsh. unfold transfer_matrix. rewrite Hl, Nat.pow_2_r.
  apply (tm_loop s (tensors s) [] _ delta eq_refl Hsh).
  apply np_eye_is_mat.
Qed.

(** ** The constructor *)

Lemma MPS_init_inv (ts : list ndarray) (len : chain_length)
  (bd : list (option ndarray)) (s : MPS) :
  MPS_init ts len bd = Ok s ->
  l_uc s = length ts /\ tensors s = ts /\ L s = len /\
  (exists t0, nth_error ts 0 = Some t0
     /\ index_size t0 [All; At 0; At 0] = Ok (d s)
     /\ index_size t0 [At 0; All; At 0] = Ok (chi s)) /\
  (exists l b1, nth_error bd 0 = Some (Some l)
     /\ nth_error bd 1 = Some b1
     /\ nd_size l = chi s /\ nd_size l <> 0%nat
     /\ bdry_vecs s = [Some l; if is_None_all b1 then None else b1]).
Proof.
  unfold MPS_init, getitem.
  destruct (nth_error ts 0) as [t0|]; [|discriminate]. cbn [bind].
  destruct (index_size t0 [All; At 0; At 0]) as [dd|] eqn:Ed; [|discriminate].
  cbn [bind].
  destruct (index_size t0 [At 0; All; At 0]) as [cc|] eqn:Ec; [|discriminate].
  cbn [bind].
  destruct (nth_error bd 0) as [b0|]; [|discriminate]. cbn [bind].
  destruct (is_None_all b0) eqn:E0; [discriminate|].
  destruct b0 as [l|]; [|discriminate]. cbn [is_None_all] in E0.
  destruct (nd_size l =? cc)%nat eqn:El; [|discriminate].
  cbn [negb bind app].
  destruct (nth_error bd 1) as [b1|]; [|discriminate]. cbn [bind].
  apply Nat.eqb_eq in El. apply Nat.eqb_neq in E0.
  destruct (is_None_all b1) eqn:E1.
  - cbn [bind app]. intros [= <-]. cbn.
    split; [reflexivity|]. split; [reflexivity|]. split; [reflexivity|].
    split; [exists t0; repeat split; assumption|].
    exists l, b1. rewrite E1. auto.
  - destruct b1 as [r|]; [|discriminate].
    destruct (nd_size r =? cc)%nat; [|discriminate].
    cbn [negb bind app]. intros [= <-]. cbn.
    split; [reflexivity|]. split; [reflexivity|]. split; [reflexivity|].
    split; [exists t0; repeat split; assumption|].
    exists l, (Some r). rewrite E1. auto.
Qed.

Lemma conj_is_vec (v : ndarray) (n : nat) (f : nat -> C) :
  is_vec v n f -> is_vec (conj v) n (fun i => (f i)^*).
Proof.
  intros [Sv Hv]. split; [exact Sv|]. intros i Hi.
  rewrite get_conj, Hv by exact Hi. reflexivity.
Qed.

Lemma rank1_is_vec (v : ndarray) (n : nat) :
  ndim v = 1%nat -> nd_size v = n -> is_vec v n (fun i => get v [i]).
Proof.
  unfold ndim, nd_size. destruct (shape v) as [|k [|? ?]] eqn:E; try discriminate.
  intros _ H. cbn [size_of fold_right] in H. rewrite Nat.mul_1_r in H.
  subst k. split; auto.
Qed.

(** The doubled boundary vector, [np.kron(l.conj(), l)]. *)
Definition dbl (c : nat) (f : nat -> C) (i : nat) : C :=
  (f (i / c)%nat)^* * f (i mod c)%nat.

Variable linalg_inv : ndarray -> result ndarray.

Lemma matrix_power_nonneg (T : ndarray) (n : nat) (f : nat -> nat -> C)
  (k : Z) :
  is_mat T n n f -> (0 <= k)%Z ->
  exists P, matrix_power linalg_inv T k = Ok P
    /\ is_mat P n n (fpow n f (Z.to_nat k)).
Proof.
  intros HT Hk. unfold matrix_power. destruct HT as [ST HT].
  rewrite ST, Nat.eqb_refl.
  destruct (Z.ltb_spec k 0); [lia|].
  apply mpow_is_mat. split; assumption.
Qed.

(** [expect()] on a finite chain whose right boundary is traced out. *)
Lemma expect_trace (s : MPS) (l : ndarray) (k : Z) :
  l_uc s = length (tensors s) ->
  forallb (site_shaped (chi s)) (tensors s) = true ->
  L s = Finite k -> (0 <= k)%Z ->
  bdry_vecs s = [Some l; None] ->
  ndim l = 1%nat -> nd_size l = chi s ->
  let c := chi s in
  let n := (c * c)%nat in
  expect linalg_inv s None
  = Ok (scalar
          (Csum n (fun i =>
             trace_vec c i
             * fmv n (fpow n (cell_fn n c (tensors s) delta) (Z.to_nat k))
                 (dbl c (fun a => get l [a])) i))).
Proof.
  intros Hl Hsh HL Hk Hb Hr Hs c n. unfold expect. rewrite HL.
  destruct (transfer_matrix_None s Hl Hsh) as (T & ET & HT).
  rewrite ET. cbn [bind].
  destruct (matrix_power_nonneg T _ _ k HT Hk) as (P & EP & HP).
  rewrite EP. cbn [bind].
  unfold bdry_array, getitem. rewrite Hb. cbn [nth_error bind is_None_all].
  pose proof (rank1_is_vec l (chi s) Hr Hs) as Hv.
  pose proof (kron_vec _ _ _ _ _ _ (conj_is_vec _ _ _ Hv) Hv) as Hk2.
  destruct (matmul_mv _ _ _ _ _ _ HP Hk2) as (x & Ex & Hx).
  rewrite Ex. cbn [bind]. rewrite Nat.pow_2_r.
  destruct (reshape_vec x _ (chi s * chi s)%nat _ Hx eq_refl) as (y & Ey & Hy).
  rewrite Ey. cbn [bind].
  destruct (reshape_eye (chi s) (chi s * chi s) eq_refl) as (rv & Er & Hrv).
  rewrite Er. cbn [bind]. unfold np_dot.
  rewrite (matmul_vv _ _ _ _ _ Hrv Hy). reflexivity.
Qed.

(** ** Right-canonical tensors and normalisation *)

(** A site tensor of bond dimension [c] is right-canonical when, as a map
    from bond-in to (physical, bond-out), it is an isometry. *)
Definition right_canonical (c : nat) (A : ndarray) : Prop :=
  exists dA, shape A = [dA; c; c] /\
    forall a b, (a < c)%nat -> (b < c)%nat ->
      Csum dA (fun p => Csum c (fun o =>
        (get A [p; o; a])^* * get A [p; o; b])) = delta a b.

(** <l|l> *)
Definition norm2 (c : nat) (l : ndarray) : C :=
  Csum c (fun a => (get l [a])^* * get l [a]).

(** u^T g = u^T for the flattened identity u. *)
Definition left_fixed (c : nat) (g : nat -> nat -> C) : Prop :=
  forall j, (j < c * c)%nat ->
    Csum (c * c) (fun i => trace_vec c i * g i j) = trace_vec c j.

Lemma div_mod_flat (c a b : nat) :
  (b < c)%nat -> ((a * c + b) / c = a)%nat /\ ((a * c + b) mod c = b)%nat.
Proof.
  intros Hb. split.
  - rewrite Nat.div_add_l by lia. rewrite Nat.div_small by lia. lia.
  - rewrite Nat.add_comm, Nat.Div0.mod_add. apply Nat.mod_small. exact Hb.
Qed.

(** Contracting the flattened identity with a vector of (bra, ket) pairs
    sums its diagonal. *)
Lemma trace_vec_sum (c : nat) (v : nat -> C) :
  Csum (c * c) (fun i => trace_vec c i * v i)
  = Csum c (fun a => v (a * c + a)%nat).
Proof.
  rewrite Csum_flat. apply Csum_ext. intros a Ha.
  rewrite <- (Csum_delta_l c a (fun b => v (a * c + b)%nat) Ha).
  apply Csum_ext. intros b Hb. unfold trace_vec.
  destruct (div_mod_flat c a b Hb) as [-> ->]. reflexivity.
Qed.

Lemma delta_left_fixed (c : nat) : left_fixed c delta.
Proof. intros j Hj. apply Csum_delta_r. exact Hj. Qed.

Lemma fmm_left_fixed (c : nat) (f g : nat -> nat -> C) :
  left_fixed c f -> left_fixed c g -> left_fixed c (fmm (c * c) f g).
Proof.
  intros Hf Hg j Hj. unfold fmm.
  rewrite (Csum_ext _ _ (fun i => Csum (c * c)
             (fun k => trace_vec c i * f i k * g k j))).
  2:{ intros i _. rewrite <- Csum_mul_l. apply Csum_ext. intros; ring. }
  rewrite Csum_swap.
  rewrite (Csum_ext _ _ (fun k => trace_vec c k * g k j)); [apply Hg, Hj|].
  intros k Hk. rewrite Csum_mul_r, Hf by exact Hk. reflexivity.
Qed.

Lemma site_left_fixed (c : nat) (A : ndarray) :
  right_canonical c A -> left_fixed c (site_fn c A).
Proof.
  intros (dA & HA & Hiso) j Hj. assert (Hc : (0 < c)%nat) by nia.
  rewrite trace_vec_sum. unfold site_fn. rewrite HA. cbn [nth].
  rewrite Csum_swap. unfold trace_vec.
  rewrite <- (Hiso (j / c)%nat (j mod c)%nat).
  - apply Csum_ext. intros p _. apply Csum_ext. intros o Ho.
    destruct (div_mod_flat c o o Ho) as [-> ->]. reflexivity.
  - apply Nat.Div0.div_lt_upper_bound; lia.
  - apply Nat.mod_upper_bound; lia.
Qed.

Lemma cell_left_fixed (c : nat) (ts : list ndarray) :
  Forall (right_canonical c) ts ->
  forall g, left_fixed c g -> left_fixed c (cell_fn (c * c) c ts g).
Proof.
  induction 1 as [|A ts HA _ IH]; intros g Hg; cbn [cell_fn]; [exact Hg|].
  apply IH, fmm_left_fixed; [apply site_left_fixed, HA | exact Hg].
Qed.

Lemma fpow_left_fixed (c : nat) (f : nat -> nat -> C) (k : nat) :
  left_fixed c f -> left_fixed c (fpow (c * c) f k).
Proof.
  intros Hf. induction k as [|k IH]; cbn [fpow].
  - apply delta_left_fixed.
  - apply fmm_left_fixed; assumption.
Qed.

Lemma left_fixed_apply (c : nat) (g : nat -> nat -> C) (v : nat -> C) :
  left_fixed c g ->
  Csum (c * c) (fun i => trace_vec c i * fmv (c * c) g v i)
  = Csum (c * c) (fun k => trace_vec c k * v k).
Proof.
  intros Hg. unfold fmv.
  rewrite (Csum_ext _ _ (fun i => Csum (c * c)
             (fun k => trace_vec c i * g i k * v k))).
  2:{ intros i _. rewrite <- Csum_mul_l. apply Csum_ext. intros; ring. }
  rewrite Csum_swap. apply Csum_ext. intros k Hk.
  rewrite Csum_mul_r, Hg by exact Hk. reflexivity.
Qed.

Lemma trace_dbl (c : nat) (l : ndarray) :
  Csum (c * c) (fun k => trace_vec c k * dbl c (fun a => get l [a]) k)
  = norm2 c l.
Proof.
  rewrite trace_vec_sum. apply Csum_ext. intros a Ha. unfold dbl.
  destruct (div_mod_flat c a a Ha) as [-> ->]. reflexivity.
Qed.

Lemma right_canonical_shaped (c : nat) (ts : list ndarray) :
  Forall (right_canonical c) ts -> forallb (site_shaped c) ts = true.
Proof.
  induction 1 as [|A ts (dA & HA & _) _ IH]; [reflexivity|].
  cbn [forallb]. rewrite IH. unfold site_shaped. rewrite HA.
  rewrite !Nat.eqb_refl. reflexivity.
Qed.

(** C1.  A state whose site tensors are all right-canonical and whose
    fixed left boundary vector has unit norm has <psi|psi> = 1: [expect()]
    with no operator and the right boundary traced out returns 1 for
    every chain length L >= 1, whatever L is. *)
Theorem expect_right_canonical_is_one (ts : list ndarray) (k : Z)
  (l : ndarray) (s : MPS) :
  MPS_init ts (Finite k) [Some l; None] = Ok s ->
  Forall (right_canonical (chi s)) ts ->
  ndim l = 1%nat ->
  norm2 (chi s) l = C1 ->
  (1 <= k)%Z ->
  expect linalg_inv s None = Ok (scalar C1).
Proof.
  intros Hinit Hrc Hrank Hnorm Hk.
  destruct (MPS_init_inv _ _ _ _ Hinit)
    as (Hl & Hts & HL & _ & l' & b1 & E0 & E1 & Hsz & _ & Hb).
  cbn in E0, E1. injection E0 as <-. injection E1 as <-.
  cbn [is_None_all] in Hb. rewrite <- Hts in Hl, Hrc.
  rewrite (expect_trace s l k Hl (right_canonical_shaped _ _ Hrc) HL
             ltac:(lia) Hb Hrank Hsz).
  rewrite left_fixed_apply.
  - rewrite trace_dbl, Hnorm. reflexivity.
  - apply fpow_left_fixed, cell_left_fixed;
      [exact Hrc | apply delta_left_fixed].
Qed.

(** ** Positivity of <psi|psi> *)

(** Sums over lists. *)
Fixpoint Lsum {A : Type} (h : A -> C) (xs : list A) : C :=
  match xs with
  | [] => C0
  | x :: xs' => h x + Lsum h xs'
  end.

Lemma Lsum_app {A : Type} (h : A -> C) (xs ys : list A) :
  Lsum h (xs ++ ys) = Lsum h xs + Lsum h ys.
Proof.
  induction xs as [|x xs IH]; cbn [Lsum app]; [ring|].
  rewrite IH. ring.
Qed.

Lemma Lsum_map {A B : Type} (g : A -> B) (h : B -> C) (xs : list A) :
  Lsum h (map g xs) = Lsum (fun x => h (g x)) xs.
Proof.
  induction xs as [|x xs IH]; [reflexivity|].
  cbn [Lsum map]. f_equal. exact IH.
Qed.

Lemma Lsum_flat_map {A B : Type} (g : A -> list B) (h : B -> C)
  (xs : list A) :
  Lsum h (flat_map g xs) = Lsum (fun x => Lsum h (g x)) xs.
Proof.
  induction xs as [|x xs IH]; [reflexivity|].
  cbn [flat_map]. rewrite Lsum_app, IH. reflexivity.
Qed.

Lemma Lsum_seq (h : nat -> C) (n : nat) : Lsum h (seq 0 n) = Csum n h.
Proof.
  induction n as [|n IH]; [reflexivity|].
  rewrite seq_S, Lsum_app, IH. cbn [Nat.add Lsum Csum]. ring.
Qed.

Lemma Lsum_ext {A : Type} (h h' : A -> C) (xs : list A) :
  (forall x, h x = h' x) -> Lsum h xs = Lsum h' xs.
Proof.
  intros H. induction xs as [|x xs IH]; [reflexivity|].
  cbn [Lsum]. f_equal; [apply H | exact IH].
Qed.

Lemma Csum_Lsum {A : Type} (n : nat) (h : A -> nat -> C) (xs : list A) :
  Csum n (fun i => Lsum (fun x => h x i) xs)
  = Lsum (fun x => Csum n (h x)) xs.
Proof.
  induction xs as [|x xs IH]; cbn [Lsum].
  - apply Csum_zero.
  - rewrite <- IH, <- Csum_add. reflexivity.
Qed.

(** Sum of squared moduli. *)
Definition sum_sq (zs : list C) : C := Lsum (fun z => z^* * z) zs.

Lemma sum_sq_ge0 (zs : list C) : Cge0 (sum_sq zs).
Proof.
  induction zs as [|z zs IH]; cbn; [apply Cge0_0|].
  apply Cge0_add; [apply Cge0_sq | exact IH].
Qed.

(** The ket reached from [x] when the site emits the physical state p. *)
Definition apply_site (c : nat) (A : ndarray) (p : nat) (x : nat -> C)
  : nat -> C :=
  fun a => Csum c (fun a' => get A [p; a; a'] * x a').

Definition site_branches (c : nat) (A : ndarray) (xs : list (nat -> C))
  : list (nat -> C) :=
  flat_map (fun x => map (fun p => apply_site c A p x)
                       (seq 0 (nth 0 (shape A) 0%nat))) xs.

(** Vectors on the doubled bond space of the form sum_x conj(x) (x) x. *)
Definition in_cone (c : nat) (v : nat -> C) : Prop :=
  exists xs : list (nat -> C),
    forall i, (i < c * c)%nat -> v i = Lsum (fun x => dbl c x i) xs.

Definition preserves_cone (c : nat) (g : nat -> nat -> C) : Prop :=
  forall v, in_cone c v -> in_cone c (fmv (c * c) g v).

Lemma site_dbl (c : nat) (A : ndarray) (x : nat -> C) (i : nat) :
  (i < c * c)%nat ->
  fmv (c * c) (site_fn c A) (dbl c x) i
  = Csum (nth 0 (shape A) 0%nat) (fun p => dbl c (apply_site c A p x) i).
Proof.
  intros Hi. unfold fmv. rewrite Csum_flat.
  set (dA := nth 0 (shape A) 0%nat).
  set (G := fun p a' b' =>
    (get A [p; (i / c)%nat; a'])^* * (x a')^*
    * (get A [p; (i mod c)%nat; b'] * x b')).
  rewrite (Csum_ext _ _ (fun a' => Csum dA (fun p => Csum c (G p a')))).
  2:{ intros a' Ha'. rewrite <- Csum_swap. apply Csum_ext. intros b' Hb'.
      unfold site_fn, dbl. destruct (div_mod_flat c a' b' Hb') as [-> ->].
      fold dA. rewrite <- Csum_mul_r. apply Csum_ext. intros p _.
      unfold G. ring. }
  rewrite Csum_swap. apply Csum_ext. intros p _.
  unfold dbl, apply_site. rewrite Csum_conj, <- Csum_mul_r.
  apply Csum_ext. intros a' _. rewrite <- Csum_mul_l.
  apply Csum_ext. intros b' _. unfold G. rewrite Cconj_mul. ring.
Qed.

Lemma fmv_Lsum (n : nat) (g : nat -> nat -> C) (h : (nat -> C) -> nat -> C)
  (xs : list (nat -> C)) (i : nat) :
  fmv n g (fun k => Lsum (fun x => h x k) xs) i
  = Lsum (fun x => fmv n g (h x) i) xs.
Proof.
  unfold fmv. rewrite <- Csum_Lsum. apply Csum_ext. intros k _.
  induction xs as [|x xs IH]; cbn [Lsum]; [ring|].
  rewrite <- IH. ring.
Qed.

Lemma fmv_ext (n : nat) (g : nat -> nat -> C) (v w : nat -> C) (i : nat) :
  (forall k, (k < n)%nat -> v k = w k) -> fmv n g v i = fmv n g w i.
Proof.
  intros H. apply Csum_ext. intros k Hk. rewrite H by exact Hk. reflexivity.
Qed.

Lemma site_preserves_cone (c : nat) (A : ndarray) :
  preserves_cone c (site_fn c A).
Proof.
  intros v [xs Hv]. exists (site_branches c A xs). intros i Hi.
  rewrite (fmv_ext _ _ _ _ _ Hv), fmv_Lsum.
  unfold site_branches. rewrite Lsum_flat_map. apply Lsum_ext. intros x.
  rewrite Lsum_map, Lsum_seq. apply site_dbl, Hi.
Qed.

Lemma delta_preserves_cone (c : nat) : preserves_cone c delta.
Proof.
  intros v [xs Hv]. exists xs. intros i Hi. rewrite <- Hv by exact Hi.
  apply Csum_delta_l, Hi.
Qed.

Lemma fmv_fmm (n : nat) (f g : nat -> nat -> C) (v : nat -> C) (i : nat) :
  fmv n (fmm n f g) v i = fmv n f (fmv n g v) i.
Proof.
  unfold fmv, fmm.
  rewrite (Csum_ext _ _ (fun k => Csum n (fun m => f i m * g m k * v k))).
  2:{ intros k _. rewrite Csum_mul_r. reflexivity. }
  rewrite Csum_swap. apply Csum_ext. intros m _.
  rewrite <- Csum_mul_l. apply Csum_ext. intros; ring.
Qed.

Lemma fmm_preserves_cone (c : nat) (f g : nat -> nat -> C) :
  preserves_cone c f -> preserves_cone c g ->
  preserves_cone c (fmm (c * c) f g).
Proof.
  intros Hf Hg v Hv. destruct (Hf _ (Hg _ Hv)) as [xs Hxs].
  exists xs. intros i Hi. rewrite fmv_fmm. apply Hxs, Hi.
Qed.

Lemma cell_preserves_cone (c : nat) (ts : list ndarray) :
  forall g, preserves_cone c g ->
            preserves_cone c (cell_fn (c * c) c ts g).
Proof.
  induction ts as [|A ts IH]; intros g Hg; cbn [cell_fn]; [exact Hg|].
  apply IH, fmm_preserves_cone; [apply site_preserves_cone | exact Hg].
Qed.

Lemma fpow_preserves_cone (c : nat) (f : nat -> nat -> C) (k : nat) :
  preserves_cone c f -> preserves_cone c (fpow (c * c) f k).
Proof.
  intros Hf. induction k as [|k IH]; cbn [fpow].
  - apply delta_preserves_cone.
  - apply fmm_preserves_cone; assumption.
Qed.

Lemma trace_cone (c : nat) (v : nat -> C) :
  in_cone c v ->
  exists amps : list C,
    Csum (c * c) (fun i => trace_vec c i * v i) = sum_sq amps.
Proof.
  intros [xs Hv]. exists (flat_map (fun x => map x (seq 0 c)) xs).
  rewrite trace_vec_sum. unfold sum_sq. rewrite Lsum_flat_map.
  rewrite (Csum_ext _ _ (fun a => Lsum (fun x => (x a)^* * x a) xs)).
  - rewrite Csum_Lsum. apply Lsum_ext. intros x.
    rewrite Lsum_map, Lsum_seq. reflexivity.
  - intros a Ha. rewrite Hv by nia. apply Lsum_ext. intros x. unfold dbl.
    destruct (div_mod_flat c a a Ha) as [-> ->]. reflexivity.
Qed.

(** C10.  With a fixed left boundary vector, no operator and the right
    boundary traced out, [expect()] on a finite chain of length L >= 1
    returns a sum of squared moduli of amplitudes, hence a real,
    non-negative number, whether or not the site tensors are canonical. *)
Theorem expect_trace_nonneg (ts : list ndarray) (k : Z) (l : ndarray)
  (s : MPS) :
  MPS_init ts (Finite k) [Some l; None] = Ok s ->
  forallb (site_shaped (chi s)) ts = true ->
  ndim l = 1%nat ->
  (1 <= k)%Z ->
  exists amps : list C,
    expect linalg_inv s None = Ok (scalar (sum_sq amps))
    /\ Cge0 (sum_sq amps).
Proof.
  intros Hinit Hsh Hrank Hk.
  destruct (MPS_init_inv _ _ _ _ Hinit)
    as (Hl & Hts & HL & _ & l' & b1 & E0 & E1 & Hsz & _ & Hb).
  cbn in E0, E1. injection E0 as <-. injection E1 as <-.
  cbn [is_None_all] in Hb. rewrite <- Hts in Hl, Hsh.
  rewrite (expect_trace s l k Hl Hsh HL ltac:(lia) Hb Hrank Hsz).
  destruct (trace_cone (chi s)
              (fmv (chi s * chi s)
                 (fpow (chi s * chi s)
                    (cell_fn (chi s * chi s) (chi s) (tensors s) delta)
                    (Z.to_nat k))
                 (dbl (chi s) (fun a => get l [a])))) as [amps E].
  - apply fpow_preserves_cone.
    + apply cell_preserves_cone, delta_preserves_cone.
    + exists [fun a => get l [a]]. intros i _. cbn. ring.
  - exists amps. rewrite E. split; [reflexivity | apply sum_sq_ge0].
Qed.

(** ** The transfer matrix, as the specification words it *)

(** A matrix on the doubled bond space, indexed by pairs: row
    (bra-out, ket-out), column (bra-in, ket-in). *)
Definition pair_matrix : Type := nat -> nat -> nat -> nat -> C.

(** One site: the physical index of the conjugate tensor contracted with
    the physical index of the tensor. *)
Definition site_transfer (A : ndarray) : pair_matrix :=
  fun bo ko bi ki =>
    Csum (nth 0 (shape A) 0%nat)
      (fun p => (get A [p; bo; bi])^* * get A [p; ko; ki]).

Definition pair_mul (c : nat) (X Y : pair_matrix) : pair_matrix :=
  fun bo ko bi ki =>
    Csum c (fun a => Csum c (fun b => X bo ko a b * Y a b bi ki)).

Definition pair_id : pair_matrix :=
  fun bo ko bi ki => delta bo bi * delta ko ki.

(** T_(l-1) * ... * T_1 * T_0 for the list [T_0; T_1; ...; T_(l-1)]. *)
Fixpoint ordered_product (c : nat) (Ts : list pair_matrix) : pair_matrix :=
  match Ts with
  | [] => pair_id
  | T0 :: rest =>
      match rest with
      | [] => T0
      | _ :: _ => pair_mul c (ordered_product c rest) T0
      end
  end.

(** [g] is the row-major flattening of [X]. *)
Definition flattens (c : nat) (g : nat -> nat -> C) (X : pair_matrix)
  : Prop :=
  forall bo ko bi ki, (bo < c)%nat -> (ko < c)%nat -> (bi < c)%nat ->
    (ki < c)%nat -> g (bo * c + ko)%nat (bi * c + ki)%nat = X bo ko bi ki.

Lemma flattens_site (c : nat) (A : ndarray) :
  flattens c (site_fn c A) (site_transfer A).
Proof.
  intros bo ko bi ki _ Hko _ Hki. unfold site_fn, site_transfer.
  destruct (div_mod_flat c bo ko Hko) as [-> ->].
  destruct (div_mod_flat c bi ki Hki) as [-> ->]. reflexivity.
Qed.

Lemma flattens_delta (c : nat) : flattens c delta pair_id.
Proof.
  intros bo ko bi ki _ Hko _ Hki. unfold pair_id, delta.
  destruct (Nat.eqb_spec bo bi) as [->|Hb];
    destruct (Nat.eqb_spec ko ki) as [->|Hk].
  - rewrite Nat.eqb_refl. ring.
  - destruct (Nat.eqb_spec (bi * c + ko) (bi * c + ki)); [lia | ring].
  - destruct (Nat.eqb_spec (bo * c + ki) (bi * c + ki)); [nia | ring].
  - destruct (Nat.eqb_spec (bo * c + ko) (bi * c + ki)); [nia | ring].
Qed.

Lemma flattens_fmm (c : nat) (f g : nat -> nat -> C) (X Y : pair_matrix) :
  flattens c f X -> flattens c g Y ->
  flattens c (fmm (c * c) f g) (pair_mul c X Y).
Proof.
  intros Hf Hg bo ko bi ki Hbo Hko Hbi Hki. unfold fmm, pair_mul.
  rewrite Csum_flat. apply Csum_ext. intros a Ha.
  apply Csum_ext. intros b Hb. rewrite Hf, Hg by assumption. reflexivity.
Qed.

Lemma Csum_unflat (c : nat) (h : nat -> nat -> C) :
  Csum c (fun a => Csum c (fun b => h a b))
  = Csum (c * c) (fun k => h (k / c)%nat (k mod c)%nat).
Proof.
  rewrite Csum_flat. apply Csum_ext. intros a _. apply Csum_ext.
  intros b Hb. destruct (div_mod_flat c a b Hb) as [-> ->]. reflexivity.
Qed.

Lemma pair_mul_assoc (c : nat) (X Y Z : pair_matrix) (bo ko bi ki : nat) :
  pair_mul c X (pair_mul c Y Z) bo ko bi ki
  = pair_mul c (pair_mul c X Y) Z bo ko bi ki.
Proof.
  unfold pair_mul. rewrite !Csum_unflat.
  rewrite (Csum_ext _ _ (fun k => Csum (c * c) (fun m =>
     X bo ko (k / c)%nat (k mod c)%nat
     * Y (k / c)%nat (k mod c)%nat (m / c)%nat (m mod c)%nat
     * Z (m / c)%nat (m mod c)%nat bi ki))).
  2:{ intros k _. rewrite Csum_unflat, <- Csum_mul_l.
      apply Csum_ext. intros; ring. }
  rewrite Csum_swap. apply Csum_ext. intros m _.
  rewrite Csum_unflat, Csum_mul_r. reflexivity.
Qed.

Lemma pair_mul_id_r (c : nat) (X : pair_matrix) (bo ko bi ki : nat) :
  (bi < c)%nat -> (ki < c)%nat ->
  pair_mul c X pair_id bo ko bi ki = X bo ko bi ki.
Proof.
  intros Hbi Hki. unfold pair_mul, pair_id.
  rewrite (Csum_ext _ _ (fun a => X bo ko a ki * delta a bi)).
  - apply (Csum_delta_r c bi (fun a => X bo ko a ki) Hbi).
  - intros a _.
    rewrite (Csum_ext _ _ (fun b => X bo ko a b * delta a bi * delta b ki))
      by (intros; ring).
    apply (Csum_delta_r c ki (fun b => X bo ko a b * delta a bi) Hki).
Qed.

Lemma flattens_cell (c : nat) (ts : list ndarray) :
  ts <> [] ->
  forall g Y, flattens c g Y ->
    flattens c (cell_fn (c * c) c ts g)
      (pair_mul c (ordered_product c (map site_transfer ts)) Y).
Proof.
  induction ts as [|A ts IH]; [congruence|]. intros _ g Y Hg.
  cbn [cell_fn]. destruct ts as [|B ts].
  - cbn [cell_fn map ordered_product].
    apply flattens_fmm; [apply flattens_site | exact Hg].
  - assert (Hne : B :: ts <> []) by discriminate.
    pose proof (IH Hne _ _ (flattens_fmm c _ _ _ _ (flattens_site c A) Hg))
      as H.
    intros bo ko bi ki Hbo Hko Hbi Hki. rewrite H by assumption.
    rewrite pair_mul_assoc. reflexivity.
Qed.

(** C2.  Without an operator, [transfer_matrix] returns the chi^2 x chi^2
    matrix whose rows are pairs (bra-bond-out, ket-bond-out) and whose
    columns are pairs (bra-bond-in, ket-bond-in), equal to the product
    T_(l_uc-1) * ... * T_1 * T_0 of the per-site matrices obtained by
    contracting the conjugate tensor's physical index with the tensor's
    physical index. *)
Theorem transfer_matrix_is_ordered_product (ts : list ndarray)
  (len : chain_length) (bd : list (option ndarray)) (s : MPS) :
  MPS_init ts len bd = Ok s ->
  forallb (site_shaped (chi s)) ts = true ->
  exists T,
    transfer_matrix s None = Ok T
    /\ shape T = [(chi s ^ 2)%nat; (chi s ^ 2)%nat]
    /\ forall bo ko bi ki,
         (bo < chi s)%nat -> (ko < chi s)%nat ->
         (bi < chi s)%nat -> (ki < chi s)%nat ->
         get T [(bo * chi s + ko)%nat; (bi * chi s + ki)%nat]
         = ordered_product (chi s) (map site_transfer ts) bo ko bi ki.
Proof.
  intros Hinit Hsh.
  destruct (MPS_init_inv _ _ _ _ Hinit)
    as (Hl & Hts & _ & (t0 & Ht0 & _) & _).
  rewrite <- Hts in Hl, Hsh.
  destruct (transfer_matrix_None s Hl Hsh) as (T & ET & ST & HT).
  exists T. split; [exact ET|]. split; [rewrite Nat.pow_2_r; exact ST|].
  intros bo ko bi ki Hbo Hko Hbi Hki.
  rewrite HT by nia. rewrite Hts.
  assert (Hne : ts <> []) by (destruct ts; [discriminate | discriminate]).
  rewrite (flattens_cell (chi s) ts Hne delta pair_id (flattens_delta _))
    by assumption.
  apply pair_mul_id_r; assumption.
Qed.

(** ** Fixed boundary vectors on both ends *)

Lemma shape_is_mat (M : ndarray) (r c : nat) :
  shape M = [r; c] -> is_mat M r c (fun i j => get M [i; j]).
Proof. intros H. split; auto. Qed.

Lemma tensordot_shape (a b : ndarray) (ka kb : nat) :
  (ka < ndim a)%nat -> (kb < ndim b)%nat ->
  nth ka (shape a) 0%nat = nth kb (shape b) 0%nat ->
  exists t, tensordot a b ka kb = Ok t
    /\ shape t = remove_nth ka (shape a) ++ remove_nth kb (shape b).
Proof.
  intros Ha Hb E. unfold tensordot.
  apply Nat.ltb_lt in Ha, Hb. rewrite Ha, Hb, E, Nat.eqb_refl.
  eexists; split; reflexivity.
Qed.

Lemma swapaxes_shape (a : ndarray) (i j : nat) :
  (i < ndim a)%nat -> (j < ndim a)%nat ->
  exists t, swapaxes a i j = Ok t /\ shape t = swap_nth i j (shape a).
Proof.
  intros Hi Hj. unfold swapaxes. apply Nat.ltb_lt in Hi, Hj.
  rewrite Hi, Hj. eexists; split; reflexivity.
Qed.

Lemma transpose_vec (a : ndarray) (n : nat) (f : nat -> C) :
  is_vec a n f -> is_vec (transpose a) n f.
Proof.
  intros [Sa Ha]. unfold transpose. rewrite Sa. cbn [rev app].
  split; [reflexivity|]. intros i Hi.
  rewrite get_build by (repeat constructor; exact Hi). cbn [rev app].
  apply Ha, Hi.
Qed.

(** An operator site tensor of shape (d, oc, d, oc). *)
Definition op_shaped (dd oc : nat) (O : ndarray) : bool :=
  match shape O with
  | [po; bo; pi; bi] =>
      ((po =? dd) && (bo =? oc) && (pi =? dd) && (bi =? oc))%nat
  | _ => false
  end.

Lemma op_shaped_inv (dd oc : nat) (O : ndarray) :
  op_shaped dd oc O = true -> shape O = [dd; oc; dd; oc].
Proof.
  unfold op_shaped.
  destruct (shape O) as [|po [|bo [|pi [|bi [|? ?]]]]]; try discriminate.
  intros H. repeat (apply andb_prop in H; destruct H as [H ?]).
  repeat match goal with
         | E : (_ =? _)%nat = true |- _ => apply Nat.eqb_eq in E
         end.
  subst. reflexivity.
Qed.

(** A state site tensor of shape (d, chi, chi). *)
Definition ket_shaped (dd c : nat) (A : ndarray) : bool :=
  match shape A with
  | [p; o; i] => ((p =? dd) && (o =? c) && (i =? c))%nat
  | _ => false
  end.

Lemma ket_shaped_inv (dd c : nat) (A : ndarray) :
  ket_shaped dd c A = true -> shape A = [dd; c; c].
Proof.
  unfold ket_shaped.
  destruct (shape A) as [|p [|o [|i [|? ?]]]]; try discriminate.
  intros H. repeat (apply andb_prop in H; destruct H as [H ?]).
  repeat match goal with
         | E : (_ =? _)%nat = true |- _ => apply Nat.eqb_eq in E
         end.
  subst. reflexivity.
Qed.

Lemma tm_site_mpo_step (s : MPS) (o : MPO) (j : nat) (A O acc : ndarray)
  (n : nat) :
  nth_error (tensors s) j = Some A ->
  nth_error (o_tensors o) j = Some O ->
  ket_shaped (d s) (chi s) A = true ->
  op_shaped (d s) (o_chi o) O = true ->
  n = (chi s * (o_chi o * chi s))%nat ->
  shape acc = [n; n] ->
  exists T, tm_site_mpo s o j acc = Ok T /\ shape T = [n; n].
Proof.
  intros HA HO SA SO -> Sacc.
  apply ket_shaped_inv in SA. apply op_shaped_inv in SO.
  unfold tm_site_mpo, getitem. rewrite HA, HO. cbn [bind].
  destruct (tensordot_shape O A 2 0) as (t1 & E1 & S1);
    try (unfold ndim; rewrite ?SA, ?SO; cbn; lia).
  rewrite E1. cbn [bind]. rewrite SA, SO in S1. cbn in S1.
  destruct (swapaxes_shape t1 2 3) as (t2 & E2 & S2);
    try (unfold ndim; rewrite S1; cbn; lia).
  rewrite E2. cbn [bind]. rewrite S1 in S2. cbn in S2.
  destruct (reshape_ok t2 [d s; (o_chi o * chi s)%nat; (o_chi o * chi s)%nat])
    as (t3 & E3).
  { rewrite S2. cbn [size_of fold_right]. ring. }
  rewrite E3. cbn [bind]. pose proof (shape_reshape _ _ _ E3) as S3.
  destruct (tensordot_shape (conj A) t3 0 0) as (t4 & E4 & S4);
    try (unfold ndim; cbn [conj shape]; rewrite ?SA, ?S3; cbn; lia).
  rewrite E4. cbn [bind]. cbn [conj shape] in S4. rewrite SA, S3 in S4.
  cbn in S4.
  destruct (swapaxes_shape t4 1 2) as (t5 & E5 & S5);
    try (unfold ndim; rewrite S4; cbn; lia).
  rewrite E5. cbn [bind]. rewrite S4 in S5. cbn in S5.
  destruct (reshape_ok t5 [(o_chi o * chi s * chi s)%nat;
                           (o_chi o * chi s * chi s)%nat]) as (t6 & E6).
  { rewrite S5. cbn [size_of fold_right]. ring. }
  rewrite E6. cbn [bind]. pose proof (shape_reshape _ _ _ E6) as S6.
  unfold matmul. rewrite S6, Sacc.
  replace (o_chi o * chi s * chi s =? chi s * (o_chi o * chi s))%nat
    with true by (symmetry; apply Nat.eqb_eq; ring).
  eexists; split; [reflexivity|]. cbn [build shape]. f_equal. ring.
Qed.

Lemma tm_mpo_loop (s : MPS) (o : MPO) (n : nat) (ts : list ndarray) :
  forall (os pre opre : list ndarray) (acc : ndarray),
  tensors s = pre ++ ts -> o_tensors o = opre ++ os ->
  length opre = length pre -> length os = length ts ->
  forallb (ket_shaped (d s) (chi s)) ts = true ->
  forallb (op_shaped (d s) (o_chi o)) os = true ->
  n = (chi s * (o_chi o * chi s))%nat ->
  shape acc = [n; n] ->
  exists T, for_range (seq (length pre) (length ts)) acc (tm_site_mpo s o)
            = Ok T /\ shape T = [n; n].
Proof.
  induction ts as [|A ts IH];
    intros os pre opre acc Hts Hos Hpre Hlen Hk Ho Hn Hacc.
  - exists acc. split; [reflexivity | exact Hacc].
  - destruct os as [|O os]; [discriminate|].
    cbn [forallb] in Hk, Ho. apply andb_prop in Hk, Ho.
    destruct Hk as [HA Hk]. destruct Ho as [HO Ho].
    cbn [length seq for_range].
    destruct (tm_site_mpo_step s o (length pre) A O acc n) as (T & ET & ST);
      try assumption.
    { rewrite Hts, nth_error_app2, Nat.sub_diag by lia. reflexivity. }
    { rewrite Hos, nth_error_app2 by lia.
      rewrite Hpre, Nat.sub_diag. reflexivity. }
    rewrite ET. cbn [bind].
    destruct (IH os (pre ++ [A]) (opre ++ [O]) T) as (T' & ET' & ST');
      try assumption.
    { rewrite Hts, <- app_assoc. reflexivity. }
    { rewrite Hos, <- app_assoc. reflexivity. }
    { rewrite !length_app. cbn [length]. lia. }
    { cbn [length] in Hlen. lia. }
    rewrite length_app in ET'. cbn [length] in ET'.
    rewrite Nat.add_1_r in ET'. exists T'. split; assumption.
Qed.

Lemma transfer_matrix_Some (s : MPS) (o : MPO) :
  l_uc s = length (tensors s) ->
  length (o_tensors o) = length (tensors s) ->
  forallb (ket_shaped (d s) (chi s)) (tensors s) = true ->
  forallb (op_shaped (d s) (o_chi o)) (o_tensors o) = true ->
  exists T, transfer_matrix s (Some o) = Ok T
    /\ shape T = [(chi s * (o_chi o * chi s))%nat;
                  (chi s * (o_chi o * chi s))%nat].
Proof.
  intros Hl Hlen Hk Ho. unfold transfer_matrix. rewrite Hl.
  apply (tm_mpo_loop s o _ (tensors s) (o_tensors o) [] []);
    try assumption; try reflexivity.
  unfold np_eye. cbn [build shape]. rewrite Nat.pow_2_r. f_equal.
  - ring.
  - f_equal. ring.
Qed.

(** Entries of a matrix and of a vector, and of the conjugated vector. *)
Definition entries (M : ndarray) : nat -> nat -> C := fun i j => get M [i; j].
Definition vec (v : ndarray) : nat -> C := fun i => get v [i].
Definition cvec (v : ndarray) : nat -> C := fun i => (get v [i])^*.

(** Kronecker product of two vectors, the second of length [m]. *)
Definition kron_fn (m : nat) (u v : nat -> C) : nat -> C :=
  fun i => u (i / m)%nat * v (i mod m)%nat.

(** R^dagger * M * Lv *)
Definition sandwich (n : nat) (R : nat -> C) (M : nat -> nat -> C)
  (Lv : nat -> C) : C :=
  Csum n (fun i => Csum n (fun j => (R i)^* * M i j * Lv j)).

Lemma sandwich_code (bl br P : ndarray) (n : nat) (Lf Rf : nat -> C)
  (Pf : nat -> nat -> C) :
  is_vec bl n Lf -> is_vec br n Rf -> is_mat P n n Pf ->
  (y <- matmul (transpose (conj br)) P ;; matmul y bl)
  = Ok (scalar (sandwich n Rf Pf Lf)).
Proof.
  intros Hl Hr HP.
  pose proof (transpose_vec _ _ _ (conj_is_vec _ _ _ Hr)) as Hr'.
  destruct (matmul_vm _ _ _ _ _ _ Hr' HP) as (y & Ey & Hy).
  rewrite Ey. cbn [bind]. rewrite (matmul_vv _ _ _ _ _ Hy Hl).
  do 2 f_equal. unfold sandwich. rewrite Csum_swap.
  apply Csum_ext. intros j _. symmetry.
  apply (Csum_mul_r n (Lf j) (fun i => (Rf i)^* * Pf i j)).
Qed.

Lemma site_shaped_of_ket (dd c : nat) (ts : list ndarray) :
  forallb (ket_shaped dd c) ts = true -> forallb (site_shaped c) ts = true.
Proof.
  induction ts as [|A ts IH]; [reflexivity|]. cbn [forallb].
  intros H. apply andb_prop in H. destruct H as [HA H].
  rewrite (IH H), andb_true_r. unfold site_shaped.
  rewrite (ket_shaped_inv _ _ _ HA), !Nat.eqb_refl. reflexivity.
Qed.

(** C3.  On a finite chain of length L >= 1 with both boundary vectors
    fixed, [expect()] returns rightVec^dagger * T^L * leftVec, where T is
    the unit-cell transfer matrix, leftVec = kron(conj(l), l) and
    rightVec = kron(conj(r), r); with an operator inserted, the
    operator's boundary vectors sit between the bra and the ket factor
    of each Kronecker product. *)
Theorem expect_fixed_boundaries (ts : list ndarray) (k : Z)
  (l r : ndarray) (s : MPS) :
  MPS_init ts (Finite k) [Some l; Some r] = Ok s ->
  forallb (site_shaped (chi s)) ts = true ->
  ndim l = 1%nat -> ndim r = 1%nat -> nd_size r = chi s ->
  (1 <= k)%Z ->
  let c := chi s in
  (exists T,
     transfer_matrix s None = Ok T
     /\ expect linalg_inv s None
        = Ok (scalar
                (sandwich (c * c)
                   (kron_fn c (cvec r) (vec r))
                   (fpow (c * c) (entries T) (Z.to_nat k))
                   (kron_fn c (cvec l) (vec l)))))
  /\
  (forall (o : MPO) (ol or : ndarray),
     length (o_tensors o) = length ts ->
     forallb (ket_shaped (d s) c) ts = true ->
     forallb (op_shaped (d s) (o_chi o)) (o_tensors o) = true ->
     o_bdry_vecs o = [ol; or] ->
     ndim ol = 1%nat -> nd_size ol = o_chi o ->
     ndim or = 1%nat -> nd_size or = o_chi o ->
     let m := (o_chi o * c)%nat in
     exists T,
       transfer_matrix s (Some o) = Ok T
       /\ expect linalg_inv s (Some o)
          = Ok (scalar
                  (sandwich (c * m)
                     (kron_fn m (cvec r) (kron_fn c (vec or) (vec r)))
                     (fpow (c * m) (entries T) (Z.to_nat k))
                     (kron_fn m (cvec l) (kron_fn c (vec ol) (vec l)))))).
Proof.
  intros Hinit Hsh Hrl Hrr Hsr Hk c.
  destruct (MPS_init_inv _ _ _ _ Hinit)
    as (Hl & Hts & HL & _ & l' & b1 & E0 & E1 & Hsz & Hnz & Hb).
  cbn in E0, E1. injection E0 as <-. injection E1 as <-.
  assert (Hnone : is_None_all (Some r) = false).
  { cbn [is_None_all]. apply Nat.eqb_neq. lia. }
  rewrite Hnone in Hb. rewrite <- Hts in Hl.
  pose proof (rank1_is_vec l c Hrl Hsz) as Hvl.
  pose proof (rank1_is_vec r c Hrr Hsr) as Hvr.
  split.
  - rewrite <- Hts in Hsh.
    destruct (transfer_matrix_None s Hl Hsh) as (T & ET & ST & _).
    exists T. split; [exact ET|]. unfold expect. rewrite HL, ET. cbn [bind].
    destruct (matrix_power_nonneg T _ _ k (shape_is_mat _ _ _ ST)
                ltac:(lia)) as (P & EP & HP).
    rewrite EP. cbn [bind]. unfold bdry_array, getitem. rewrite Hb.
    cbn [nth_error bind]. rewrite Hnone.
    apply sandwich_code; [| | exact HP].
    + apply (kron_vec _ _ _ _ _ _ (conj_is_vec _ _ _ Hvl) Hvl).
    + apply (kron_vec _ _ _ _ _ _ (conj_is_vec _ _ _ Hvr) Hvr).
  - intros o ol or Hlen Hket Hop Hob Hrol Hsol Hror Hsor m.
    rewrite <- Hts in Hlen, Hket.
    destruct (transfer_matrix_Some s o Hl Hlen Hket Hop) as (T & ET & ST).
    exists T. split; [exact ET|]. unfold expect. rewrite HL, ET. cbn [bind].
    destruct (matrix_power_nonneg T _ _ k (shape_is_mat _ _ _ ST)
                ltac:(lia)) as (P & EP & HP).
    rewrite EP. cbn [bind]. unfold bdry_array, getitem. rewrite Hb, Hob.
    cbn [nth_error bind]. rewrite Hnone.
    pose proof (rank1_is_vec ol _ Hrol Hsol) as Hvol.
    pose proof (rank1_is_vec or _ Hror Hsor) as Hvor.
    apply sandwich_code; [| | exact HP].
    + apply (kron_vec _ _ _ _ _ _ (conj_is_vec _ _ _ Hvl)
               (kron_vec _ _ _ _ _ _ Hvol Hvl)).
    + apply (kron_vec _ _ _ _ _ _ (conj_is_vec _ _ _ Hvr)
               (kron_vec _ _ _ _ _ _ Hvor Hvr)).
Qed.

(** ** Chain lengths the finite formula was not written for *)

Lemma fpow_0_apply (n : nat) (f : nat -> nat -> C) (v : nat -> C) (i : nat) :
  (i < n)%nat -> fmv n (fpow n f 0) v i = v i.
Proof. intros Hi. apply Csum_delta_l, Hi. Qed.

Lemma expect_trace_inverse (s : MPS) (l : ndarray) (k : Z)
  (T Ti : ndarray) :
  l_uc s = length (tensors s) ->
  forallb (site_shaped (chi s)) (tensors s) = true ->
  L s = Finite k -> (k < 0)%Z ->
  bdry_vecs s = [Some l; None] ->
  ndim l = 1%nat -> nd_size l = chi s ->
  transfer_matrix s None = Ok T ->
  linalg_inv T = Ok Ti ->
  shape Ti = shape T ->
  let c := chi s in
  let n := (c * c)%nat in
  expect linalg_inv s None
  = Ok (scalar
          (Csum n (fun i =>
             trace_vec c i
             * fmv n (fpow n (entries Ti) (Z.to_nat (- k)))
                 (dbl c (vec l)) i))).
Proof.
  intros Hl Hsh HL Hk Hb Hrank Hsz ET Ei Si c n.
  destruct (transfer_matrix_None s Hl Hsh) as (T' & ET' & ST & _).
  rewrite ET in ET'. injection ET' as <-.
  unfold expect. rewrite HL, ET. cbn [bind]. unfold matrix_power.
  rewrite ST, Nat.eqb_refl. destruct (Z.ltb_spec k 0); [|lia].
  rewrite Ei. cbn [bind]. rewrite ST in Si.
  destruct (mpow_is_mat Ti _ _ (Z.to_nat (- k)) (shape_is_mat _ _ _ Si))
    as (P & EP & HP).
  rewrite EP. cbn [bind].
  unfold bdry_array, getitem. rewrite Hb. cbn [nth_error bind is_None_all].
  pose proof (rank1_is_vec l (chi s) Hrank Hsz) as Hv.
  pose proof (kron_vec _ _ _ _ _ _ (conj_is_vec _ _ _ Hv) Hv) as Hk2.
  destruct (matmul_mv _ _ _ _ _ _ HP Hk2) as (x & Ex & Hx).
  rewrite Ex. cbn [bind]. rewrite Nat.pow_2_r.
  destruct (reshape_vec x _ (chi s * chi s)%nat _ Hx eq_refl) as (y & Ey & Hy).
  rewrite Ey. cbn [bind].
  destruct (reshape_eye (chi s) (chi s * chi s) eq_refl) as (rv & Er & Hrv).
  rewrite Er. cbn [bind]. unfold np_dot.
  rewrite (matmul_vv _ _ _ _ _ Hrv Hy). reflexivity.
Qed.

(** C9.  [expect()] never inspects the sign of L.  For L = 0
    the matrix power is the identity and the call returns <l|l>.  For
    L < 0 the transfer matrix is handed to numpy's inverse: if that
    raises, the call fails with its error, and if it returns a matrix of
    the transfer matrix's shape, the call returns the contraction of the
    boundaries with the (-L)-th power of that matrix.  So the call fails
    only if the inversion does. *)
Theorem expect_nonpositive_length (ts : list ndarray) (k : Z)
  (l : ndarray) (s : MPS) :
  MPS_init ts (Finite k) [Some l; None] = Ok s ->
  forallb (site_shaped (chi s)) ts = true ->
  ndim l = 1%nat ->
  (k = 0%Z -> expect linalg_inv s None = Ok (scalar (norm2 (chi s) l)))
  /\ ((k < 0)%Z ->
      exists T, transfer_matrix s None = Ok T
        /\ (forall e, linalg_inv T = Err e ->
                      expect linalg_inv s None = Err e)
        /\ (forall Ti, linalg_inv T = Ok Ti -> shape Ti = shape T ->
              expect linalg_inv s None
              = Ok (scalar
                      (Csum (chi s * chi s) (fun i =>
                         trace_vec (chi s) i
                         * fmv (chi s * chi s)
                             (fpow (chi s * chi s) (entries Ti)
                                (Z.to_nat (- k)))
                             (dbl (chi s) (vec l)) i))))).
Proof.
  intros Hinit Hsh Hrank.
  destruct (MPS_init_inv _ _ _ _ Hinit)
    as (Hl & Hts & HL & _ & l' & b1 & E0 & E1 & Hsz & _ & Hb).
  cbn in E0, E1. injection E0 as <-. injection E1 as <-.
  cbn [is_None_all] in Hb. rewrite <- Hts in Hl, Hsh. split.
  - intros ->.
    rewrite (expect_trace s l 0 Hl Hsh HL ltac:(lia) Hb Hrank Hsz).
    do 2 f_equal. rewrite <- trace_dbl. apply Csum_ext. intros i Hi.
    cbn [Z.to_nat]. rewrite fpow_0_apply by exact Hi. reflexivity.
  - intros Hk. destruct (transfer_matrix_None s Hl Hsh) as (T & ET & ST & _).
    exists T. split; [exact ET|]. split.
    + intros e He.
      unfold expect. rewrite HL, ET. cbn [bind]. unfold matrix_power.
      rewrite ST, Nat.eqb_refl. destruct (Z.ltb_spec k 0); [|lia].
      rewrite He. reflexivity.
    + intros Ti Ei Si.
      apply (expect_trace_inverse s l k T Ti Hl Hsh HL Hk Hb Hrank Hsz ET
               Ei Si).
Qed.

(** C4.  On an infinite chain [expect] raises
    NotImplementedError, with or without an operator. *)
Theorem expect_infinite_not_implemented (s : MPS) (mpo : option MPO) :
  L s = Infinite -> expect linalg_inv s mpo = Err NotImplementedError.
Proof. intros H. unfold expect. rewrite H. reflexivity. Qed.

(** C8.  [check_rcf] is a stub: it raises NotImplementedError
    for every state and returns no boolean. *)
Theorem check_rcf_not_implemented (s : MPS) :
  check_rcf s = Err NotImplementedError.
Proof. reflexivity. Qed.

(** ** What the constructor checks *)

(** C5.  [MPS.__init__] reads d and chi off the first tensor
    and looks at no other tensor: with a left boundary vector of size
    chi, and a right boundary that is unspecified or of size chi, it
    succeeds whatever the shapes of the remaining tensors are.  Its only
    check is the size of a boundary vector, reported as ValueError. *)
Theorem MPS_init_reads_first_tensor_only (t0 : ndarray)
  (rest : list ndarray) (len : chain_length) (l : ndarray)
  (b1 : option ndarray) (dd cc : nat) :
  index_size t0 [All; At 0; At 0] = Ok dd ->
  index_size t0 [At 0; All; At 0] = Ok cc ->
  nd_size l <> 0%nat ->
  (nd_size l = cc ->
   (forall r, b1 = Some r -> nd_size r = cc) ->
   MPS_init (t0 :: rest) len [Some l; b1]
   = Ok {| l_uc := S (length rest); L := len; tensors := t0 :: rest;
           d := dd; chi := cc; bdry_vecs := [Some l; b1] |})
  /\ (nd_size l <> cc ->
      MPS_init (t0 :: rest) len [Some l; b1] = Err ValueError).
Proof.
  intros Hd Hc Hnz. unfold MPS_init, getitem. cbn [nth_error bind length].
  rewrite Hd, Hc. cbn [bind is_None_all].
  destruct (Nat.eqb_spec (nd_size l) 0) as [|_]; [contradiction|].
  split.
  - intros Hl Hr. rewrite Hl, Nat.eqb_refl. cbn [negb bind app].
    destruct b1 as [r|]; cbn [is_None_all]; [|reflexivity].
    rewrite (Hr r eq_refl).
    destruct (Nat.eqb_spec cc 0) as [E|_]; [congruence|].
    rewrite Nat.eqb_refl. reflexivity.
  - intros Hl. destruct (Nat.eqb_spec (nd_size l) cc); [contradiction|].
    reflexivity.
Qed.

(** The branch for an unspecified left boundary always raises. *)
Lemma MPS_init_default_left (t0 : ndarray) (rest : list ndarray)
  (len : chain_length) (b1 : option ndarray) (dd cc : nat) :
  index_size t0 [All; At 0; At 0] = Ok dd ->
  index_size t0 [At 0; All; At 0] = Ok cc ->
  MPS_init (t0 :: rest) len [None; b1] = Err AttributeError.
Proof.
  intros Hd Hc. unfold MPS_init, getitem. cbn [nth_error bind].
  rewrite Hd, Hc. reflexivity.
Qed.

(** ** The identity operator *)

(** X18.  With an operator tensor of shape (d, 1, d, 1) and [mpo.chi] read as d
    (which is what [MPO.__init__] reads along axis 2), the first pass of
    the loop cannot reshape: the contraction has d * chi^2 entries, the
    requested shape d * (d * chi)^2. *)
Lemma identity_operator_reshape_fails (s : MPS) (o : MPO) (A O : ndarray)
  (k : Z) :
  L s = Finite k ->
  (0 < l_uc s)%nat ->
  nth_error (tensors s) 0 = Some A ->
  nth_error (o_tensors o) 0 = Some O ->
  shape A = [d s; chi s; chi s] ->
  shape O = [d s; 1%nat; d s; 1%nat] ->
  o_chi o = d s ->
  (2 <= d s)%nat -> (1 <= chi s)%nat ->
  expect linalg_inv s (Some o) = Err ValueError.
Proof.
  intros HL Hl HA HO SA SO Hoc Hd Hc. unfold expect. rewrite HL.
  unfold transfer_matrix. destruct (l_uc s) as [|n]; [lia|].
  cbn [seq for_range]. unfold tm_site_mpo at 1, getitem.
  rewrite HA, HO. cbn [bind].
  destruct (tensordot_shape O A 2 0) as (t1 & E1 & S1);
    try (unfold ndim; rewrite ?SA, ?SO; cbn; lia).
  rewrite E1. cbn [bind]. rewrite SA, SO in S1. cbn in S1.
  destruct (swapaxes_shape t1 2 3) as (t2 & E2 & S2);
    try (unfold ndim; rewrite S1; cbn; lia).
  rewrite E2. cbn [bind]. rewrite S1 in S2. cbn in S2.
  unfold reshape, nd_size. rewrite S2, Hoc. cbn [size_of fold_right].
  destruct (Nat.eqb_spec (d s * (1 * (chi s * (1 * (chi s * 1)))))
              (d s * (d s * chi s * (d s * chi s * 1)))) as [E|_];
    [|reflexivity].
  apply Nat.mul_cancel_l in E; [|lia].
  rewrite !Nat.mul_1_l, !Nat.mul_1_r in E.
  assert (H1 : (2 * chi s <= d s * chi s)%nat) by nia.
  pose proof (Nat.mul_le_mono _ _ _ _ H1 H1) as H2. nia.
Qed.

(** * Further properties of [mps.py] *)

(** ** The flattened identity as a left eigenvector *)

(** X1.  For a right-canonical unit cell the matrix returned by
    [transfer_matrix()] fixes the flattened identity from the left:
    summing its rows (a, a) gives the flattened identity again. *)
Theorem transfer_matrix_left_eigenvector (ts : list ndarray)
  (len : chain_length) (bd : list (option ndarray)) (s : MPS) :
  MPS_init ts len bd = Ok s ->
  Forall (right_canonical (chi s)) ts ->
  exists T,
    transfer_matrix s None = Ok T
    /\ forall bi ki, (bi < chi s)%nat -> (ki < chi s)%nat ->
         Csum (chi s)
           (fun a => get T [(a * chi s + a)%nat; (bi * chi s + ki)%nat])
         = delta bi ki.
Proof.
  intros Hinit Hrc.
  destruct (MPS_init_inv _ _ _ _ Hinit) as (Hl & Hts & _).
  rewrite <- Hts in Hl, Hrc.
  destruct (transfer_matrix_None s Hl (right_canonical_shaped _ _ Hrc))
    as (T & ET & ST & HT).
  exists T. split; [exact ET|]. intros bi ki Hbi Hki.
  pose proof (cell_left_fixed (chi s) (tensors s) Hrc delta
                (delta_left_fixed _)) as Hfix.
  assert (Hj : (bi * chi s + ki < chi s * chi s)%nat) by nia.
  specialize (Hfix _ Hj). rewrite trace_vec_sum in Hfix.
  unfold trace_vec in Hfix.
  destruct (div_mod_flat (chi s) bi ki Hki) as [E1 E2].
  rewrite E1, E2 in Hfix. rewrite <- Hfix.
  apply Csum_ext. intros a Ha. apply HT; nia.
Qed.

(** ** Tracing out the right boundary *)

(** [expect()] with both boundary vectors fixed, in terms of the loop's
    accumulated matrix. *)
Lemma expect_fixed (s : MPS) (l r : ndarray) (k : Z) :
  l_uc s = length (tensors s) ->
  forallb (site_shaped (chi s)) (tensors s) = true ->
  L s = Finite k -> (0 <= k)%Z ->
  bdry_vecs s = [Some l; Some r] ->
  ndim l = 1%nat -> nd_size l = chi s ->
  ndim r = 1%nat -> nd_size r = chi s ->
  (chi s <> 0)%nat ->
  let c := chi s in
  let n := (c * c)%nat in
  expect linalg_inv s None
  = Ok (scalar
          (sandwich n (kron_fn c (cvec r) (vec r))
             (fpow n (cell_fn n c (tensors s) delta) (Z.to_nat k))
             (kron_fn c (cvec l) (vec l)))).
Proof.
  intros Hl Hsh HL Hk Hb Hrl Hsl Hrr Hsr Hnz c n. unfold expect. rewrite HL.
  destruct (transfer_matrix_None s Hl Hsh) as (T & ET & HT).
  rewrite ET. cbn [bind].
  destruct (matrix_power_nonneg T _ _ k HT Hk) as (P & EP & HP).
  rewrite EP. cbn [bind]. unfold bdry_array, getitem. rewrite Hb.
  cbn [nth_error bind is_None_all].
  destruct (Nat.eqb_spec (nd_size r) 0) as [E|_]; [lia|].
  pose proof (rank1_is_vec l _ Hrl Hsl) as Hvl.
  pose proof (rank1_is_vec r _ Hrr Hsr) as Hvr.
  apply sandwich_code; [| | exact HP].
  - apply (kron_vec _ _ _ _ _ _ (conj_is_vec _ _ _ Hvl) Hvl).
  - apply (kron_vec _ _ _ _ _ _ (conj_is_vec _ _ _ Hvr) Hvr).
Qed.

(** Replacing the right boundary of a constructed state. *)
Lemma MPS_init_set_right (ts : list ndarray) (len : chain_length)
  (l r : ndarray) (b1 : option ndarray) (s : MPS) :
  MPS_init ts len [Some l; b1] = Ok s ->
  nd_size r = chi s ->
  MPS_init ts len [Some l; Some r]
  = Ok {| l_uc := l_uc s; L := len; tensors := ts; d := d s; chi := chi s;
          bdry_vecs := [Some l; Some r] |}.
Proof.
  intros Hinit Hr.
  destruct (MPS_init_inv _ _ _ _ Hinit)
    as (Hl & Hts & HL & (t0 & Ht0 & Hd & Hc) & l' & b1' & E0 & _ & Hsz & Hnz & _).
  cbn in E0. injection E0 as <-.
  unfold MPS_init, getitem. rewrite Ht0. cbn [bind]. rewrite Hd, Hc.
  cbn [bind nth_error is_None_all].
  destruct (Nat.eqb_spec (nd_size l) 0) as [|_]; [contradiction|].
  rewrite Hsz, Nat.eqb_refl. cbn [negb bind app].
  destruct (Nat.eqb_spec (nd_size r) 0) as [|_]; [lia|].
  rewrite Hr, Nat.eqb_refl. cbn [negb bind app]. rewrite Hl. reflexivity.
Qed.

(** The a-th standard basis vector of length n, [np.eye(n)[a]]. *)
Definition basis_vec (n a : nat) : ndarray :=
  build [n] (fun idx => delta (nth 0 idx 0%nat) a).

Lemma basis_vec_is_vec (n a : nat) :
  is_vec (basis_vec n a) n (fun b => delta b a).
Proof. apply (build_is_vec n). Qed.

Lemma Cconj_delta (i j : nat) : (delta i j)^* = delta i j.
Proof. unfold delta. destruct (i =? j)%nat; [apply Cconj_1 | apply Cconj_0]. Qed.

Lemma sandwich_fmv (n : nat) (R Lv : nat -> C) (M : nat -> nat -> C) :
  sandwich n R M Lv = Csum n (fun i => (R i)^* * fmv n M Lv i).
Proof.
  unfold sandwich, fmv. apply Csum_ext. intros i _.
  rewrite <- Csum_mul_l. apply Csum_ext. intros; ring.
Qed.

Lemma sandwich_basis (c a : nat) (w : nat -> C) :
  (a < c)%nat ->
  Csum (c * c)
    (fun i => (kron_fn c (fun b => (delta b a)^*) (fun b => delta b a) i)^*
              * w i)
  = w (a * c + a)%nat.
Proof.
  intros Ha. rewrite Csum_flat.
  rewrite (Csum_ext _ _ (fun x => delta a x * w (x * c + a)%nat)).
  - apply (Csum_delta_l c a (fun x => w (x * c + a)%nat) Ha).
  - intros x Hx.
    rewrite (Csum_ext _ _ (fun y => delta a y * (delta a x * w (x * c + y)%nat))).
    + apply (Csum_delta_l c a (fun y => delta a x * w (x * c + y)%nat) Ha).
    + intros y Hy. unfold kron_fn.
      destruct (div_mod_flat c x y Hy) as [-> ->].
      rewrite Cconj_mul, Cconj_invol, Cconj_delta.
      unfold delta. rewrite (Nat.eqb_sym x a), (Nat.eqb_sym y a). ring.
Qed.

(** X2.  "Right bc not specified -- sum over right vecs": with the right
    boundary left as None, [expect()] returns the sum, over the standard
    basis vectors e_a of the bond space, of what it returns with the
    right boundary fixed to e_a. *)
Theorem expect_trace_sums_right_vectors (ts : list ndarray) (k : Z)
  (l : ndarray) (s : MPS) :
  MPS_init ts (Finite k) [Some l; None] = Ok s ->
  forallb (site_shaped (chi s)) ts = true ->
  ndim l = 1%nat ->
  (0 <= k)%Z ->
  exists v : nat -> C,
    (forall a, (a < chi s)%nat ->
       exists sa,
         MPS_init ts (Finite k) [Some l; Some (basis_vec (chi s) a)] = Ok sa
         /\ expect linalg_inv sa None = Ok (scalar (v a)))
    /\ expect linalg_inv s None = Ok (scalar (Csum (chi s) v)).
Proof.
  intros Hinit Hsh Hrank Hk.
  destruct (MPS_init_inv _ _ _ _ Hinit)
    as (Hl & Hts & HL & _ & l' & b1 & E0 & E1 & Hsz & Hnz & Hb).
  cbn in E0, E1. injection E0 as <-. injection E1 as <-.
  cbn [is_None_all] in Hb.
  set (c := chi s) in *. set (n := (c * c)%nat).
  set (w := fmv n (fpow n (cell_fn n c ts delta) (Z.to_nat k))
              (dbl c (fun a => get l [a]))).
  exists (fun a => w (a * c + a)%nat). split.
  - intros a Ha. eexists. split.
    + apply (MPS_init_set_right ts (Finite k) l (basis_vec c a) None s Hinit).
      unfold basis_vec, nd_size. cbn [build shape size_of fold_right]. lia.
    + match goal with |- expect _ ?x _ = _ => set (sa := x) end.
      assert (Hsb : nd_size (basis_vec c a) = c).
      { unfold basis_vec, nd_size. cbn [build shape size_of fold_right]. lia. }
      assert (Hla : l_uc sa = length (tensors sa)).
      { cbn [sa l_uc tensors]. exact Hl. }
      rewrite (expect_fixed sa l (basis_vec c a) k Hla Hsh eq_refl Hk eq_refl
                 Hrank Hsz eq_refl Hsb ltac:(cbn [sa chi]; lia)).
      cbn [sa chi tensors]. fold c n. do 2 f_equal. rewrite sandwich_fmv.
      rewrite <- (sandwich_basis c a w Ha). apply Csum_ext. intros i Hi.
      f_equal. f_equal. unfold kron_fn, cvec, vec.
      destruct (basis_vec_is_vec c a) as [_ Hbv].
      assert (c <> 0)%nat by lia.
      rewrite !Hbv; [reflexivity | |].
      * apply Nat.mod_upper_bound; lia.
      * apply Nat.Div0.div_lt_upper_bound; lia.
  - rewrite <- Hts in Hl, Hsh.
    rewrite (expect_trace s l k Hl Hsh HL Hk Hb Hrank Hsz).
    fold c n. rewrite Hts. fold w. unfold n.
    rewrite (trace_vec_sum c w). reflexivity.
Qed.

(** ** Both boundaries fixed: a squared overlap *)

(** <r|x> *)
Definition overlap (c : nat) (r : ndarray) (x : nat -> C) : C :=
  Csum c (fun b => (get r [b])^* * x b).

Lemma Lsum_mul_l {A : Type} (z : C) (h : A -> C) (xs : list A) :
  Lsum (fun x => z * h x) xs = z * Lsum h xs.
Proof.
  induction xs as [|x xs IH]; cbn [Lsum]; [ring|]. rewrite IH. ring.
Qed.

Lemma overlap_sq (c : nat) (r : ndarray) (x : nat -> C) :
  Csum (c * c) (fun i => (kron_fn c (cvec r) (vec r) i)^* * dbl c x i)
  = (overlap c r x)^* * overlap c r x.
Proof.
  rewrite Csum_flat. unfold overlap. rewrite Csum_conj, <- Csum_mul_r.
  apply Csum_ext. intros a _. rewrite <- Csum_mul_l.
  apply Csum_ext. intros b Hb. unfold kron_fn, cvec, vec, dbl.
  destruct (div_mod_flat c a b Hb) as [-> ->].
  rewrite !Cconj_mul, !Cconj_invol. ring.
Qed.

Lemma sandwich_cone (c : nat) (r : ndarray) (M : nat -> nat -> C)
  (Lv : nat -> C) :
  in_cone c (fmv (c * c) M Lv) ->
  exists amps : list C,
    sandwich (c * c) (kron_fn c (cvec r) (vec r)) M Lv = sum_sq amps.
Proof.
  intros [xs Hxs]. exists (map (overlap c r) xs).
  rewrite sandwich_fmv. unfold sum_sq. rewrite Lsum_map.
  rewrite (Csum_ext _ _ (fun i => Lsum (fun x =>
             (kron_fn c (cvec r) (vec r) i)^* * dbl c x i) xs)).
  - rewrite Csum_Lsum. apply Lsum_ext. intros x. apply overlap_sq.
  - intros i Hi. rewrite Hxs by exact Hi. symmetry. apply Lsum_mul_l.
Qed.

(** X3.  With both boundary vectors fixed and no operator, [expect()] on a
    finite chain of length L >= 0 returns a sum of squared moduli (the
    squared overlaps of the right boundary vector with the kets of all
    branches): a real, non-negative number. *)
Theorem expect_fixed_nonneg (ts : list ndarray) (k : Z) (l r : ndarray)
  (s : MPS) :
  MPS_init ts (Finite k) [Some l; Some r] = Ok s ->
  forallb (site_shaped (chi s)) ts = true ->
  ndim l = 1%nat -> ndim r = 1%nat -> nd_size r = chi s ->
  (0 <= k)%Z ->
  exists amps : list C,
    expect linalg_inv s None = Ok (scalar (sum_sq amps))
    /\ Cge0 (sum_sq amps).
Proof.
  intros Hinit Hsh Hrl Hrr Hsr Hk.
  destruct (MPS_init_inv _ _ _ _ Hinit)
    as (Hl & Hts & HL & _ & l' & b1 & E0 & E1 & Hsz & Hnz & Hb).
  cbn in E0, E1. injection E0 as <-. injection E1 as <-.
  assert (Hnone : is_None_all (Some r) = false).
  { cbn [is_None_all]. apply Nat.eqb_neq. lia. }
  rewrite Hnone in Hb. rewrite <- Hts in Hl, Hsh.
  rewrite (expect_fixed s l r k Hl Hsh HL Hk Hb Hrl Hsz Hrr Hsr
             ltac:(lia)).
  destruct (sandwich_cone (chi s) r
              (fpow (chi s * chi s)
                 (cell_fn (chi s * chi s) (chi s) (tensors s) delta)
                 (Z.to_nat k))
              (kron_fn (chi s) (cvec l) (vec l))) as [amps E].
  - apply fpow_preserves_cone.
    + apply cell_preserves_cone, delta_preserves_cone.
    + exists [fun a => get l [a]]. intros i _. cbn. unfold dbl, kron_fn, cvec, vec. ring.
  - exists amps. rewrite E. split; [reflexivity | apply sum_sq_ge0].
Qed.

(** X4.  A chain of length 0 with both boundaries fixed: the transfer matrix
    drops out and [expect()] returns |<r|l>|^2. *)
Theorem expect_zero_length_overlap (ts : list ndarray) (l r : ndarray)
  (s : MPS) :
  MPS_init ts (Finite 0) [Some l; Some r] = Ok s ->
  forallb (site_shaped (chi s)) ts = true ->
  ndim l = 1%nat -> ndim r = 1%nat -> nd_size r = chi s ->
  expect linalg_inv s None
  = Ok (scalar ((overlap (chi s) r (vec l))^* * overlap (chi s) r (vec l))).
Proof.
  intros Hinit Hsh Hrl Hrr Hsr.
  destruct (MPS_init_inv _ _ _ _ Hinit)
    as (Hl & Hts & HL & _ & l' & b1 & E0 & E1 & Hsz & Hnz & Hb).
  cbn in E0, E1. injection E0 as <-. injection E1 as <-.
  assert (Hnone : is_None_all (Some r) = false).
  { cbn [is_None_all]. apply Nat.eqb_neq. lia. }
  rewrite Hnone in Hb. rewrite <- Hts in Hl, Hsh.
  rewrite (expect_fixed s l r 0 Hl Hsh HL ltac:(lia) Hb Hrl Hsz Hrr Hsr
             ltac:(lia)).
  do 2 f_equal. rewrite sandwich_fmv, <- overlap_sq.
  apply Csum_ext. intros i Hi. cbn [Z.to_nat].
  rewrite fpow_0_apply by exact Hi. reflexivity.
Qed.

(** ** Repeating the unit cell *)

(** Equality of index functions on the n x n block that is read. *)
Definition mat_eq (n : nat) (f g : nat -> nat -> C) : Prop :=
  forall i j, (i < n)%nat -> (j < n)%nat -> f i j = g i j.

Lemma fmm_ext (n : nat) (f f' g g' : nat -> nat -> C) :
  mat_eq n f f' -> mat_eq n g g' -> mat_eq n (fmm n f g) (fmm n f' g').
Proof.
  intros Hf Hg i j Hi Hj. apply Csum_ext. intros k Hk.
  rewrite Hf, Hg by assumption. reflexivity.
Qed.

Lemma fmm_delta_l (n : nat) (g : nat -> nat -> C) :
  mat_eq n (fmm n delta g) g.
Proof.
  intros i j Hi _. apply (Csum_delta_l n i (fun k => g k j) Hi).
Qed.

Lemma fmm_delta_r (n : nat) (g : nat -> nat -> C) :
  mat_eq n (fmm n g delta) g.
Proof.
  intros i j _ Hj. apply (Csum_delta_r n j (fun k => g i k) Hj).
Qed.

Lemma fmm_assoc (n : nat) (f g h : nat -> nat -> C) (i j : nat) :
  fmm n (fmm n f g) h i j = fmm n f (fmm n g h) i j.
Proof. apply (fmv_fmm n f g (fun k => h k j) i). Qed.

Lemma cell_fn_app (n c : nat) (ts1 ts2 : list ndarray)
  (g : nat -> nat -> C) :
  cell_fn n c (ts1 ++ ts2) g = cell_fn n c ts2 (cell_fn n c ts1 g).
Proof.
  revert g. induction ts1 as [|A ts1 IH]; intros g; [reflexivity|].
  cbn [app cell_fn]. apply IH.
Qed.

Lemma cell_fn_ext (n c : nat) (ts : list ndarray) :
  forall g g', mat_eq n g g' ->
               mat_eq n (cell_fn n c ts g) (cell_fn n c ts g').
Proof.
  induction ts as [|A ts IH]; intros g g' H; cbn [cell_fn]; [exact H|].
  apply IH, fmm_ext; [intros i j _ _; reflexivity | exact H].
Qed.

(** The loop started from [g] multiplies [g] by the loop's own matrix. *)
Lemma cell_fn_fmm (n c : nat) (ts : list ndarray) :
  forall g, mat_eq n (cell_fn n c ts g) (fmm n (cell_fn n c ts delta) g).
Proof.
  induction ts as [|A ts IH]; intros g; cbn [cell_fn].
  - intros i j Hi Hj. symmetry. apply fmm_delta_l; assumption.
  - intros i j Hi Hj. rewrite (IH _ i j Hi Hj).
    rewrite <- fmm_assoc. apply fmm_ext; try assumption;
      [|intros ? ? _ _; reflexivity].
    intros i' j' Hi' Hj'. symmetry. rewrite (IH _ i' j' Hi' Hj').
    apply fmm_ext; try assumption; [intros ? ? _ _; reflexivity|].
    apply fmm_delta_r.
Qed.

Lemma concat_repeat_snoc (ts : list ndarray) (k : nat) :
  concat (repeat ts (S k)) = concat (repeat ts k) ++ ts.
Proof.
  induction k as [|k IH]; cbn [repeat concat].
  - rewrite app_nil_r. reflexivity.
  - cbn [repeat concat] in IH. rewrite IH at 1. rewrite app_assoc.
    reflexivity.
Qed.

Lemma cell_fn_repeat (n c : nat) (ts : list ndarray) (k : nat) :
  mat_eq n (cell_fn n c (concat (repeat ts k)) delta)
           (fpow n (cell_fn n c ts delta) k).
Proof.
  induction k as [|k IH].
  - intros i j _ _. reflexivity.
  - rewrite concat_repeat_snoc, cell_fn_app. cbn [fpow].
    intros i j Hi Hj. rewrite (cell_fn_fmm n c ts _ i j Hi Hj).
    apply fmm_ext; try assumption. intros ? ? _ _; reflexivity.
Qed.

Lemma fmv_ext_mat (n : nat) (f g : nat -> nat -> C) (v : nat -> C)
  (i : nat) :
  mat_eq n f g -> (i < n)%nat -> fmv n f v i = fmv n g v i.
Proof.
  intros H Hi. apply Csum_ext. intros k Hk. rewrite H by assumption.
  reflexivity.
Qed.

Lemma forallb_concat_repeat (p : ndarray -> bool) (ts : list ndarray)
  (k : nat) :
  forallb p ts = true -> forallb p (concat (repeat ts k)) = true.
Proof.
  intros H. induction k as [|k IH]; [reflexivity|].
  cbn [repeat concat]. rewrite forallb_app, H, IH. reflexivity.
Qed.

(** X5.  A chain of L >= 1 copies of the unit cell [ts] and a chain made of
    one unit cell that lists the tensors of [ts] L times give the same
    <psi|psi>, whether the right boundary is traced out or fixed. *)
Theorem expect_repeated_unit_cell (ts : list ndarray) (k : Z)
  (l : ndarray) (b1 : option ndarray) (s s' : MPS) :
  MPS_init ts (Finite k) [Some l; b1] = Ok s ->
  MPS_init (concat (repeat ts (Z.to_nat k))) (Finite 1) [Some l; b1]
  = Ok s' ->
  forallb (site_shaped (chi s)) ts = true ->
  ndim l = 1%nat ->
  (forall r, b1 = Some r -> ndim r = 1%nat /\ nd_size r = chi s) ->
  (1 <= k)%Z ->
  expect linalg_inv s' None = expect linalg_inv s None.
Proof.
  intros Hinit Hinit' Hsh Hrl Hr Hk.
  destruct (MPS_init_inv _ _ _ _ Hinit)
    as (Hl & Hts & HL & (t0 & Ht0 & _ & Hc) & l1 & b & E0 & E1 & Hsz & Hnz & Hb).
  destruct (MPS_init_inv _ _ _ _ Hinit')
    as (Hl' & Hts' & HL' & (t0' & Ht0' & _ & Hc') & l2 & b' & E0' & E1'
        & Hsz' & Hnz' & Hb').
  cbn in E0, E1, E0', E1'.
  injection E0 as <-. injection E1 as <-.
  injection E0' as <-. injection E1' as <-.
  assert (Hchi : chi s' = chi s) by lia.
  set (K := Z.to_nat k) in *.
  set (c := chi s) in *. set (n := (c * c)%nat).
  assert (Hsh' : forallb (site_shaped (chi s')) (tensors s') = true).
  { rewrite Hchi, Hts'. apply forallb_concat_repeat, Hsh. }
  rewrite <- Hts in Hl, Hsh. rewrite <- Hts' in Hl'.
  assert (HM : mat_eq n
            (fpow n (cell_fn n c (tensors s') delta) (Z.to_nat 1))
            (fpow n (cell_fn n c (tensors s) delta) K)).
  { intros i j Hi Hj. change (Z.to_nat 1) with 1%nat. cbn [fpow].
    rewrite (fmm_delta_r n _ i j Hi Hj). rewrite Hts', Hts.
    apply cell_fn_repeat; assumption. }
  destruct b1 as [r|].
  - destruct (Hr r eq_refl) as [Hrr Hsr].
    assert (Hnone : is_None_all (Some r) = false).
    { cbn [is_None_all]. apply Nat.eqb_neq. fold c in Hsr. lia. }
    rewrite Hnone in Hb, Hb'.
    rewrite (expect_fixed s l r k Hl Hsh HL ltac:(lia) Hb Hrl Hsz Hrr Hsr
               ltac:(fold c; lia)).
    rewrite (expect_fixed s' l r 1 Hl' Hsh' HL' ltac:(lia) Hb' Hrl Hsz'
               Hrr ltac:(lia) ltac:(lia)).
    rewrite Hchi. fold c n K. do 2 f_equal. rewrite !sandwich_fmv.
    apply Csum_ext. intros i Hi. f_equal.
    apply fmv_ext_mat; assumption.
  - cbn [is_None_all] in Hb, Hb'.
    rewrite (expect_trace s l k Hl Hsh HL ltac:(lia) Hb Hrl Hsz).
    rewrite (expect_trace s' l 1 Hl' Hsh' HL' ltac:(lia) Hb' Hrl Hsz').
    rewrite Hchi. fold c n K. do 2 f_equal.
    apply Csum_ext. intros i Hi. f_equal.
    apply fmv_ext_mat; assumption.
Qed.

(** ** Where a mismatched bond dimension is noticed *)

Lemma for_range_app {A : Type} (js1 js2 : list nat) (acc : A)
  (body : nat -> A -> result A) :
  for_range (js1 ++ js2) acc body
  = (acc' <- for_range js1 acc body ;; for_range js2 acc' body).
Proof.
  revert acc. induction js1 as [|j js1 IH]; intros acc; [reflexivity|].
  cbn [app for_range]. destruct (body j acc) as [a|e]; cbn [bind];
    [apply IH | reflexivity].
Qed.

Lemma square_inj (x y : nat) : (x * x = y * y)%nat -> x = y.
Proof. intros H. nia. Qed.

(** The loop over a well-shaped stretch of the unit cell. *)
Lemma tm_loop_stretch (s : MPS) (ts : list ndarray) :
  forall (pre post : list ndarray) (acc : ndarray) (g : nat -> nat -> C),
  tensors s = pre ++ ts ++ post ->
  forallb (site_shaped (chi s)) ts = true ->
  is_mat acc (chi s * chi s) (chi s * chi s) g ->
  exists T, for_range (seq (length pre) (length ts)) acc (tm_site s) = Ok T
    /\ is_mat T (chi s * chi s) (chi s * chi s)
         (cell_fn (chi s * chi s) (chi s) ts g).
Proof.
  induction ts as [|A ts IH]; intros pre post acc g Hts Hsh Hacc.
  - exists acc. split; [reflexivity | exact Hacc].
  - cbn [forallb] in Hsh. apply andb_prop in Hsh. destruct Hsh as [HA Hsh].
    cbn [length seq for_range].
    destruct (tm_site_step s (length pre) A acc g) as (T & ET & HT);
      try assumption.
    { rewrite Hts, nth_error_app2, Nat.sub_diag by lia. reflexivity. }
    rewrite ET. cbn [bind].
    destruct (IH (pre ++ [A]) post T
                (fmm (chi s * chi s) (site_fn (chi s) A) g))
      as (T' & ET' & HT'); try assumption.
    { rewrite Hts, <- app_assoc. reflexivity. }
    rewrite length_app in ET'. cbn [length] in ET'.
    rewrite Nat.add_1_r in ET'. exists T'. split; assumption.
Qed.

(** X6.  The constructor accepts site tensors of any shape after the first;
    [transfer_matrix()] raises ValueError at the first site whose bond
    dimensions do not multiply to chi^2 (its reshape fails), and so does
    [expect()] on a finite chain. *)
Theorem transfer_matrix_mismatched_site (pre post : list ndarray)
  (A : ndarray) (dA o i : nat) (k : Z) (bd : list (option ndarray))
  (s : MPS) :
  MPS_init (pre ++ A :: post) (Finite k) bd = Ok s ->
  forallb (site_shaped (chi s)) pre = true ->
  shape A = [dA; o; i] ->
  (o * i <> chi s * chi s)%nat ->
  transfer_matrix s None = Err ValueError
  /\ expect linalg_inv s None = Err ValueError.
Proof.
  intros Hinit Hpre SA Hne.
  destruct (MPS_init_inv _ _ _ _ Hinit) as (Hl & Hts & HL & _).
  assert (HT : transfer_matrix s None = Err ValueError).
  { unfold transfer_matrix. rewrite Hl, length_app. cbn [length].
    rewrite seq_app, for_range_app, Nat.pow_2_r. cbn [Nat.add].
    destruct (tm_loop_stretch s pre [] (A :: post)
                (np_eye (chi s * chi s) (chi s * chi s)) delta)
      as (T & ET & _); [exact Hts | exact Hpre | apply np_eye_is_mat |].
    cbn [length] in ET. rewrite ET. cbn [bind seq for_range].
    unfold tm_site at 1, getitem.
    rewrite Hts, nth_error_app2, Nat.sub_diag by lia. cbn [nth_error bind].
    destruct (tensordot_3_3 (conj A) A dA o i o i SA SA) as (t & Et & St & _).
    rewrite Et. cbn [bind].
    destruct (swapaxes_shape t 1 2) as (sw & Es & Ss);
      try (unfold ndim; rewrite St; cbn; lia).
    rewrite Es. cbn [bind]. rewrite St in Ss. cbn in Ss.
    unfold reshape, nd_size. rewrite Ss, Nat.pow_2_r.
    cbn [size_of fold_right].
    destruct (Nat.eqb_spec (o * (o * (i * (i * 1))))
                (chi s * chi s * (chi s * chi s * 1))) as [E|_];
      [|reflexivity].
    exfalso. apply Hne, square_inj. lia. }
  split; [exact HT|]. unfold expect. rewrite HL, HT. reflexivity.
Qed.

(** ** What the constructors reject *)

(** X7.  [MPS.__init__] raises IndexError when the tensor list is empty, and
    when the first tensor has fewer than three axes or one of its first
    three axes has length 0 (the reads [tensors[0][:,0,0]] and
    [tensors[0][0,:,0]] are out of bounds), whatever the boundary
    vectors are. *)
Theorem MPS_init_index_error (len : chain_length)
  (bd : list (option ndarray)) :
  MPS_init [] len bd = Err IndexError
  /\ forall t0 rest,
       (ndim t0 < 3)%nat \/ In 0%nat (firstn 3 (shape t0)) ->
       MPS_init (t0 :: rest) len bd = Err IndexError.
Proof.
  split; [reflexivity|]. intros t0 rest H.
  unfold MPS_init, getitem, index_size, ndim in *. cbn [nth_error bind].
  destruct (shape t0) as [|a [|b [|c sh]]]; try reflexivity;
    try (cbn [index_shape bind]; destruct (0 <? b)%nat; reflexivity).
  - destruct H as [H|H]; [cbn in H; lia|]. cbn [firstn In] in H.
    cbn [index_shape bind].
    destruct b as [|b]; [reflexivity|]. destruct c as [|c]; [reflexivity|].
    destruct a as [|a]; [reflexivity|].
    exfalso. destruct H as [H|[H|[H|[]]]]; discriminate.
Qed.

(** X8.  The right boundary vector is checked like the left one: a non-empty
    vector whose size is not chi raises ValueError, and a boundary list
    with a single entry raises IndexError. *)
Theorem MPS_init_right_boundary_checked (ts : list ndarray)
  (len : chain_length) (l r : ndarray) (b1 : option ndarray) (s : MPS) :
  MPS_init ts len [Some l; b1] = Ok s ->
  (nd_size r <> 0%nat -> nd_size r <> chi s ->
   MPS_init ts len [Some l; Some r] = Err ValueError)
  /\ MPS_init ts len [Some l] = Err IndexError.
Proof.
  intros Hinit.
  destruct (MPS_init_inv _ _ _ _ Hinit)
    as (_ & _ & _ & (t0 & Ht0 & Hd & Hc) & l' & b1' & E0 & _ & Hsz & Hnz & _).
  cbn in E0. injection E0 as <-.
  unfold MPS_init, getitem. rewrite Ht0. cbn [bind]. rewrite Hd, Hc.
  cbn [bind nth_error is_None_all].
  destruct (Nat.eqb_spec (nd_size l) 0) as [|_]; [contradiction|].
  rewrite Hsz, Nat.eqb_refl. cbn [negb bind app]. split; [|reflexivity].
  intros Hr0 Hrc.
  destruct (Nat.eqb_spec (nd_size r) 0) as [|_]; [contradiction|].
  destruct (Nat.eqb_spec (nd_size r) (chi s)) as [|_]; [contradiction|].
  reflexivity.
Qed.

(** ** [MPO.__init__] *)

(** What the constructor reads off a first tensor of shape
    (po, bo, pi, bi) with no empty axis: d = po and chi = pi. *)
Lemma MPO_dims (t0 : ndarray) (po bo pi bi : nat) :
  shape t0 = [po; bo; pi; bi] ->
  (0 < po)%nat -> (0 < bo)%nat -> (0 < pi)%nat -> (0 < bi)%nat ->
  index_size t0 [All; At 0; At 0; At 0] = Ok po
  /\ index_size t0 [At 0; At 0; All; At 0] = Ok pi.
Proof.
  intros St Hpo Hbo Hpi Hbi. unfold index_size. rewrite St.
  cbn [index_shape bind]. apply Nat.ltb_lt in Hpo, Hbo, Hpi, Hbi.
  rewrite Hpo, Hbo, Hpi, Hbi. cbn [bind size_of fold_right].
  rewrite !Nat.mul_1_r. split; reflexivity.
Qed.

Lemma rank1_shape (v : ndarray) (n : nat) :
  ndim v = 1%nat -> nd_size v = n -> shape v = [n].
Proof. intros H1 H2. apply (rank1_is_vec v n H1 H2). Qed.

(** The first pass with the left boundary unspecified: the list is still
    empty, and [[] += np.zeros(chi)] adds arrays of shapes (0,) and
    (chi,).  For chi >= 2 they do not broadcast; otherwise the sum has
    no entry to assign to. *)
Lemma iadd_empty_zeros (c j : nat) :
  (bv <- iadd_array (PyList []) (np_zeros c) ;; seq_setitem bv j C1)
  = Err (if (2 <=? c)%nat then ValueError else IndexError).
Proof. destruct c as [|[|c]]; reflexivity. Qed.

Lemma broadcast_rev_nil_r (s : list nat) : broadcast_rev s [] = Some s.
Proof. destruct s; reflexivity. Qed.

(** A one-entry list of an array of size c, added to an array of shape
    (c,): if the shapes broadcast at all, the sum has length 1 along its
    first axis. *)
Lemma broadcast_stack (sh : list nat) (c : nat) (r : list nat) :
  size_of sh = c ->
  broadcast_shapes (1%nat :: sh) [c] = Some r ->
  exists t, r = 1%nat :: t.
Proof.
  intros Hsz. unfold broadcast_shapes. cbn [rev app].
  destruct (rev sh) as [|n q] eqn:R.
  - apply (f_equal (@rev nat)) in R. rewrite rev_involutive in R.
    cbn [rev] in R. subst sh. cbn [size_of fold_right] in Hsz. subst c.
    cbn. intros [= <-]. exists []. reflexivity.
  - cbn [app broadcast_rev]. rewrite broadcast_rev_nil_r.
    destruct (broadcast_dim n c) as [k|]; [|discriminate].
    cbn [option_map rev]. intros [= <-]. rewrite rev_app_distr.
    cbn [rev app]. eexists. reflexivity.
Qed.

(** The second pass with the right boundary unspecified, after a left
    vector of size chi has been stored. *)
Lemma iadd_singleton_zeros (v : ndarray) (c : nat) :
  nd_size v = c ->
  (bv <- iadd_array (PyList [v]) (np_zeros c) ;; seq_setitem bv 1 C1)
  = Err (if broadcasts (1%nat :: shape v) [c] then IndexError
         else ValueError).
Proof.
  intros Hsz. unfold broadcasts, iadd_array, np_asarray. cbn [forallb].
  destruct (list_eq_dec Nat.eq_dec (shape v) (shape v)) as [_|N];
    [|contradiction].
  cbn [andb bind length]. unfold np_add. cbn [shape np_zeros build].
  destruct (broadcast_shapes (1%nat :: shape v) [c]) as [r|] eqn:E;
    [|reflexivity].
  destruct (broadcast_stack _ _ _ Hsz E) as [t ->].
  cbn [bind seq_setitem]. unfold np_setitem. cbn [shape build].
  reflexivity.
Qed.

(** X9.  With the left boundary vector left unspecified (the default),
    [MPO.__init__] raises: [self.bdry_vecs += np.zeros(self.chi)] on
    the still empty list is numpy's addition of arrays of shapes (0,)
    and (chi,), a ValueError for chi >= 2; for chi = 1 the sum is empty
    and [self.bdry_vecs[0] = 1] raises IndexError.  Here chi is the
    length of axis 2 of the first tensor. *)
Theorem MPO_init_unspecified_left_raises (t0 : ndarray)
  (rest : list ndarray) (len : chain_length) (bd : list (option ndarray))
  (po bo pi bi : nat) :
  shape t0 = [po; bo; pi; bi] ->
  (0 < po)%nat -> (0 < bo)%nat -> (0 < pi)%nat -> (0 < bi)%nat ->
  MPO_init (t0 :: rest) len (None :: bd)
  = Err (if (2 <=? pi)%nat then ValueError else IndexError).
Proof.
  intros St Hpo Hbo Hpi Hbi.
  destruct (MPO_dims t0 po bo pi bi St Hpo Hbo Hpi Hbi) as [Ed Ec].
  unfold MPO_init, getitem. cbn [nth_error bind length]. rewrite Ed, Ec.
  cbn [bind seq for_range nth_error is_None_all].
  rewrite iadd_empty_zeros. reflexivity.
Qed.

(** X10.  With explicit, non-empty boundary vectors [MPO.__init__] compares
    their sizes with the length of axis 2 of the first tensor (its
    physical-in axis): vectors of that size are stored as given, a left
    vector of another size raises ValueError. *)
Theorem MPO_init_explicit_boundaries (t0 : ndarray) (rest : list ndarray)
  (len : chain_length) (ol or : ndarray) (po bo pi bi : nat) :
  shape t0 = [po; bo; pi; bi] ->
  (0 < po)%nat -> (0 < bo)%nat -> (0 < pi)%nat -> (0 < bi)%nat ->
  nd_size ol <> 0%nat -> nd_size or <> 0%nat ->
  (nd_size ol = pi -> nd_size or = pi ->
   MPO_init (t0 :: rest) len [Some ol; Some or]
   = Ok {| o_l_uc := S (length rest); o_L := len; o_tensors := t0 :: rest;
           o_d := po; o_chi := pi; o_bdry_vecs := [ol; or] |})
  /\ (nd_size ol <> pi ->
      MPO_init (t0 :: rest) len [Some ol; Some or] = Err ValueError)
  /\ (nd_size ol = pi -> nd_size or <> pi ->
      MPO_init (t0 :: rest) len [Some ol; Some or] = Err ValueError).
Proof.
  intros St Hpo Hbo Hpi Hbi Hol Hor.
  destruct (MPO_dims t0 po bo pi bi St Hpo Hbo Hpi Hbi) as [Ed Ec].
  unfold MPO_init, getitem. cbn [nth_error bind length]. rewrite Ed, Ec.
  cbn [bind seq for_range nth_error is_None_all app].
  destruct (Nat.eqb_spec (nd_size ol) 0) as [|_]; [contradiction|].
  destruct (Nat.eqb_spec (nd_size or) 0) as [|_]; [contradiction|].
  split; [|split].
  - intros E1 E2. rewrite E1, E2, Nat.eqb_refl. reflexivity.
  - intros H. destruct (Nat.eqb_spec (nd_size ol) pi); [contradiction|].
    reflexivity.
  - intros E1 H. rewrite E1, Nat.eqb_refl. cbn [negb bind app iadd_list].
    destruct (Nat.eqb_spec (nd_size or) pi); [contradiction|].
    reflexivity.
Qed.

(** X11.  With a left vector of size chi given and the right boundary left
    unspecified, [MPO.__init__] raises as well: the one-entry list plus
    [np.zeros(chi)] is, when the shapes broadcast, an array of length 1
    along its first axis, so [self.bdry_vecs[1] = 1] raises IndexError
    (always so for a rank-one left vector); when they do not, the
    addition raises ValueError. *)
Theorem MPO_init_unspecified_right_raises (t0 : ndarray)
  (rest : list ndarray) (len : chain_length) (ol : ndarray)
  (po bo pi bi : nat) :
  shape t0 = [po; bo; pi; bi] ->
  (0 < po)%nat -> (0 < bo)%nat -> (0 < pi)%nat -> (0 < bi)%nat ->
  nd_size ol = pi ->
  MPO_init (t0 :: rest) len [Some ol; None]
  = Err (if broadcasts (1%nat :: shape ol) [pi] then IndexError
         else ValueError)
  /\ (ndim ol = 1%nat ->
      MPO_init (t0 :: rest) len [Some ol; None] = Err IndexError).
Proof.
  intros St Hpo Hbo Hpi Hbi Hol.
  assert (E : MPO_init (t0 :: rest) len [Some ol; None]
              = Err (if broadcasts (1%nat :: shape ol) [pi]
                     then IndexError else ValueError)).
  { destruct (MPO_dims t0 po bo pi bi St Hpo Hbo Hpi Hbi) as [Ed Ec].
    unfold MPO_init, getitem. cbn [nth_error bind length]. rewrite Ed, Ec.
    cbn [bind seq for_range nth_error is_None_all].
    destruct (Nat.eqb_spec (nd_size ol) 0) as [|_]; [lia|].
    rewrite Hol, Nat.eqb_refl. cbn [negb iadd_list app bind].
    rewrite (iadd_singleton_zeros ol pi Hol). reflexivity. }
  split; [exact E|]. intros Hr. rewrite E.
  rewrite (rank1_shape ol pi Hr Hol). unfold broadcasts, broadcast_shapes.
  cbn [rev app broadcast_rev]. unfold broadcast_dim.
  rewrite Nat.eqb_refl. reflexivity.
Qed.

(** X12.  Whatever [MPO.__init__] returns holds exactly the two boundary
    vectors it was given, each of size chi: no operator is ever
    constructed with a defaulted boundary. *)
Theorem MPO_init_stores_given_vectors (ts : list ndarray)
  (len : chain_length) (bd : list (option ndarray)) (o : MPO) :
  MPO_init ts len bd = Ok o ->
  exists ol or,
    nth_error bd 0 = Some (Some ol) /\ nth_error bd 1 = Some (Some or)
    /\ nd_size ol = o_chi o /\ nd_size or = o_chi o
    /\ o_bdry_vecs o = [ol; or]
    /\ o_tensors o = ts /\ o_l_uc o = length ts /\ o_L o = len.
Proof.
  unfold MPO_init, getitem. intros H.
  destruct (nth_error ts 0) as [t0|]; [|discriminate]. cbn [bind] in H.
  destruct (index_size t0 [All; At 0; At 0; At 0]) as [d0|];
    [|discriminate].
  cbn [bind] in H.
  destruct (index_size t0 [At 0; At 0; All; At 0]) as [c|];
    [|discriminate].
  cbn [bind seq for_range] in H.
  destruct (nth_error bd 0) as [b0|]; [|discriminate]. cbn [bind] in H.
  destruct (is_None_all b0) eqn:N0.
  { rewrite iadd_empty_zeros in H. discriminate. }
  destruct b0 as [ol|]; [|discriminate].
  destruct (Nat.eqb_spec (nd_size ol) c) as [Eol|]; [|discriminate].
  cbn [negb iadd_list app bind] in H.
  destruct (nth_error bd 1) as [b1|]; [|discriminate]. cbn [bind] in H.
  destruct (is_None_all b1) eqn:N1.
  { rewrite (iadd_singleton_zeros ol c Eol) in H.
    destruct (broadcasts (1%nat :: shape ol) [c]); discriminate. }
  destruct b1 as [or|]; [|discriminate].
  destruct (Nat.eqb_spec (nd_size or) c) as [Eor|]; [|discriminate].
  cbn [negb iadd_list app bind seq_items] in H. injection H as <-.
  exists ol, or. cbn [o_chi o_bdry_vecs o_tensors o_l_uc o_L].
  repeat split; assumption.
Qed.

(** ** An operator with the state's right boundary traced out *)

(** [x.reshape(a, b, c)] of a vector *)
Lemma reshape_vec_3 (x : ndarray) (n a b c : nat) (w : nat -> C) :
  is_vec x n w -> n = (a * (b * c))%nat ->
  exists t, reshape x [a; b; c] = Ok t /\ shape t = [a; b; c] /\
    forall i j k, (i < a)%nat -> (j < b)%nat -> (k < c)%nat ->
      get t [i; j; k] = w ((i * b + j) * c + k)%nat.
Proof.
  intros [Sx Hx] ->. destruct (reshape_ok x [a; b; c]) as [t Et].
  { rewrite Sx. cbn [size_of fold_right]. lia. }
  exists t. split; [exact Et|]. split; [exact (shape_reshape _ _ _ Et)|].
  intros i j k Hi Hj Hk.
  rewrite (get_reshape x t _ [((i * b + j) * c + k)%nat] [i; j; k] Et).
  - apply Hx. assert (H1 : (i * b + j + 1 <= a * b)%nat) by nia.
    pose proof (Nat.mul_le_mono_r _ _ c H1) as H2. nia.
  - rewrite Sx. cbn [ravel size_of fold_right]. lia.
Qed.

(** [np.tensordot(v, t, axes=([0],[1]))] of a vector and a rank-three
    array *)
Lemma tensordot_1_3 (v t : ndarray) (a b c : nat) :
  shape v = [b] -> shape t = [a; b; c] ->
  exists u, tensordot v t 0 1 = Ok u /\ shape u = [a; c] /\
    forall i k, (i < a)%nat -> (k < c)%nat ->
      get u [i; k] = Csum b (fun m => get v [m] * get t [i; m; k]).
Proof.
  intros Sv St. unfold tensordot, ndim. rewrite Sv, St.
  cbn [length Nat.ltb Nat.leb andb nth remove_nth app]. rewrite Nat.eqb_refl.
  eexists; split; [reflexivity|]. split; [reflexivity|].
  intros i k Hi Hk.
  rewrite get_build by (repeat constructor; assumption). reflexivity.
Qed.

(** [u.reshape(c**2)] of a c x c matrix *)
Lemma reshape_mat_vec (u : ndarray) (c : nat) :
  shape u = [c; c] ->
  exists y, reshape u [(c * c)%nat] = Ok y
    /\ is_vec y (c * c) (fun i => get u [(i / c)%nat; (i mod c)%nat]).
Proof.
  intros Su. destruct (reshape_ok u [(c * c)%nat]) as [y Ey].
  { rewrite Su. cbn [size_of fold_right]. lia. }
  exists y. split; [exact Ey|]. split; [exact (shape_reshape _ _ _ Ey)|].
  intros i Hi. apply (get_reshape u y _ _ _ Ey). rewrite Su.
  cbn [ravel size_of fold_right]. pose proof (Nat.div_mod_eq i c). lia.
Qed.

Lemma expect_operator_trace_fn (s : MPS) (o : MPO) (k : Z)
  (l ol or : ndarray) (tail : list ndarray) (T : ndarray)
  (f : nat -> nat -> C) :
  let c := chi s in
  let oc := o_chi o in
  let n := (c * (oc * c))%nat in
  L s = Finite k -> (0 <= k)%Z ->
  bdry_vecs s = [Some l; None] ->
  ndim l = 1%nat -> nd_size l = chi s ->
  o_bdry_vecs o = ol :: or :: tail ->
  ndim ol = 1%nat -> nd_size ol = o_chi o ->
  ndim or = 1%nat -> nd_size or = o_chi o ->
  transfer_matrix s (Some o) = Ok T ->
  is_mat T n n f ->
  expect linalg_inv s (Some o)
  = Ok (scalar
          (Csum c (fun a => Csum oc (fun m =>
             vec or m
             * fmv n (fpow n f (Z.to_nat k))
                 (kron_fn (oc * c) (cvec l)
                    (kron_fn c (vec ol) (vec l)))
                 ((a * oc + m) * c + a)%nat)))).
Proof.
  intros c oc n HL Hk Hb Hrl Hsz Hob Hrol Hsol Hror Hsor ET HT.
  unfold expect. rewrite HL, ET. cbn [bind].
  destruct (matrix_power_nonneg T _ _ k HT Hk) as (P & EP & HP).
  rewrite EP. cbn [bind]. unfold bdry_array, getitem. rewrite Hb, Hob.
  cbn [nth_error bind is_None_all].
  pose proof (rank1_is_vec l _ Hrl Hsz) as Hvl.
  pose proof (rank1_is_vec ol _ Hrol Hsol) as Hvol.
  pose proof (kron_vec _ _ _ _ _ _ (conj_is_vec _ _ _ Hvl)
                (kron_vec _ _ _ _ _ _ Hvol Hvl)) as Hbl.
  destruct (matmul_mv _ _ _ _ _ _ HP Hbl) as (x & Ex & Hx).
  rewrite Ex. cbn [bind].
  destruct (reshape_vec_3 x _ (chi s) (o_chi o) (chi s) _ Hx eq_refl)
    as (t & Et & St & Ht).
  rewrite Et. cbn [bind].
  destruct (tensordot_1_3 or t (chi s) (o_chi o) (chi s)
              (rank1_shape or _ Hror Hsor) St) as (u & Eu & Su & Hu).
  rewrite Eu. cbn [bind]. rewrite Nat.pow_2_r.
  destruct (reshape_mat_vec u (chi s) Su) as (y & Ey & Hy).
  rewrite Ey. cbn [bind].
  destruct (reshape_eye (chi s) (chi s * chi s) eq_refl) as (rv & Er & Hrv).
  rewrite Er. cbn [bind]. unfold np_dot.
  rewrite (matmul_vv _ _ _ _ _ Hrv Hy). do 2 f_equal.
  rewrite trace_vec_sum. apply Csum_ext. intros a Ha.
  destruct (div_mod_flat (chi s) a a Ha) as [-> ->].
  rewrite Hu by assumption. apply Csum_ext. intros m Hm.
  rewrite Ht by assumption. reflexivity.
Qed.

(** X13.  With an operator inserted and the state's right boundary traced out,
    [expect] contracts T^L * leftVec, read as an array indexed by
    (bra bond, operator bond, ket bond), with the operator's right
    boundary vector on the operator bond (not conjugated) and with the
    identity on the two state bonds. *)
Theorem expect_operator_trace (ts : list ndarray) (k : Z) (l : ndarray)
  (s : MPS) (o : MPO) (ol or : ndarray) (tail : list ndarray) :
  MPS_init ts (Finite k) [Some l; None] = Ok s ->
  forallb (ket_shaped (d s) (chi s)) ts = true ->
  ndim l = 1%nat ->
  (0 <= k)%Z ->
  length (o_tensors o) = length ts ->
  forallb (op_shaped (d s) (o_chi o)) (o_tensors o) = true ->
  o_bdry_vecs o = ol :: or :: tail ->
  ndim ol = 1%nat -> nd_size ol = o_chi o ->
  ndim or = 1%nat -> nd_size or = o_chi o ->
  let c := chi s in
  let oc := o_chi o in
  let n := (c * (oc * c))%nat in
  exists T,
    transfer_matrix s (Some o) = Ok T
    /\ expect linalg_inv s (Some o)
       = Ok (scalar
               (Csum c (fun a => Csum oc (fun m =>
                  vec or m
                  * fmv n (fpow n (entries T) (Z.to_nat k))
                      (kron_fn (oc * c) (cvec l)
                         (kron_fn c (vec ol) (vec l)))
                      ((a * oc + m) * c + a)%nat)))).
Proof.
  intros Hinit Hket Hrl Hk Hlen Hop Hob Hrol Hsol Hror Hsor c oc n.
  destruct (MPS_init_inv _ _ _ _ Hinit)
    as (Hl & Hts & HL & _ & l' & b & E0 & E1 & Hsz & Hnz & Hb).
  cbn in E0, E1. injection E0 as <-. injection E1 as <-.
  cbn [is_None_all] in Hb. rewrite <- Hts in Hl, Hlen, Hket.
  destruct (transfer_matrix_Some s o Hl Hlen Hket Hop) as (T & ET & ST).
  exists T. split; [exact ET|].
  apply (expect_operator_trace_fn s o k l ol or tail T (entries T) HL Hk Hb
           Hrl Hsz Hob Hrol Hsol Hror Hsor ET (shape_is_mat _ _ _ ST)).
Qed.

(** ** Operators whose unit cell differs in length from the state's *)

Lemma tm_mpo_loop_stretch (s : MPS) (o : MPO) (n : nat)
  (ts : list ndarray) :
  forall (os pre post opre opost : list ndarray) (acc : ndarray),
  tensors s = pre ++ ts ++ post -> o_tensors o = opre ++ os ++ opost ->
  length opre = length pre -> length os = length ts ->
  forallb (ket_shaped (d s) (chi s)) ts = true ->
  forallb (op_shaped (d s) (o_chi o)) os = true ->
  n = (chi s * (o_chi o * chi s))%nat ->
  shape acc = [n; n] ->
  exists T, for_range (seq (length pre) (length ts)) acc (tm_site_mpo s o)
            = Ok T /\ shape T = [n; n].
Proof.
  induction ts as [|A ts IH];
    intros os pre post opre opost acc Hts Hos Hpre Hlen Hk Ho Hn Hacc.
  - exists acc. split; [reflexivity | exact Hacc].
  - destruct os as [|O os]; [discriminate|].
    cbn [forallb] in Hk, Ho. apply andb_prop in Hk, Ho.
    destruct Hk as [HA Hk]. destruct Ho as [HO Ho].
    cbn [length seq for_range].
    destruct (tm_site_mpo_step s o (length pre) A O acc n) as (T & ET & ST);
      try assumption.
    { rewrite Hts, nth_error_app2, Nat.sub_diag by lia. reflexivity. }
    { rewrite Hos, nth_error_app2 by lia.
      rewrite Hpre, Nat.sub_diag. reflexivity. }
    rewrite ET. cbn [bind].
    destruct (IH os (pre ++ [A]) post (opre ++ [O]) opost T)
      as (T' & ET' & ST'); try assumption.
    { rewrite Hts, <- app_assoc. reflexivity. }
    { rewrite Hos, <- app_assoc. reflexivity. }
    { rewrite !length_app. cbn [length]. lia. }
    { cbn [length] in Hlen. lia. }
    rewrite length_app in ET'. cbn [length] in ET'.
    rewrite Nat.add_1_r in ET'. exists T'. split; assumption.
Qed.

(** X14.  An operator with fewer site tensors than the state's unit cell makes
    [transfer_matrix] (and [expect] on a finite chain) raise IndexError
    at the first site it lacks, [mpo.tensors[j]] being out of range. *)
Theorem transfer_matrix_short_operator (ts : list ndarray) (k : Z)
  (bd : list (option ndarray)) (s : MPS) (o : MPO) :
  MPS_init ts (Finite k) bd = Ok s ->
  forallb (ket_shaped (d s) (chi s)) ts = true ->
  forallb (op_shaped (d s) (o_chi o)) (o_tensors o) = true ->
  (length (o_tensors o) < length ts)%nat ->
  transfer_matrix s (Some o) = Err IndexError
  /\ expect linalg_inv s (Some o) = Err IndexError.
Proof.
  intros Hinit Hket Hop Hlt.
  destruct (MPS_init_inv _ _ _ _ Hinit) as (Hl & Hts & HL & _).
  set (m := length (o_tensors o)) in *.
  assert (HT : transfer_matrix s (Some o) = Err IndexError).
  { unfold transfer_matrix. rewrite Hl.
    replace (length ts) with (m + (length ts - m))%nat by lia.
    rewrite seq_app, for_range_app. cbn [Nat.add].
    rewrite <- (firstn_skipn m ts) in Hts, Hket.
    rewrite forallb_app in Hket. apply andb_prop in Hket.
    destruct Hket as [Hket _].
    destruct (tm_mpo_loop_stretch s o (chi s * (o_chi o * chi s))
                (firstn m ts) (o_tensors o) []
                (skipn m ts) [] []
                (np_eye (chi s ^ 2 * o_chi o) (chi s ^ 2 * o_chi o)))
      as (T & ET & _); try assumption; try reflexivity.
    - rewrite app_nil_r. reflexivity.
    - rewrite length_firstn. fold m. lia.
    - unfold np_eye. cbn [build shape]. rewrite Nat.pow_2_r.
      f_equal; [ring | f_equal; ring].
    - rewrite length_firstn in ET.
      replace (Nat.min m (length ts)) with m in ET by lia.
      cbn [length] in ET. rewrite ET. cbn [bind].
      destruct (length ts - m)%nat as [|q] eqn:Eq; [lia|].
      cbn [seq for_range]. unfold tm_site_mpo at 1, getitem.
      replace (nth_error (o_tensors o) m) with (@None ndarray)
        by (symmetry; apply nth_error_None; fold m; lia).
      reflexivity. }
  split; [exact HT|]. unfold expect. rewrite HL, HT. reflexivity.
Qed.

Lemma for_range_ext {A : Type} (js : list nat) (acc : A)
  (body body' : nat -> A -> result A) :
  (forall j a, In j js -> body j a = body' j a) ->
  for_range js acc body = for_range js acc body'.
Proof.
  revert acc. induction js as [|j js IH]; intros acc H; [reflexivity|].
  cbn [for_range]. rewrite (H j acc (or_introl eq_refl)).
  destruct (body' j acc) as [a|e]; cbn [bind]; [|reflexivity].
  apply IH. intros j' a' Hin. apply H. right. exact Hin.
Qed.

(** X15.  [transfer_matrix] and [expect] read the operator's chi, its boundary
    list and its first l_uc site tensors (l_uc being the state's), and
    nothing else: surplus operator tensors, and the operator's own d, L
    and l_uc, are ignored. *)
Theorem expect_ignores_surplus_operator_tensors (s : MPS) (o o' : MPO) :
  o_chi o' = o_chi o ->
  o_bdry_vecs o' = o_bdry_vecs o ->
  firstn (l_uc s) (o_tensors o') = firstn (l_uc s) (o_tensors o) ->
  transfer_matrix s (Some o') = transfer_matrix s (Some o)
  /\ expect linalg_inv s (Some o') = expect linalg_inv s (Some o).
Proof.
  intros Hc Hb Hf.
  assert (HT : transfer_matrix s (Some o') = transfer_matrix s (Some o)).
  { unfold transfer_matrix. rewrite Hc. apply for_range_ext.
    intros j a Hin. apply in_seq in Hin. unfold tm_site_mpo, getitem.
    rewrite Hc.
    replace (nth_error (o_tensors o') j) with (nth_error (o_tensors o) j);
      [reflexivity|].
    pose proof (nth_error_firstn (l_uc s) (o_tensors o) j) as E.
    pose proof (nth_error_firstn (l_uc s) (o_tensors o') j) as E'.
    destruct (Nat.ltb_spec j (l_uc s)); [|lia].
    rewrite <- E, <- E', Hf. reflexivity. }
  split; [exact HT|]. unfold expect. rewrite HT, Hc, Hb. reflexivity.
Qed.

(** ** Exchanging bra and ket *)

(** Conjugation exchanges the bra and the ket index of a pair. *)
Definition bra_ket_symmetric (X : pair_matrix) : Prop :=
  forall bo ko bi ki, (X bo ko bi ki)^* = X ko bo ki bi.

Lemma site_transfer_symmetric (A : ndarray) :
  bra_ket_symmetric (site_transfer A).
Proof.
  intros bo ko bi ki. unfold site_transfer. rewrite Csum_conj.
  apply Csum_ext. intros p _. rewrite Cconj_mul, Cconj_invol. ring.
Qed.

Lemma pair_id_symmetric : bra_ket_symmetric pair_id.
Proof.
  intros bo ko bi ki. unfold pair_id.
  rewrite Cconj_mul, !Cconj_delta. ring.
Qed.

Lemma pair_mul_symmetric (c : nat) (X Y : pair_matrix) :
  bra_ket_symmetric X -> bra_ket_symmetric Y ->
  bra_ket_symmetric (pair_mul c X Y).
Proof.
  intros HX HY bo ko bi ki. unfold pair_mul.
  rewrite Csum_conj, Csum_swap. apply Csum_ext. intros b _.
  rewrite Csum_conj. apply Csum_ext. intros a _.
  rewrite Cconj_mul, HX, HY. reflexivity.
Qed.

Lemma ordered_product_symmetric (c : nat) (Ts : list pair_matrix) :
  Forall bra_ket_symmetric Ts -> bra_ket_symmetric (ordered_product c Ts).
Proof.
  induction 1 as [|T0 rest H0 Hrest IH]; [apply pair_id_symmetric|].
  cbn [ordered_product]. destruct rest as [|T1 rest]; [exact H0|].
  apply pair_mul_symmetric; assumption.
Qed.

(** X16.  The matrix returned by [transfer_matrix()] is turned into its complex
    conjugate by exchanging the bra with the ket index, in the row and in
    the column pair at once. *)
Theorem transfer_matrix_bra_ket_symmetry (ts : list ndarray)
  (len : chain_length) (bd : list (option ndarray)) (s : MPS) :
  MPS_init ts len bd = Ok s ->
  forallb (site_shaped (chi s)) ts = true ->
  exists T,
    transfer_matrix s None = Ok T
    /\ forall bo ko bi ki,
         (bo < chi s)%nat -> (ko < chi s)%nat ->
         (bi < chi s)%nat -> (ki < chi s)%nat ->
         (get T [(bo * chi s + ko)%nat; (bi * chi s + ki)%nat])^*
         = get T [(ko * chi s + bo)%nat; (ki * chi s + bi)%nat].
Proof.
  intros Hinit Hsh.
  destruct (MPS_init_inv _ _ _ _ Hinit)
    as (Hl & Hts & _ & (t0 & Ht0 & _) & _).
  rewrite <- Hts in Hl, Hsh.
  destruct (transfer_matrix_None s Hl Hsh) as (T & ET & ST & HT).
  exists T. split; [exact ET|]. intros bo ko bi ki Hbo Hko Hbi Hki.
  rewrite !HT by nia. rewrite Hts.
  assert (Hne : ts <> []) by (destruct ts; discriminate).
  pose proof (flattens_cell (chi s) ts Hne delta pair_id
                (flattens_delta _)) as Hf.
  rewrite !Hf by assumption. rewrite !pair_mul_id_r by assumption.
  apply ordered_product_symmetric. apply Forall_map, Forall_forall.
  intros A _. apply site_transfer_symmetric.
Qed.

(** ** Negative chain lengths *)

(** X17.  With L < 0 and a transfer matrix that numpy inverts, [expect()]
    contracts the boundaries with the (-L)-th power of the inverse. *)
Theorem expect_negative_length (ts : list ndarray) (k : Z) (l : ndarray)
  (s : MPS) (T Ti : ndarray) :
  MPS_init ts (Finite k) [Some l; None] = Ok s ->
  forallb (site_shaped (chi s)) ts = true ->
  ndim l = 1%nat ->
  (k < 0)%Z ->
  transfer_matrix s None = Ok T ->
  linalg_inv T = Ok Ti ->
  shape Ti = shape T ->
  let c := chi s in
  let n := (c * c)%nat in
  expect linalg_inv s None
  = Ok (scalar
          (Csum n (fun i =>
             trace_vec c i
             * fmv n (fpow n (entries Ti) (Z.to_nat (- k)))
                 (dbl c (vec l)) i))).
Proof.
  intros Hinit Hsh Hrank Hk ET Ei Si c n.
  destruct (MPS_init_inv _ _ _ _ Hinit)
    as (Hl & Hts & HL & _ & l' & b1 & E0 & E1 & Hsz & _ & Hb).
  cbn in E0, E1. injection E0 as <-. injection E1 as <-.
  cbn [is_None_all] in Hb. rewrite <- Hts in Hl, Hsh.
  apply (expect_trace_inverse s l k T Ti Hl Hsh HL Hk Hb Hrank Hsz ET
           Ei Si).
Qed.

(** ** The transfer matrix with an operator, entry by entry *)

(** [np.tensordot(O, A, axes=([2],[0]))] of a rank-four and a rank-three
    array *)
Lemma tensordot_4_3 (O A : ndarray) (po bo pi bi co ci : nat) :
  shape O = [po; bo; pi; bi] -> shape A = [pi; co; ci] ->
  exists t, tensordot O A 2 0 = Ok t /\ shape t = [po; bo; bi; co; ci] /\
    forall p m m' x y,
      (p < po)%nat -> (m < bo)%nat -> (m' < bi)%nat ->
      (x < co)%nat -> (y < ci)%nat ->
      get t [p; m; m'; x; y]
      = Csum pi (fun q => get O [p; m; q; m'] * get A [q; x; y]).
Proof.
  intros SO SA. unfold tensordot, ndim. rewrite SO, SA.
  cbn [length Nat.ltb Nat.leb andb nth remove_nth app]. rewrite Nat.eqb_refl.
  eexists; split; [reflexivity|]. split; [reflexivity|].
  intros p m m' x y Hp Hm Hm' Hx Hy.
  rewrite get_build by (repeat constructor; assumption). reflexivity.
Qed.

(** [np.swapaxes(t, 2, 3)] of a rank-five array *)
Lemma swapaxes_5 (t : ndarray) (n0 n1 n2 n3 n4 : nat) :
  shape t = [n0; n1; n2; n3; n4] ->
  exists s, swapaxes t 2 3 = Ok s /\ shape s = [n0; n1; n3; n2; n4] /\
    forall p m x m' y,
      (p < n0)%nat -> (m < n1)%nat -> (x < n3)%nat ->
      (m' < n2)%nat -> (y < n4)%nat ->
      get s [p; m; x; m'; y] = get t [p; m; m'; x; y].
Proof.
  intros St. unfold swapaxes, ndim. rewrite St.
  cbn [length Nat.ltb Nat.leb andb swap_nth set_nth nth].
  eexists; split; [reflexivity|]. split; [reflexivity|].
  intros p m x m' y Hp Hm Hx Hm' Hy.
  rewrite get_build by (repeat constructor; assumption). reflexivity.
Qed.

(** One site of the sandwich <A| O |A>, on flat indices: rows and
    columns are triples (bra bond, operator bond, ket bond). *)
Definition site_op_fn (c oc : nat) (A O : ndarray) (i j : nat) : C :=
  let M := (oc * c)%nat in
  Csum (nth 0 (shape A) 0%nat) (fun p =>
    (get A [p; (i / M)%nat; (j / M)%nat])^*
    * Csum (nth 0 (shape A) 0%nat) (fun q =>
        get O [p; ((i mod M) / c)%nat; q; ((j mod M) / c)%nat]
        * get A [q; ((i mod M) mod c)%nat; ((j mod M) mod c)%nat])).

Lemma site_op_matrix (A O : ndarray) (dd c oc : nat) :
  shape A = [dd; c; c] -> shape O = [dd; oc; dd; oc] ->
  exists T,
    (mpo_on_ket <- tensordot O A 2 0 ;;
     sw <- swapaxes mpo_on_ket 2 3 ;;
     mpo_on_ket_reshape <- reshape sw [dd; (oc * c)%nat; (oc * c)%nat] ;;
     bra <- tensordot (conj A) mpo_on_ket_reshape 0 0 ;;
     sw' <- swapaxes bra 1 2 ;;
     reshape sw' [(oc * c * c)%nat; (oc * c * c)%nat]) = Ok T
    /\ is_mat T (c * (oc * c)) (c * (oc * c)) (site_op_fn c oc A O).
Proof.
  intros SA SO. unfold site_op_fn. remember (oc * c)%nat as M eqn:EM.
  destruct (tensordot_4_3 O A dd oc dd oc c c SO SA) as (t1 & E1 & S1 & H1).
  destruct (swapaxes_5 t1 _ _ _ _ _ S1) as (t2 & E2 & S2 & H2).
  destruct (reshape_ok t2 [dd; M; M]) as [t3 E3].
  { rewrite S2, EM. cbn [size_of fold_right]. ring. }
  pose proof (shape_reshape _ _ _ E3) as S3.
  destruct (tensordot_3_3 (conj A) t3 dd c c M M SA S3) as (t4 & E4 & S4 & H4).
  destruct (swapaxes_4 t4 c c M M S4) as (t5 & E5 & S5 & H5).
  destruct (reshape_ok t5 [(M * c)%nat; (M * c)%nat]) as [T ET].
  { rewrite S5. cbn [size_of fold_right]. ring. }
  rewrite E1; cbn [bind]. rewrite E2; cbn [bind]. rewrite E3; cbn [bind].
  rewrite E4; cbn [bind]. rewrite E5; cbn [bind]. rewrite ET.
  exists T. split; [reflexivity|]. split.
  { rewrite (shape_reshape _ _ _ ET). f_equal; [ring | f_equal; ring]. }
  intros i j Hi Hj.
  destruct (Nat.eq_dec c 0) as [->|Hc]; [lia|].
  destruct (Nat.eq_dec oc 0) as [Ho|Ho]; [subst oc; lia|].
  assert (HM : M <> 0%nat) by (subst M; nia).
  assert (HiM : (i / M < c)%nat)
    by (apply Nat.Div0.div_lt_upper_bound; lia).
  assert (HjM : (j / M < c)%nat)
    by (apply Nat.Div0.div_lt_upper_bound; lia).
  assert (Hir : (i mod M < M)%nat) by (apply Nat.mod_upper_bound; exact HM).
  assert (Hjr : (j mod M < M)%nat) by (apply Nat.mod_upper_bound; exact HM).
  rewrite (get_reshape t5 T _
             [(i / M)%nat; (i mod M)%nat; (j / M)%nat; (j mod M)%nat]
             [i; j] ET).
  2:{ rewrite S5. cbn [ravel size_of fold_right].
      pose proof (Nat.div_mod_eq i M) as Ei.
      pose proof (Nat.div_mod_eq j M) as Ej.
      revert Ei Ej.
      generalize (i / M)%nat (i mod M)%nat (j / M)%nat (j mod M)%nat.
      intros a b a' b' -> ->. ring. }
  rewrite H5, H4 by assumption. rewrite SA. cbn [nth].
  apply Csum_ext. intros p Hp. rewrite get_conj. f_equal.
  assert (Hd : forall k, (k < M)%nat -> (k / c < oc)%nat).
  { intros k Hk. apply Nat.Div0.div_lt_upper_bound. lia. }
  assert (Hmc : forall k, (k mod c < c)%nat)
    by (intros; apply Nat.mod_upper_bound; exact Hc).
  rewrite (get_reshape t2 t3 _
             [p; ((i mod M) / c)%nat; ((i mod M) mod c)%nat;
              ((j mod M) / c)%nat; ((j mod M) mod c)%nat]
             [p; (i mod M)%nat; (j mod M)%nat] E3).
  2:{ rewrite S2. cbn [ravel size_of fold_right].
      pose proof (Nat.div_mod_eq (i mod M) c) as Ei.
      pose proof (Nat.div_mod_eq (j mod M) c) as Ej.
      revert Ei Ej. generalize (i mod M)%nat (j mod M)%nat. intros u v.
      generalize (u / c)%nat (u mod c)%nat (v / c)%nat (v mod c)%nat.
      intros a b a' b' -> ->. rewrite EM. ring. }
  rewrite H2, H1 by auto. reflexivity.
Qed.

(** What the loop of [transfer_matrix(mpo)] accumulates. *)
Fixpoint cell_op_fn (n c oc : nat) (ts os : list ndarray)
  (g : nat -> nat -> C) : nat -> nat -> C :=
  match ts, os with
  | A :: ts', W :: os' =>
      cell_op_fn n c oc ts' os' (fmm n (site_op_fn c oc A W) g)
  | _, _ => g
  end.

Lemma tm_site_mpo_step_fn (s : MPS) (o : MPO) (j : nat) (A O acc : ndarray)
  (g : nat -> nat -> C) :
  let n := (chi s * (o_chi o * chi s))%nat in
  nth_error (tensors s) j = Some A ->
  nth_error (o_tensors o) j = Some O ->
  ket_shaped (d s) (chi s) A = true ->
  op_shaped (d s) (o_chi o) O = true ->
  is_mat acc n n g ->
  exists T, tm_site_mpo s o j acc = Ok T
    /\ is_mat T n n (fmm n (site_op_fn (chi s) (o_chi o) A O) g).
Proof.
  intros n HA HO SA SO Hacc.
  apply ket_shaped_inv in SA. apply op_shaped_inv in SO.
  unfold tm_site_mpo, getitem. rewrite HA, HO. cbn [bind].
  destruct (site_op_matrix A O (d s) (chi s) (o_chi o) SA SO)
    as (T & ET & HT).
  destruct (tensordot O A 2 0) as [t1|]; [|discriminate]. cbn [bind] in *.
  destruct (swapaxes t1 2 3) as [t2|]; [|discriminate]. cbn [bind] in *.
  destruct (reshape t2 _) as [t3|]; [|discriminate]. cbn [bind] in *.
  destruct (tensordot (conj A) t3 0 0) as [t4|]; [|discriminate].
  cbn [bind] in *.
  destruct (swapaxes t4 1 2) as [t5|]; [|discriminate]. cbn [bind] in *.
  rewrite ET. cbn [bind]. apply (matmul_mm _ _ _ _ _ _ _ HT Hacc).
Qed.

Lemma tm_mpo_loop_fn (s : MPS) (o : MPO) (ts : list ndarray) :
  let n := (chi s * (o_chi o * chi s))%nat in
  forall (os pre opre : list ndarray) (acc : ndarray)
         (g : nat -> nat -> C),
  tensors s = pre ++ ts -> o_tensors o = opre ++ os ->
  length opre = length pre -> length os = length ts ->
  forallb (ket_shaped (d s) (chi s)) ts = true ->
  forallb (op_shaped (d s) (o_chi o)) os = true ->
  is_mat acc n n g ->
  exists T, for_range (seq (length pre) (length ts)) acc (tm_site_mpo s o)
            = Ok T
    /\ is_mat T n n (cell_op_fn n (chi s) (o_chi o) ts os g).
Proof.
  intros n. induction ts as [|A ts IH];
    intros os pre opre acc g Hts Hos Hpre Hlen Hk Ho Hacc.
  - exists acc. split; [reflexivity | exact Hacc].
  - destruct os as [|O os]; [discriminate|].
    cbn [forallb] in Hk, Ho. apply andb_prop in Hk, Ho.
    destruct Hk as [HA Hk]. destruct Ho as [HO Ho].
    cbn [length seq for_range cell_op_fn].
    destruct (tm_site_mpo_step_fn s o (length pre) A O acc g)
      as (T & ET & HT); try assumption.
    { rewrite Hts, nth_error_app2, Nat.sub_diag by lia. reflexivity. }
    { rewrite Hos, nth_error_app2 by lia.
      rewrite Hpre, Nat.sub_diag. reflexivity. }
    rewrite ET. cbn [bind].
    destruct (IH os (pre ++ [A]) (opre ++ [O]) T
                (fmm n (site_op_fn (chi s) (o_chi o) A O) g))
      as (T' & ET' & HT'); try assumption.
    { rewrite Hts, <- app_assoc. reflexivity. }
    { rewrite Hos, <- app_assoc. reflexivity. }
    { rewrite !length_app. cbn [length]. lia. }
    { cbn [length] in Hlen. lia. }
    rewrite length_app in ET'. cbn [length] in ET'.
    rewrite Nat.add_1_r in ET'. exists T'. split; assumption.
Qed.

Lemma transfer_matrix_Some_fn (s : MPS) (o : MPO) :
  let n := (chi s * (o_chi o * chi s))%nat in
  l_uc s = length (tensors s) ->
  length (o_tensors o) = length (tensors s) ->
  forallb (ket_shaped (d s) (chi s)) (tensors s) = true ->
  forallb (op_shaped (d s) (o_chi o)) (o_tensors o) = true ->
  exists T, transfer_matrix s (Some o) = Ok T
    /\ is_mat T n n
         (cell_op_fn n (chi s) (o_chi o) (tensors s) (o_tensors o) delta).
Proof.
  intros n Hl Hlen Hk Ho. unfold transfer_matrix. rewrite Hl.
  apply (tm_mpo_loop_fn s o (tensors s) (o_tensors o) [] []);
    try assumption; try reflexivity.
  replace (chi s ^ 2 * o_chi o)%nat with n
    by (unfold n; rewrite Nat.pow_2_r; ring).
  apply np_eye_is_mat.
Qed.

(** A matrix on (bra bond, operator bond, ket bond) triples. *)
Definition triple_matrix : Type :=
  nat -> nat -> nat -> nat -> nat -> nat -> C.

(** One site of <A| O |A>: the operator's physical-in index contracted
    with the ket, its physical-out index with the bra. *)
Definition site_sandwich (A O : ndarray) : triple_matrix :=
  fun a m x a' m' y =>
    Csum (nth 0 (shape A) 0%nat) (fun p =>
      Csum (nth 0 (shape A) 0%nat) (fun q =>
        (get A [p; a; a'])^* * get O [p; m; q; m'] * get A [q; x; y])).

Definition triple_mul (c oc : nat) (X Y : triple_matrix) : triple_matrix :=
  fun a m x a' m' y =>
    Csum c (fun a2 => Csum oc (fun m2 => Csum c (fun x2 =>
      X a m x a2 m2 x2 * Y a2 m2 x2 a' m' y))).

Definition triple_id : triple_matrix :=
  fun a m x a' m' y => delta a a' * delta m m' * delta x y.

Fixpoint ordered_product3 (c oc : nat) (Ts : list triple_matrix)
  : triple_matrix :=
  match Ts with
  | [] => triple_id
  | T0 :: rest =>
      match rest with
      | [] => T0
      | _ :: _ => triple_mul c oc (ordered_product3 c oc rest) T0
      end
  end.

(** Row-major flat index of a triple. *)
Definition flat3 (c oc a m x : nat) : nat := ((a * oc + m) * c + x)%nat.

Definition flattens3 (c oc : nat) (g : nat -> nat -> C) (X : triple_matrix)
  : Prop :=
  forall a m x a' m' y,
    (a < c)%nat -> (m < oc)%nat -> (x < c)%nat ->
    (a' < c)%nat -> (m' < oc)%nat -> (y < c)%nat ->
    g (flat3 c oc a m x) (flat3 c oc a' m' y) = X a m x a' m' y.

Lemma flat3_split (c oc a m x : nat) :
  (m < oc)%nat -> (x < c)%nat ->
  let M := (oc * c)%nat in
  (flat3 c oc a m x / M = a)%nat
  /\ ((flat3 c oc a m x mod M) / c = m)%nat
  /\ ((flat3 c oc a m x mod M) mod c = x)%nat.
Proof.
  intros Hm Hx M. unfold flat3.
  replace ((a * oc + m) * c + x)%nat with (a * M + (m * c + x))%nat
    by (unfold M; ring).
  assert (Hlt : (m * c + x < M)%nat) by (unfold M; nia).
  destruct (div_mod_flat M a (m * c + x) Hlt) as [-> ->].
  destruct (div_mod_flat c m x Hx) as [-> ->]. auto.
Qed.

Lemma Csum_flat3 (c oc : nat) (f : nat -> C) :
  Csum (c * (oc * c)) f
  = Csum c (fun a => Csum oc (fun m => Csum c (fun x =>
      f (flat3 c oc a m x)))).
Proof.
  rewrite Csum_flat. apply Csum_ext. intros a _.
  rewrite Csum_flat. apply Csum_ext. intros m _.
  apply Csum_ext. intros x _. f_equal. unfold flat3. ring.
Qed.

Lemma flattens3_site (c oc : nat) (A O : ndarray) :
  flattens3 c oc (site_op_fn c oc A O) (site_sandwich A O).
Proof.
  intros a m x a' m' y _ Hm Hx _ Hm' Hy. unfold site_op_fn, site_sandwich.
  destruct (flat3_split c oc a m x Hm Hx) as (-> & -> & ->).
  destruct (flat3_split c oc a' m' y Hm' Hy) as (-> & -> & ->).
  apply Csum_ext. intros p _. rewrite <- Csum_mul_l.
  apply Csum_ext. intros q _. ring.
Qed.

Lemma flattens3_fmm (c oc : nat) (f g : nat -> nat -> C)
  (X Y : triple_matrix) :
  flattens3 c oc f X -> flattens3 c oc g Y ->
  flattens3 c oc (fmm (c * (oc * c)) f g) (triple_mul c oc X Y).
Proof.
  intros Hf Hg a m x a' m' y Ha Hm Hx Ha' Hm' Hy. unfold fmm, triple_mul.
  rewrite Csum_flat3. apply Csum_ext. intros a2 Ha2.
  apply Csum_ext. intros m2 Hm2. apply Csum_ext. intros x2 Hx2.
  rewrite Hf, Hg by assumption. reflexivity.
Qed.

Lemma flattens3_delta (c oc : nat) : flattens3 c oc delta triple_id.
Proof.
  intros a m x a' m' y _ Hm Hx _ Hm' Hy. unfold triple_id, delta.
  destruct (Nat.eqb_spec (flat3 c oc a m x) (flat3 c oc a' m' y)) as [E|E].
  - destruct (flat3_split c oc a m x Hm Hx) as (E1 & E2 & E3).
    destruct (flat3_split c oc a' m' y Hm' Hy) as (E1' & E2' & E3').
    rewrite E in E1, E2, E3.
    rewrite <- E1, <- E2, <- E3, E1', E2', E3', !Nat.eqb_refl. ring.
  - destruct (Nat.eqb_spec a a') as [->|]; [|ring].
    destruct (Nat.eqb_spec m m') as [->|]; [|ring].
    destruct (Nat.eqb_spec x y) as [->|]; [|ring].
    contradiction.
Qed.

Lemma Csum_unflat3 (c oc : nat) (h : nat -> nat -> nat -> C) :
  Csum c (fun a => Csum oc (fun m => Csum c (fun x => h a m x)))
  = Csum (c * (oc * c))
      (fun k => h (k / (oc * c))%nat ((k mod (oc * c)) / c)%nat
                  ((k mod (oc * c)) mod c)%nat).
Proof.
  rewrite Csum_flat3. apply Csum_ext. intros a _.
  apply Csum_ext. intros m Hm. apply Csum_ext. intros x Hx.
  destruct (flat3_split c oc a m x Hm Hx) as (-> & -> & ->). reflexivity.
Qed.

Lemma triple_mul_assoc (c oc : nat) (X Y Z : triple_matrix)
  (a m x a' m' y : nat) :
  triple_mul c oc X (triple_mul c oc Y Z) a m x a' m' y
  = triple_mul c oc (triple_mul c oc X Y) Z a m x a' m' y.
Proof.
  unfold triple_mul. rewrite !Csum_unflat3.
  set (M := (oc * c)%nat).
  rewrite (Csum_ext _ _ (fun k => Csum (c * M) (fun k2 =>
     X a m x (k / M)%nat ((k mod M) / c)%nat ((k mod M) mod c)%nat
     * Y (k / M)%nat ((k mod M) / c)%nat ((k mod M) mod c)%nat
         (k2 / M)%nat ((k2 mod M) / c)%nat ((k2 mod M) mod c)%nat
     * Z (k2 / M)%nat ((k2 mod M) / c)%nat ((k2 mod M) mod c)%nat
         a' m' y))).
  2:{ intros k _. unfold M. rewrite Csum_unflat3, <- Csum_mul_l.
      apply Csum_ext. intros; ring. }
  rewrite Csum_swap. apply Csum_ext. intros k2 _.
  unfold M. rewrite Csum_unflat3, Csum_mul_r. reflexivity.
Qed.

Lemma triple_mul_id_r (c oc : nat) (X : triple_matrix)
  (a m x a' m' y : nat) :
  (a' < c)%nat -> (m' < oc)%nat -> (y < c)%nat ->
  triple_mul c oc X triple_id a m x a' m' y = X a m x a' m' y.
Proof.
  intros Ha' Hm' Hy. unfold triple_mul, triple_id.
  rewrite (Csum_ext _ _ (fun a2 => X a m x a2 m' y * delta a2 a')).
  - apply (Csum_delta_r c a' (fun a2 => X a m x a2 m' y) Ha').
  - intros a2 _.
    rewrite (Csum_ext _ _
               (fun m2 => X a m x a2 m2 y * delta a2 a' * delta m2 m')).
    + apply (Csum_delta_r oc m' (fun m2 => X a m x a2 m2 y * delta a2 a')
               Hm').
    + intros m2 _.
      rewrite (Csum_ext _ _
                 (fun x2 => X a m x a2 m2 x2 * delta a2 a' * delta m2 m'
                            * delta x2 y)) by (intros; ring).
      apply (Csum_delta_r c y
               (fun x2 => X a m x a2 m2 x2 * delta a2 a' * delta m2 m') Hy).
Qed.

Lemma flattens3_cell (c oc : nat) (ts : list ndarray) :
  ts <> [] ->
  forall os g Y, length os = length ts -> flattens3 c oc g Y ->
    flattens3 c oc (cell_op_fn (c * (oc * c)) c oc ts os g)
      (triple_mul c oc
         (ordered_product3 c oc (zip_with site_sandwich ts os)) Y).
Proof.
  induction ts as [|A ts IH]; [congruence|]. intros _ os g Y Hlen Hg.
  destruct os as [|O os]; [discriminate|].
  cbn [cell_op_fn]. destruct ts as [|B ts].
  - destruct os; [|discriminate].
    cbn [cell_op_fn zip_with ordered_product3].
    apply flattens3_fmm; [apply flattens3_site | exact Hg].
  - destruct os as [|O' os]; [discriminate|].
    assert (Hne : B :: ts <> []) by discriminate.
    pose proof (IH Hne (O' :: os) _ _ ltac:(cbn [length] in *; lia)
                  (flattens3_fmm c oc _ _ _ _ (flattens3_site c oc A O) Hg))
      as H.
    intros a m x a' m' y Ha Hm Hx Ha' Hm' Hy. rewrite H by assumption.
    rewrite triple_mul_assoc. reflexivity.
Qed.

(** X20.  With an operator inserted, [transfer_matrix] returns the square
    matrix of size chi^2 * chi_op whose rows and columns are triples
    (bra bond, operator bond, ket bond), flattened row-major in that
    order, equal to the product T_(l_uc-1) * ... * T_0 of the per-site
    sandwiches sum_(p,q) conj(A[p,a,a']) O[p,m,q,m'] A[q,x,y]. *)
Theorem transfer_matrix_operator_is_ordered_product (ts : list ndarray)
  (len : chain_length) (bd : list (option ndarray)) (s : MPS) (o : MPO) :
  MPS_init ts len bd = Ok s ->
  forallb (ket_shaped (d s) (chi s)) ts = true ->
  length (o_tensors o) = length ts ->
  forallb (op_shaped (d s) (o_chi o)) (o_tensors o) = true ->
  let c := chi s in
  let oc := o_chi o in
  exists T,
    transfer_matrix s (Some o) = Ok T
    /\ shape T = [(c ^ 2 * oc)%nat; (c ^ 2 * oc)%nat]
    /\ forall a m x a' m' y,
         (a < c)%nat -> (m < oc)%nat -> (x < c)%nat ->
         (a' < c)%nat -> (m' < oc)%nat -> (y < c)%nat ->
         get T [((a * oc + m) * c + x)%nat; ((a' * oc + m') * c + y)%nat]
         = ordered_product3 c oc (zip_with site_sandwich ts (o_tensors o))
             a m x a' m' y.
Proof.
  intros Hinit Hket Hlen Hop c oc.
  destruct (MPS_init_inv _ _ _ _ Hinit)
    as (Hl & Hts & _ & (t0 & Ht0 & _) & _).
  rewrite <- Hts in Hl, Hlen, Hket.
  destruct (transfer_matrix_Some_fn s o Hl Hlen Hket Hop)
    as (T & ET & ST & HT).
  exists T. split; [exact ET|]. split.
  { rewrite ST. unfold c, oc. rewrite Nat.pow_2_r.
    f_equal; [ring | f_equal; ring]. }
  intros a m x a' m' y Ha Hm Hx Ha' Hm' Hy.
  assert (Hne : ts <> []) by (destruct ts; discriminate).
  assert (Hb : forall a m x, (a < c)%nat -> (m < oc)%nat -> (x < c)%nat ->
                 (flat3 c oc a m x < c * (oc * c))%nat).
  { intros a0 m0 x0 H1 H2 H3. unfold flat3.
    assert (a0 * oc + m0 + 1 <= c * oc)%nat by nia.
    pose proof (Nat.mul_le_mono_r _ _ c H). nia. }
  change ((a * oc + m) * c + x)%nat with (flat3 c oc a m x).
  change ((a' * oc + m') * c + y)%nat with (flat3 c oc a' m' y).
  rewrite HT by (apply Hb; assumption). rewrite Hts in *.
  rewrite (flattens3_cell c oc ts Hne (o_tensors o) delta triple_id Hlen
             (flattens3_delta c oc)) by assumption.
  apply triple_mul_id_r; assumption.
Qed.

(** ** The identity operator *)

(** An operator tensor that is the identity on the physical leg and on
    its own bond. *)
Definition identity_op (dd oc : nat) (W : ndarray) : Prop :=
  shape W = [dd; oc; dd; oc]
  /\ forall p m q m',
       (p < dd)%nat -> (m < oc)%nat -> (q < dd)%nat -> (m' < oc)%nat ->
       get W [p; m; q; m'] = delta p q * delta m m'.

(** A transfer matrix on pairs, carried unchanged through an operator
    bond. *)
Definition spread (c : nat) (g : nat -> nat -> C) : triple_matrix :=
  fun a m x a' m' y => g (a * c + x)%nat (a' * c + y)%nat * delta m m'.

Lemma op_shaped_of_identity (dd oc : nat) (os : list ndarray) :
  Forall (identity_op dd oc) os -> forallb (op_shaped dd oc) os = true.
Proof.
  induction 1 as [|W os [SW _] _ IH]; [reflexivity|]. cbn [forallb].
  rewrite IH, andb_true_r. unfold op_shaped.
  rewrite SW, !Nat.eqb_refl. reflexivity.
Qed.

Lemma flattens3_identity_site (dd c oc : nat) (A W : ndarray) :
  shape A = [dd; c; c] -> identity_op dd oc W ->
  flattens3 c oc (site_op_fn c oc A W) (spread c (site_fn c A)).
Proof.
  intros SA [_ HW] a m x a' m' y Ha Hm Hx Ha' Hm' Hy.
  rewrite (flattens3_site c oc A W) by assumption.
  unfold site_sandwich, spread, site_fn. rewrite SA. cbn [nth].
  destruct (div_mod_flat c a x Hx) as [-> ->].
  destruct (div_mod_flat c a' y Hy) as [-> ->].
  rewrite <- Csum_mul_r. apply Csum_ext. intros p Hp.
  rewrite (Csum_ext _ _ (fun q =>
             delta p q * ((get A [p; a; a'])^* * delta m m'
                          * get A [q; x; y]))).
  - rewrite (Csum_delta_l dd p
               (fun q => (get A [p; a; a'])^* * delta m m' * get A [q; x; y])
               Hp).
    ring.
  - intros q Hq. rewrite HW by assumption. ring.
Qed.

Lemma spread_mul (c oc : nat) (g h : nat -> nat -> C)
  (a m x a' m' y : nat) :
  (m < oc)%nat ->
  triple_mul c oc (spread c g) (spread c h) a m x a' m' y
  = spread c (fmm (c * c) g h) a m x a' m' y.
Proof.
  intros Hm. unfold triple_mul, spread, fmm.
  rewrite Csum_flat, <- Csum_mul_r. apply Csum_ext. intros a2 _.
  rewrite (Csum_ext _ _ (fun m2 =>
             delta m m2
             * Csum c (fun x2 =>
                 g (a * c + x)%nat (a2 * c + x2)%nat
                 * h (a2 * c + x2)%nat (a' * c + y)%nat * delta m2 m'))).
  - rewrite (Csum_delta_l oc m
               (fun m2 => Csum c (fun x2 =>
                  g (a * c + x)%nat (a2 * c + x2)%nat
                  * h (a2 * c + x2)%nat (a' * c + y)%nat * delta m2 m'))
               Hm).
    rewrite <- Csum_mul_r. reflexivity.
  - intros m2 _. rewrite <- Csum_mul_l. apply Csum_ext. intros; ring.
Qed.

Lemma flattens3_spread_fmm (c oc : nat) (G H g h : nat -> nat -> C) :
  flattens3 c oc G (spread c g) -> flattens3 c oc H (spread c h) ->
  flattens3 c oc (fmm (c * (oc * c)) G H) (spread c (fmm (c * c) g h)).
Proof.
  intros HG HH a m x a' m' y Ha Hm Hx Ha' Hm' Hy.
  rewrite (flattens3_fmm c oc G H _ _ HG HH) by assumption.
  apply spread_mul. exact Hm.
Qed.

Lemma flattens3_spread_delta (c oc : nat) :
  flattens3 c oc delta (spread c delta).
Proof.
  intros a m x a' m' y Ha Hm Hx Ha' Hm' Hy.
  rewrite (flattens3_delta c oc) by assumption. unfold spread.
  rewrite (flattens_delta c a x a' y) by assumption.
  unfold triple_id, pair_id. ring.
Qed.

Lemma flattens3_identity_cell (dd c oc : nat) (ts : list ndarray) :
  forall os G g,
    length os = length ts ->
    forallb (ket_shaped dd c) ts = true ->
    Forall (identity_op dd oc) os ->
    flattens3 c oc G (spread c g) ->
    flattens3 c oc (cell_op_fn (c * (oc * c)) c oc ts os G)
      (spread c (cell_fn (c * c) c ts g)).
Proof.
  induction ts as [|A ts IH]; intros os G g Hlen Hk Hid HG.
  - destruct os; [exact HG | discriminate].
  - destruct os as [|W os]; [discriminate|].
    cbn [forallb] in Hk. apply andb_prop in Hk. destruct Hk as [HA Hk].
    inversion Hid as [|? ? HW Hid']; subst.
    cbn [cell_op_fn cell_fn]. apply IH; try assumption.
    + cbn [length] in Hlen. lia.
    + apply flattens3_spread_fmm; [|exact HG].
      apply (flattens3_identity_site dd); [|exact HW].
      apply ket_shaped_inv. exact HA.
Qed.

Lemma flattens3_spread_fpow (c oc : nat) (G g : nat -> nat -> C) (k : nat) :
  flattens3 c oc G (spread c g) ->
  flattens3 c oc (fpow (c * (oc * c)) G k) (spread c (fpow (c * c) g k)).
Proof.
  intros HG. induction k as [|k IH]; cbn [fpow].
  - apply flattens3_spread_delta.
  - apply flattens3_spread_fmm; assumption.
Qed.

Lemma spread_fmv (c oc : nat) (G g : nat -> nat -> C) (u w l : nat -> C)
  (a m x : nat) :
  flattens3 c oc G (spread c g) ->
  (a < c)%nat -> (m < oc)%nat -> (x < c)%nat ->
  fmv (c * (oc * c)) G (kron_fn (oc * c) u (kron_fn c w l))
    ((a * oc + m) * c + x)%nat
  = w m * fmv (c * c) g (kron_fn c u l) (a * c + x)%nat.
Proof.
  intros HG Ha Hm Hx. unfold fmv.
  rewrite Csum_flat3, Csum_flat, <- Csum_mul_l.
  apply Csum_ext. intros a2 Ha2.
  rewrite (Csum_ext _ _ (fun m2 =>
             delta m m2
             * Csum c (fun x2 =>
                 g (a * c + x)%nat (a2 * c + x2)%nat
                 * (u a2 * (w m2 * l x2))))).
  - rewrite (Csum_delta_l oc m
               (fun m2 => Csum c (fun x2 =>
                  g (a * c + x)%nat (a2 * c + x2)%nat
                  * (u a2 * (w m2 * l x2))))
               Hm).
    rewrite <- Csum_mul_l. apply Csum_ext. intros x2 Hx2.
    unfold kron_fn. destruct (div_mod_flat c a2 x2 Hx2) as [-> ->]. ring.
  - intros m2 Hm2. rewrite <- Csum_mul_l. apply Csum_ext. intros x2 Hx2.
    change ((a * oc + m) * c + x)%nat with (flat3 c oc a m x).
    rewrite (HG a m x a2 m2 x2) by assumption.
    unfold spread, kron_fn.
    destruct (flat3_split c oc a2 m2 x2 Hm2 Hx2) as (-> & -> & ->). ring.
Qed.

(** X21.  Inserting an operator whose tensors are the identity on the
    physical leg and on the operator bond, with the operator bond
    dimension equal to the one the code uses, multiplies <psi|psi> by
    the (unconjugated) product sum_m r[m] * l[m] of the operator's
    boundary vectors. *)
Theorem expect_identity_operator (ts : list ndarray) (k : Z) (l : ndarray)
  (s : MPS) (o : MPO) (ol or : ndarray) (tail : list ndarray) :
  MPS_init ts (Finite k) [Some l; None] = Ok s ->
  forallb (ket_shaped (d s) (chi s)) ts = true ->
  ndim l = 1%nat ->
  (0 <= k)%Z ->
  length (o_tensors o) = length ts ->
  Forall (identity_op (d s) (o_chi o)) (o_tensors o) ->
  o_bdry_vecs o = ol :: or :: tail ->
  ndim ol = 1%nat -> nd_size ol = o_chi o ->
  ndim or = 1%nat -> nd_size or = o_chi o ->
  exists v : C,
    expect linalg_inv s None = Ok (scalar v)
    /\ expect linalg_inv s (Some o)
       = Ok (scalar (Csum (o_chi o) (fun m => vec or m * vec ol m) * v)).
Proof.
  intros Hinit Hket Hrl Hk Hlen Hid Hob Hrol Hsol Hror Hsor.
  destruct (MPS_init_inv _ _ _ _ Hinit)
    as (Hl & Hts & HL & _ & l' & b & E0 & E1 & Hsz & Hnz & Hb).
  cbn in E0, E1. injection E0 as <-. injection E1 as <-.
  cbn [is_None_all] in Hb. rewrite <- Hts in Hl, Hlen, Hket.
  pose proof (op_shaped_of_identity _ _ _ Hid) as Hop.
  destruct (transfer_matrix_Some_fn s o Hl Hlen Hket Hop) as (T & ET & HT).
  set (c := chi s) in *. set (oc := o_chi o) in *.
  set (w := fmv (c * c)
              (fpow (c * c) (cell_fn (c * c) c (tensors s) delta)
                 (Z.to_nat k))
              (dbl c (fun a => get l [a]))).
  exists (Csum c (fun a => w (a * c + a)%nat)). split.
  - rewrite (expect_trace s l k Hl (site_shaped_of_ket _ _ _ Hket) HL Hk Hb
               Hrl Hsz).
    fold c w. rewrite (trace_vec_sum c w). reflexivity.
  - rewrite (expect_operator_trace_fn s o k l ol or tail T _ HL Hk Hb
               Hrl Hsz Hob Hrol Hsol Hror Hsor ET HT).
    fold c oc. do 2 f_equal.
    rewrite (Csum_ext _ _ (fun a => Csum oc (fun m =>
               vec or m * vec ol m) * w (a * c + a)%nat)).
    + rewrite <- Csum_mul_l. reflexivity.
    + intros a Ha. rewrite <- Csum_mul_r. apply Csum_ext. intros m Hm.
      rewrite (spread_fmv c oc _
                 (fpow (c * c) (cell_fn (c * c) c (tensors s) delta)
                    (Z.to_nat k))
                 (cvec l) (vec ol) (vec l) a m a);
        try assumption.
      * unfold w. rewrite (fmv_ext (c * c) _ (kron_fn c (cvec l) (vec l))
                             (dbl c (fun a0 => get l [a0])));
          [ring | intros; reflexivity].
      * apply flattens3_spread_fpow.
        apply (flattens3_identity_cell (d s)); try assumption.
        apply flattens3_spread_delta.
Qed.

Lemma expect_operator_fixed_fn (s : MPS) (o : MPO) (k : Z)
  (l r ol or : ndarray) (tail : list ndarray) (T : ndarray)
  (f : nat -> nat -> C) :
  let c := chi s in
  let oc := o_chi o in
  let n := (c * (oc * c))%nat in
  L s = Finite k -> (0 <= k)%Z ->
  bdry_vecs s = [Some l; Some r] ->
  ndim l = 1%nat -> nd_size l = chi s ->
  ndim r = 1%nat -> nd_size r = chi s -> (chi s <> 0)%nat ->
  o_bdry_vecs o = ol :: or :: tail ->
  ndim ol = 1%nat -> nd_size ol = o_chi o ->
  ndim or = 1%nat -> nd_size or = o_chi o ->
  transfer_matrix s (Some o) = Ok T ->
  is_mat T n n f ->
  expect linalg_inv s (Some o)
  = Ok (scalar
          (sandwich n (kron_fn (oc * c) (cvec r) (kron_fn c (vec or) (vec r)))
             (fpow n f (Z.to_nat k))
             (kron_fn (oc * c) (cvec l) (kron_fn c (vec ol) (vec l))))).
Proof.
  intros c oc n HL Hk Hb Hrl Hsl Hrr Hsr Hnz Hob Hrol Hsol Hror Hsor ET HT.
  unfold expect. rewrite HL, ET. cbn [bind].
  destruct (matrix_power_nonneg T _ _ k HT Hk) as (P & EP & HP).
  rewrite EP. cbn [bind]. unfold bdry_array, getitem. rewrite Hb, Hob.
  cbn [nth_error bind is_None_all].
  destruct (Nat.eqb_spec (nd_size r) 0) as [E|_]; [lia|].
  pose proof (rank1_is_vec l _ Hrl Hsl) as Hvl.
  pose proof (rank1_is_vec r _ Hrr Hsr) as Hvr.
  pose proof (rank1_is_vec ol _ Hrol Hsol) as Hvol.
  pose proof (rank1_is_vec or _ Hror Hsor) as Hvor.
  apply sandwich_code; [| | exact HP].
  - apply (kron_vec _ _ _ _ _ _ (conj_is_vec _ _ _ Hvl)
             (kron_vec _ _ _ _ _ _ Hvol Hvl)).
  - apply (kron_vec _ _ _ _ _ _ (conj_is_vec _ _ _ Hvr)
             (kron_vec _ _ _ _ _ _ Hvor Hvr)).
Qed.

(** X22.  With the state's right boundary fixed, the same identity
    operator multiplies <psi|psi> by sum_m conj(r[m]) * l[m]: on this
    path the operator's right boundary vector is conjugated, on the
    traced path it is not. *)
Theorem expect_identity_operator_fixed (ts : list ndarray) (k : Z)
  (l r : ndarray) (s : MPS) (o : MPO) (ol or : ndarray)
  (tail : list ndarray) :
  MPS_init ts (Finite k) [Some l; Some r] = Ok s ->
  forallb (ket_shaped (d s) (chi s)) ts = true ->
  ndim l = 1%nat -> ndim r = 1%nat -> nd_size r = chi s ->
  (0 <= k)%Z ->
  length (o_tensors o) = length ts ->
  Forall (identity_op (d s) (o_chi o)) (o_tensors o) ->
  o_bdry_vecs o = ol :: or :: tail ->
  ndim ol = 1%nat -> nd_size ol = o_chi o ->
  ndim or = 1%nat -> nd_size or = o_chi o ->
  exists v : C,
    expect linalg_inv s None = Ok (scalar v)
    /\ expect linalg_inv s (Some o)
       = Ok (scalar
               (Csum (o_chi o) (fun m => (vec or m)^* * vec ol m) * v)).
Proof.
  intros Hinit Hket Hrl Hrr Hsr Hk Hlen Hid Hob Hrol Hsol Hror Hsor.
  destruct (MPS_init_inv _ _ _ _ Hinit)
    as (Hl & Hts & HL & _ & l' & b1 & E0 & E1 & Hsz & Hnz & Hb).
  cbn in E0, E1. injection E0 as <-. injection E1 as <-.
  assert (Hnone : is_None_all (Some r) = false).
  { cbn [is_None_all]. apply Nat.eqb_neq. lia. }
  rewrite Hnone in Hb. rewrite <- Hts in Hl, Hlen, Hket.
  pose proof (op_shaped_of_identity _ _ _ Hid) as Hop.
  destruct (transfer_matrix_Some_fn s o Hl Hlen Hket Hop) as (T & ET & HT).
  assert (Hc : chi s <> 0%nat) by lia.
  eexists. split.
  - apply (expect_fixed s l r k Hl (site_shaped_of_ket _ _ _ Hket) HL Hk Hb
             Hrl Hsz Hrr Hsr Hc).
  - rewrite (expect_operator_fixed_fn s o k l r ol or tail T _ HL Hk Hb
               Hrl Hsz Hrr Hsr Hc Hob Hrol Hsol Hror Hsor ET HT).
    set (c := chi s) in *. set (oc := o_chi o) in *.
    set (g := fpow (c * c) (cell_fn (c * c) c (tensors s) delta)
                (Z.to_nat k)).
    do 2 f_equal. rewrite !sandwich_fmv, Csum_flat3, Csum_flat.
    rewrite <- Csum_mul_l. apply Csum_ext. intros a Ha.
    rewrite (Csum_ext _ _ (fun m => Csum c (fun x =>
               (vec or m)^* * vec ol m
               * ((kron_fn c (cvec r) (vec r) (a * c + x)%nat)^*
                  * fmv (c * c) g (kron_fn c (cvec l) (vec l))
                      (a * c + x)%nat)))).
    + rewrite Csum_swap, <- Csum_mul_l. apply Csum_ext. intros x Hx.
      rewrite <- Csum_mul_r. reflexivity.
    + intros m Hm. apply Csum_ext. intros x Hx.
      unfold flat3 at 2.
      rewrite (spread_fmv c oc _ g (cvec l) (vec ol) (vec l) a m x);
        try assumption.
      * unfold kron_fn at 1 2 4.
        destruct (flat3_split c oc a m x Hm Hx) as (-> & -> & ->).
        destruct (div_mod_flat c a x Hx) as [-> ->].
        rewrite !Cconj_mul. ring.
      * apply flattens3_spread_fpow.
        apply (flattens3_identity_cell (d s)); try assumption.
        apply flattens3_spread_delta.
Qed.

End Theory.

(** * Concrete states and operators *)

Module Examples.

#[local] Existing Instance GaussZ.scalar.

Definition z (n : Z) : C := (n, 0%Z).

(** An inverse that always reports a singular matrix; the examples with
    L >= 0 never call it. *)
Definition noinv (a : ndarray) : result ndarray := Err LinAlgError.

(** The SWAP gate of the source's debug script, shape (2,2,2,2), and the
    state tensor [u_swap[:,:,0,:]] cut from it, shape (2,2,2). *)
Definition u_swap : ndarray :=
  mk_ndarray [2; 2; 2; 2]%nat
    (map z [1; 0; 0; 0;  0; 0; 1; 0;  0; 1; 0; 0;  0; 0; 0; 1]%Z).

Definition a_swap : ndarray :=
  mk_ndarray [2; 2; 2]%nat (map z [1; 0; 0; 0;  0; 1; 0; 0]%Z).

(** A site tensor of bond dimension 4. *)
Definition a_chi4 : ndarray := mk_ndarray [2; 4; 4]%nat (repeat (z 0) 32).

(** |0> on a bond of dimension 2. *)
Definition ket0 : ndarray := mk_ndarray [2]%nat (map z [1; 0]%Z).

(** The identity on a physical leg of dimension 2, with bond dimension 1:
    shape (2,1,2,1). *)
Definition id_op : ndarray :=
  mk_ndarray [2; 1; 2; 1]%nat (map z [1; 0; 0; 1]%Z).

Definition one_vec : ndarray := mk_ndarray [1]%nat [z 1].

Definition mps_of (ts : list ndarray) (len : chain_length)
  (right : option ndarray) : MPS :=
  {| l_uc := length ts; L := len; tensors := ts; d := 2; chi := 2;
     bdry_vecs := [Some ket0; right] |}.

Definition swap_op : MPO :=
  {| o_l_uc := 1; o_L := Finite 1; o_tensors := [u_swap]; o_d := 2;
     o_chi := 2; o_bdry_vecs := [ket0; ket0] |}.

Lemma a_swap_right_canonical : right_canonical 2 a_swap.
Proof.
  exists 2%nat. split; [reflexivity|]. intros a b Ha Hb.
  destruct a as [|[|a]]; [| |lia]; (destruct b as [|[|b]]; [| |lia]);
    reflexivity.
Defined.

Lemma expect_right_canonical_is_one_witness :
  MPS_init [a_swap] (Finite 1000) [Some ket0; None]
  = Ok (mps_of [a_swap] (Finite 1000) None)
  /\ expect noinv (mps_of [a_swap] (Finite 1000) None) None
     = Ok (scalar C1).
Proof.
  split; [reflexivity|].
  apply (expect_right_canonical_is_one noinv [a_swap] 1000 ket0).
  - reflexivity.
  - repeat constructor. exact a_swap_right_canonical.
  - reflexivity.
  - reflexivity.
  - lia.
Defined.

(** A site tensor that is not canonical, with complex entries. *)
Definition a_generic : ndarray :=
  mk_ndarray [2; 2; 2]%nat
    [(1, 1); (2, 0); (0, -1); (1, 0);  (0, 0); (3, 0); (1, -2); (0, 1)]%Z.

Lemma transfer_matrix_is_ordered_product_witness :
  MPS_init [a_swap; a_generic] (Finite 1) [Some ket0; None]
  = Ok (mps_of [a_swap; a_generic] (Finite 1) None)
  /\ exists T,
       transfer_matrix (mps_of [a_swap; a_generic] (Finite 1) None) None
       = Ok T
       /\ shape T = [4; 4]%nat
       /\ forall bo ko bi ki,
            (bo < 2)%nat -> (ko < 2)%nat -> (bi < 2)%nat -> (ki < 2)%nat ->
            get T [(bo * 2 + ko)%nat; (bi * 2 + ki)%nat]
            = ordered_product 2
                (map site_transfer [a_swap; a_generic]) bo ko bi ki.
Proof.
  split; [reflexivity|].
  apply (transfer_matrix_is_ordered_product
           [a_swap; a_generic] (Finite 1) [Some ket0; None]);
    reflexivity.
Defined.

Lemma expect_fixed_boundaries_witness :
  MPS_init [a_swap] (Finite 3) [Some ket0; Some ket0]
  = Ok (mps_of [a_swap] (Finite 3) (Some ket0))
  /\ MPO_init [u_swap] (Finite 1) [Some ket0; Some ket0] = Ok swap_op
  /\ (exists T,
        transfer_matrix (mps_of [a_swap] (Finite 3) (Some ket0)) None = Ok T
        /\ expect noinv (mps_of [a_swap] (Finite 3) (Some ket0)) None
           = Ok (scalar
                   (sandwich 4 (kron_fn 2 (cvec ket0) (vec ket0))
                      (fpow 4 (entries T) 3)
                      (kron_fn 2 (cvec ket0) (vec ket0)))))
  /\ (exists T,
        transfer_matrix (mps_of [a_swap] (Finite 3) (Some ket0))
          (Some swap_op) = Ok T
        /\ expect noinv (mps_of [a_swap] (Finite 3) (Some ket0))
             (Some swap_op)
           = Ok (scalar
                   (sandwich 8
                      (kron_fn 4 (cvec ket0)
                         (kron_fn 2 (vec ket0) (vec ket0)))
                      (fpow 8 (entries T) 3)
                      (kron_fn 4 (cvec ket0)
                         (kron_fn 2 (vec ket0) (vec ket0)))))).
Proof.
  split; [reflexivity|]. split; [reflexivity|].
  destruct (expect_fixed_boundaries noinv [a_swap] 3 ket0 ket0
              (mps_of [a_swap] (Finite 3) (Some ket0))
              eq_refl eq_refl eq_refl eq_refl eq_refl ltac:(lia))
    as [Ha Hb].
  split; [exact Ha|].
  apply (Hb swap_op ket0 ket0); reflexivity.
Defined.

Lemma expect_trace_nonneg_witness :
  MPS_init [a_generic; a_swap] (Finite 2) [Some ket0; None]
  = Ok (mps_of [a_generic; a_swap] (Finite 2) None)
  /\ exists amps : list C,
       expect noinv (mps_of [a_generic; a_swap] (Finite 2) None) None
       = Ok (scalar (sum_sq amps))
       /\ Cge0 (sum_sq amps).
Proof.
  split; [reflexivity|].
  apply (expect_trace_nonneg noinv [a_generic; a_swap] 2 ket0);
    [reflexivity | reflexivity | reflexivity | lia].
Defined.

(** The value itself: 106 = 5 + 26 + 25 + 50, the squared norms of the
    four branches, with no imaginary part. *)
Example expect_generic_value :
  expect noinv (mps_of [a_generic] (Finite 2) None) None
  = Ok (scalar (z 106)).
Proof. vm_compute. reflexivity. Qed.

(** The scenario of the source's debug script: <psi|psi> = 1. *)
Example expect_swap_value :
  expect noinv (mps_of [a_swap] (Finite 1) None) None = Ok (scalar C1).
Proof. vm_compute. reflexivity. Qed.

(** ** Infinite chains and the canonical-form check *)

Lemma expect_infinite_counterexample :
  MPS_init [a_swap] Infinite [Some ket0; None]
  = Ok (mps_of [a_swap] Infinite None)
  /\ forall v,
       expect noinv (mps_of [a_swap] Infinite None) (Some swap_op) <> Ok v.
Proof. split; [reflexivity | discriminate]. Qed.

Lemma expect_infinite_not_implemented_witness :
  L (mps_of [a_swap] Infinite None) = Infinite
  /\ expect noinv (mps_of [a_swap] Infinite None) (Some swap_op)
     = Err NotImplementedError.
Proof.
  split; [reflexivity|].
  apply (expect_infinite_not_implemented noinv
           (mps_of [a_swap] Infinite None) (Some swap_op)).
  reflexivity.
Defined.

Lemma check_rcf_counterexample :
  Forall (right_canonical 2) (tensors (mps_of [a_swap] (Finite 1) None))
  /\ check_rcf (mps_of [a_swap] (Finite 1) None) <> Ok true.
Proof.
  split; [|discriminate].
  repeat constructor. exact a_swap_right_canonical.
Qed.

(** ** Chain length zero *)

Lemma expect_length_zero_counterexample :
  MPS_init [a_swap] (Finite 0) [Some ket0; None]
  = Ok (mps_of [a_swap] (Finite 0) None)
  /\ expect noinv (mps_of [a_swap] (Finite 0) None) None = Ok (scalar C1)
  /\ forall e, expect noinv (mps_of [a_swap] (Finite 0) None) None <> Err e.
Proof.
  split; [reflexivity|].
  assert (E : expect noinv (mps_of [a_swap] (Finite 0) None) None
              = Ok (scalar C1)) by (vm_compute; reflexivity).
  split; [exact E|]. intros e. rewrite E. discriminate.
Qed.

(** A site tensor whose only physical slice flips the bond: its transfer
    matrix is a permutation matrix and its own inverse. *)
Definition a_flip : ndarray :=
  mk_ndarray [1; 2; 2]%nat (map z [0; 1; 1; 0]%Z).

Definition t_flip : ndarray :=
  mk_ndarray [4; 4]%nat
    (map z [0; 0; 0; 1;  0; 0; 1; 0;  0; 1; 0; 0;  1; 0; 0; 0]%Z).

(** An inverse that knows this one matrix. *)
Definition inv_flip (a : ndarray) : result ndarray := Ok t_flip.

Definition mps_flip (len : chain_length) : MPS :=
  {| l_uc := 1; L := len; tensors := [a_flip]; d := 1; chi := 2;
     bdry_vecs := [Some ket0; None] |}.

Lemma expect_nonpositive_length_witness :
  (MPS_init [a_swap] (Finite 0) [Some ket0; None]
   = Ok (mps_of [a_swap] (Finite 0) None)
   /\ expect noinv (mps_of [a_swap] (Finite 0) None) None
      = Ok (scalar (norm2 2 ket0)))
  /\ (MPS_init [a_swap] (Finite (-1)) [Some ket0; None]
      = Ok (mps_of [a_swap] (Finite (-1)) None)
      /\ exists T,
           transfer_matrix (mps_of [a_swap] (Finite (-1)) None) None = Ok T
           /\ expect noinv (mps_of [a_swap] (Finite (-1)) None) None
              = Err LinAlgError)
  /\ (MPS_init [a_flip] (Finite (-3)) [Some ket0; None]
      = Ok (mps_flip (Finite (-3)))
      /\ transfer_matrix (mps_flip (Finite (-3))) None = Ok t_flip
      /\ inv_flip t_flip = Ok t_flip
      /\ expect inv_flip (mps_flip (Finite (-3))) None = Ok (scalar C1)).
Proof.
  split; [|split].
  - split; [reflexivity|].
    apply (expect_nonpositive_length noinv [a_swap] 0 ket0
             (mps_of [a_swap] (Finite 0) None) eq_refl eq_refl eq_refl).
    reflexivity.
  - split; [reflexivity|].
    destruct (expect_nonpositive_length noinv [a_swap] (-1) ket0
                (mps_of [a_swap] (Finite (-1)) None)
                eq_refl eq_refl eq_refl) as [_ H].
    destruct (H ltac:(lia)) as (T & ET & HT & _).
    exists T. split; [exact ET|]. apply HT. reflexivity.
  - split; [reflexivity|].
    assert (ET : transfer_matrix (mps_flip (Finite (-3))) None = Ok t_flip)
      by (vm_compute; reflexivity).
    split; [exact ET|]. split; [reflexivity|].
    destruct (expect_nonpositive_length inv_flip [a_flip] (-3) ket0
                (mps_flip (Finite (-3))) eq_refl eq_refl eq_refl)
      as [_ H].
    destruct (H ltac:(lia)) as (T & ET' & _ & HT).
    rewrite ET in ET'. injection ET' as <-.
    rewrite (HT t_flip eq_refl eq_refl). vm_compute. reflexivity.
Defined.

(** ** The constructor *)

Lemma MPS_init_chi_2_and_4_counterexample :
  site_shaped 2 a_swap = true /\ site_shaped 4 a_chi4 = true
  /\ MPS_init [a_swap; a_chi4] (Finite 1) [Some ket0; None]
     = Ok (mps_of [a_swap; a_chi4] (Finite 1) None).
Proof. repeat split. Qed.

Lemma MPS_init_reads_first_tensor_only_witness :
  MPS_init [a_swap; a_chi4] (Finite 1) [Some ket0; None]
  = Ok (mps_of [a_swap; a_chi4] (Finite 1) None)
  /\ MPS_init [a_swap; a_chi4] (Finite 1) [Some one_vec; None]
     = Err ValueError.
Proof.
  split.
  - apply (MPS_init_reads_first_tensor_only a_swap [a_chi4] (Finite 1)
             ket0 None 2 2 eq_refl eq_refl);
      [discriminate | reflexivity | discriminate].
  - apply (MPS_init_reads_first_tensor_only a_swap [a_chi4] (Finite 1)
             one_vec None 2 2 eq_refl eq_refl); discriminate.
Defined.

(** C6.  With the left boundary left unspecified the constructor raises
    AttributeError ([self.bdry_vec] is never defined), where the
    docstring promises the boundary vector (1,0,0,...). *)
Theorem MPS_init_default_left_raises :
  MPS_init [a_swap] (Finite 1) [None; None] = Err AttributeError
  /\ MPS_init [a_swap] Infinite [None; Some ket0] = Err AttributeError.
Proof.
  split.
  - apply (MPS_init_default_left a_swap [] (Finite 1) None 2 2);
      reflexivity.
  - apply (MPS_init_default_left a_swap [] Infinite (Some ket0) 2 2);
      reflexivity.
Qed.

(** ** The identity operator *)

(** What [MPO.__init__] makes of [id_op] with boundary vectors of
    length 2: chi is read along the physical-in axis. *)
Definition id_mpo_ket0 : MPO :=
  {| o_l_uc := 1; o_L := Finite 1; o_tensors := [id_op]; o_d := 2;
     o_chi := 2; o_bdry_vecs := [ket0; ket0] |}.

(** C7.  Inserting the identity operator of bond dimension 1 on a
    physical leg of dimension 2 does not reproduce <psi|psi> = 1.  The
    constructor reads the operator's chi as 2: it accepts boundary
    vectors of length 2, and then [transfer_matrix] fails to reshape;
    boundary vectors of length 1, the operator's bond dimension, it
    refuses. *)
Theorem expect_identity_operator_fails :
  let s := mps_of [a_swap] (Finite 1) None in
  MPS_init [a_swap] (Finite 1) [Some ket0; None] = Ok s
  /\ expect noinv s None = Ok (scalar C1)
  /\ MPO_init [id_op] (Finite 1) [Some ket0; Some ket0] = Ok id_mpo_ket0
  /\ expect noinv s (Some id_mpo_ket0) = Err ValueError
  /\ MPO_init [id_op] (Finite 1) [Some one_vec; Some one_vec]
     = Err ValueError.
Proof.
  cbv zeta. do 4 (split; [vm_compute; reflexivity|]).
  vm_compute; reflexivity.
Qed.

(** ** Further examples *)

Lemma transfer_matrix_left_eigenvector_witness :
  exists T,
    transfer_matrix (mps_of [a_swap; a_swap] (Finite 1) None) None = Ok T
    /\ forall bi ki, (bi < 2)%nat -> (ki < 2)%nat ->
         Csum 2 (fun a => get T [(a * 2 + a)%nat; (bi * 2 + ki)%nat])
         = delta bi ki.
Proof.
  apply (transfer_matrix_left_eigenvector [a_swap; a_swap] (Finite 1)
           [Some ket0; None]
           (mps_of [a_swap; a_swap] (Finite 1) None) eq_refl).
  repeat constructor; exact a_swap_right_canonical.
Defined.

Lemma expect_trace_sums_right_vectors_witness :
  exists v : nat -> C,
    (forall a, (a < 2)%nat ->
       exists sa,
         MPS_init [a_generic] (Finite 2) [Some ket0; Some (basis_vec 2 a)]
         = Ok sa
         /\ expect noinv sa None = Ok (scalar (v a)))
    /\ expect noinv (mps_of [a_generic] (Finite 2) None) None
       = Ok (scalar (Csum 2 v)).
Proof.
  apply (expect_trace_sums_right_vectors noinv [a_generic] 2 ket0
           (mps_of [a_generic] (Finite 2) None)
           eq_refl eq_refl eq_refl).
  lia.
Defined.

(** A right boundary vector with complex entries. *)
Definition ket_i : ndarray := mk_ndarray [2]%nat [(1, 0); (0, 1)]%Z.

Lemma expect_fixed_nonneg_witness :
  exists amps : list C,
    expect noinv (mps_of [a_generic] (Finite 2) (Some ket_i)) None
    = Ok (scalar (sum_sq amps))
    /\ Cge0 (sum_sq amps).
Proof.
  apply (expect_fixed_nonneg noinv [a_generic] 2 ket0 ket_i
           (mps_of [a_generic] (Finite 2) (Some ket_i))
           eq_refl eq_refl eq_refl eq_refl eq_refl).
  lia.
Defined.

Lemma expect_zero_length_overlap_witness :
  expect noinv (mps_of [a_generic] (Finite 0) (Some ket_i)) None
  = Ok (scalar ((overlap 2 ket_i (vec ket0))^* * overlap 2 ket_i (vec ket0))%C).
Proof.
  apply (expect_zero_length_overlap noinv [a_generic] ket0 ket_i
           (mps_of [a_generic] (Finite 0) (Some ket_i))
           eq_refl eq_refl eq_refl eq_refl eq_refl).
Defined.

Lemma expect_repeated_unit_cell_witness :
  expect noinv
    (mps_of [a_generic; a_swap; a_generic; a_swap; a_generic; a_swap]
       (Finite 1) (Some ket_i)) None
  = expect noinv (mps_of [a_generic; a_swap] (Finite 3) (Some ket_i)) None.
Proof.
  apply (expect_repeated_unit_cell noinv [a_generic; a_swap] 3 ket0
           (Some ket_i)
           (mps_of [a_generic; a_swap] (Finite 3) (Some ket_i))
           (mps_of [a_generic; a_swap; a_generic; a_swap; a_generic; a_swap]
              (Finite 1) (Some ket_i))
           eq_refl eq_refl eq_refl eq_refl).
  - intros r [= <-]. split; reflexivity.
  - lia.
Defined.

Lemma transfer_matrix_mismatched_site_witness :
  MPS_init [a_swap; a_chi4] (Finite 1) [Some ket0; None]
  = Ok (mps_of [a_swap; a_chi4] (Finite 1) None)
  /\ transfer_matrix (mps_of [a_swap; a_chi4] (Finite 1) None) None
     = Err ValueError
  /\ expect noinv (mps_of [a_swap; a_chi4] (Finite 1) None) None
     = Err ValueError.
Proof.
  split; [reflexivity|].
  apply (transfer_matrix_mismatched_site noinv [a_swap] [] a_chi4 2 4 4 1
           [Some ket0; None] (mps_of [a_swap; a_chi4] (Finite 1) None)
           eq_refl eq_refl eq_refl).
  cbn. lia.
Defined.

(** A matrix, where a rank-three tensor is expected. *)
Definition a_rank2 : ndarray := mk_ndarray [2; 2]%nat (map z [1; 0; 0; 1]%Z).

Lemma MPS_init_index_error_witness :
  MPS_init [] (Finite 1) [Some ket0; None] = Err IndexError
  /\ MPS_init [a_rank2] (Finite 1) [Some ket0; None] = Err IndexError.
Proof.
  destruct (MPS_init_index_error (Finite 1) [Some ket0; None]) as [H0 H1].
  split; [exact H0|]. apply H1. left. cbn. lia.
Defined.

Definition ket3 : ndarray := mk_ndarray [3]%nat (map z [1; 0; 0]%Z).

Lemma MPS_init_right_boundary_checked_witness :
  MPS_init [a_swap] (Finite 1) [Some ket0; Some ket3] = Err ValueError
  /\ MPS_init [a_swap] (Finite 1) [Some ket0] = Err IndexError.
Proof.
  destruct (MPS_init_right_boundary_checked [a_swap] (Finite 1) ket0 ket3
              None (mps_of [a_swap] (Finite 1) None) eq_refl) as [H0 H1].
  split; [apply H0; cbn; lia | exact H1].
Defined.

(** An operator tensor with every axis of length 1. *)
Definition op_one : ndarray := mk_ndarray [1; 1; 1; 1]%nat [z 1].

Lemma MPO_init_unspecified_left_raises_witness :
  MPO_init [u_swap] (Finite 1) [None; None] = Err ValueError
  /\ MPO_init [u_swap] (Finite 1) [None; Some ket0] = Err ValueError
  /\ MPO_init [op_one] (Finite 1) [None; None] = Err IndexError.
Proof.
  split; [|split].
  - apply (MPO_init_unspecified_left_raises u_swap [] (Finite 1) [None]
             2 2 2 2 eq_refl); lia.
  - apply (MPO_init_unspecified_left_raises u_swap [] (Finite 1)
             [Some ket0] 2 2 2 2 eq_refl); lia.
  - apply (MPO_init_unspecified_left_raises op_one [] (Finite 1) [None]
             1 1 1 1 eq_refl); lia.
Defined.

Lemma MPO_init_explicit_boundaries_witness :
  MPO_init [id_op] (Finite 1) [Some ket0; Some ket0] = Ok id_mpo_ket0
  /\ MPO_init [id_op] (Finite 1) [Some one_vec; Some one_vec]
     = Err ValueError
  /\ MPO_init [id_op] (Finite 1) [Some ket0; Some one_vec] = Err ValueError.
Proof.
  split; [|split].
  - apply (MPO_init_explicit_boundaries id_op [] (Finite 1) ket0 ket0
             2 1 2 1 eq_refl);
      first [lia | reflexivity | (cbn; lia)].
  - destruct (MPO_init_explicit_boundaries id_op [] (Finite 1)
                one_vec one_vec 2 1 2 1 eq_refl) as (_ & H & _);
      try lia; try (cbn; lia).
    apply H. cbn. lia.
  - destruct (MPO_init_explicit_boundaries id_op [] (Finite 1)
                ket0 one_vec 2 1 2 1 eq_refl) as (_ & _ & H);
      try lia; try (cbn; lia).
    apply H; [reflexivity | cbn; lia].
Defined.

(** A left boundary of size 2 whose shape (2,1) still broadcasts against
    (2,), and one of size 6 and shape (2,3) against (6,) that does not. *)
Definition col2 : ndarray := mk_ndarray [2; 1]%nat (map z [1; 0]%Z).

Definition op_six : ndarray :=
  mk_ndarray [1; 1; 6; 1]%nat (map z [1; 0; 0; 0; 0; 0]%Z).

Definition grid23 : ndarray :=
  mk_ndarray [2; 3]%nat (map z [1; 0; 0; 0; 0; 0]%Z).

Lemma MPO_init_unspecified_right_raises_witness :
  MPO_init [u_swap] (Finite 1) [Some ket0; None] = Err IndexError
  /\ MPO_init [u_swap] (Finite 1) [Some col2; None] = Err IndexError
  /\ MPO_init [op_six] (Finite 1) [Some grid23; None] = Err ValueError.
Proof.
  split; [|split].
  - destruct (MPO_init_unspecified_right_raises u_swap [] (Finite 1) ket0
                2 2 2 2 eq_refl) as [_ H]; try lia; [reflexivity|].
    apply H. reflexivity.
  - destruct (MPO_init_unspecified_right_raises u_swap [] (Finite 1) col2
                2 2 2 2 eq_refl) as [H _]; try lia; [reflexivity|].
    exact H.
  - destruct (MPO_init_unspecified_right_raises op_six [] (Finite 1)
                grid23 1 1 6 1 eq_refl) as [H _]; try lia; [reflexivity|].
    exact H.
Defined.

Lemma MPO_init_stores_given_vectors_witness :
  MPO_init [id_op] (Finite 1) [Some ket0; Some ket0] = Ok id_mpo_ket0
  /\ exists ol or,
       nth_error [Some ket0; Some ket0] 0 = Some (Some ol)
       /\ nth_error [Some ket0; Some ket0] 1 = Some (Some or)
       /\ nd_size ol = o_chi id_mpo_ket0 /\ nd_size or = o_chi id_mpo_ket0
       /\ o_bdry_vecs id_mpo_ket0 = [ol; or]
       /\ o_tensors id_mpo_ket0 = [id_op]
       /\ o_l_uc id_mpo_ket0 = length [id_op]
       /\ o_L id_mpo_ket0 = Finite 1.
Proof.
  split; [reflexivity|].
  apply (MPO_init_stores_given_vectors [id_op] (Finite 1)
           [Some ket0; Some ket0] id_mpo_ket0 eq_refl).
Defined.

Lemma expect_operator_trace_witness :
  exists T,
    transfer_matrix (mps_of [a_swap] (Finite 2) None) (Some swap_op) = Ok T
    /\ expect noinv (mps_of [a_swap] (Finite 2) None) (Some swap_op)
       = Ok (scalar
               (Csum 2 (fun a => Csum 2 (fun m =>
                  vec ket0 m
                  * fmv 8 (fpow 8 (entries T) 2)
                      (kron_fn 4 (cvec ket0)
                         (kron_fn 2 (vec ket0) (vec ket0)))
                      ((a * 2 + m) * 2 + a)%nat)%C))).
Proof.
  apply (expect_operator_trace noinv [a_swap] 2 ket0
           (mps_of [a_swap] (Finite 2) None) swap_op ket0 ket0 []
           eq_refl eq_refl eq_refl);
    try reflexivity. lia.
Defined.

Lemma transfer_matrix_short_operator_witness :
  transfer_matrix (mps_of [a_swap; a_swap] (Finite 1) None) (Some swap_op)
  = Err IndexError
  /\ expect noinv (mps_of [a_swap; a_swap] (Finite 1) None) (Some swap_op)
     = Err IndexError.
Proof.
  apply (transfer_matrix_short_operator noinv [a_swap; a_swap] 1
           [Some ket0; None] (mps_of [a_swap; a_swap] (Finite 1) None)
           swap_op eq_refl eq_refl eq_refl).
  cbn. lia.
Defined.

Definition swap_op_long : MPO :=
  {| o_l_uc := 3; o_L := Infinite; o_tensors := [u_swap; id_op; u_swap];
     o_d := 5; o_chi := 2; o_bdry_vecs := [ket0; ket0] |}.

Lemma expect_ignores_surplus_operator_tensors_witness :
  transfer_matrix (mps_of [a_swap] (Finite 1) None) (Some swap_op_long)
  = transfer_matrix (mps_of [a_swap] (Finite 1) None) (Some swap_op)
  /\ expect noinv (mps_of [a_swap] (Finite 1) None) (Some swap_op_long)
     = expect noinv (mps_of [a_swap] (Finite 1) None) (Some swap_op).
Proof.
  apply (expect_ignores_surplus_operator_tensors noinv
           (mps_of [a_swap] (Finite 1) None) swap_op swap_op_long);
    reflexivity.
Defined.

Lemma transfer_matrix_bra_ket_symmetry_witness :
  exists T,
    transfer_matrix (mps_of [a_generic; a_swap] (Finite 1) None) None = Ok T
    /\ forall bo ko bi ki,
         (bo < 2)%nat -> (ko < 2)%nat -> (bi < 2)%nat -> (ki < 2)%nat ->
         ((get T [(bo * 2 + ko)%nat; (bi * 2 + ki)%nat])^*)%C
         = get T [(ko * 2 + bo)%nat; (ki * 2 + bi)%nat].
Proof.
  apply (transfer_matrix_bra_ket_symmetry [a_generic; a_swap] (Finite 1)
           [Some ket0; None]
           (mps_of [a_generic; a_swap] (Finite 1) None) eq_refl eq_refl).
Defined.

Lemma expect_negative_length_witness :
  transfer_matrix (mps_flip (Finite (-3))) None = Ok t_flip
  /\ expect inv_flip (mps_flip (Finite (-3))) None
     = Ok (scalar
             (Csum 4 (fun i =>
                trace_vec 2 i
                * fmv 4 (fpow 4 (entries t_flip) 3) (dbl 2 (vec ket0)) i)%C)).
Proof.
  assert (ET : transfer_matrix (mps_flip (Finite (-3))) None = Ok t_flip)
    by (vm_compute; reflexivity).
  split; [exact ET|].
  apply (expect_negative_length inv_flip [a_flip] (-3) ket0
           (mps_flip (Finite (-3))) t_flip t_flip
           eq_refl eq_refl eq_refl ltac:(lia) ET eq_refl eq_refl).
Defined.

Lemma identity_operator_reshape_fails_witness :
  expect noinv (mps_of [a_swap] (Finite 5) None) (Some id_mpo_ket0)
  = Err ValueError.
Proof.
  apply (identity_operator_reshape_fails noinv
           (mps_of [a_swap] (Finite 5) None) id_mpo_ket0 a_swap id_op 5);
    try reflexivity; cbn; lia.
Defined.

(** The SWAP operator on a unit cell of two sites. *)
Definition swap_op_pair : MPO :=
  {| o_l_uc := 2; o_L := Finite 1; o_tensors := [u_swap; u_swap]; o_d := 2;
     o_chi := 2; o_bdry_vecs := [ket0; ket0] |}.

Lemma transfer_matrix_operator_is_ordered_product_witness :
  exists T,
    transfer_matrix (mps_of [a_swap; a_generic] (Finite 1) None)
      (Some swap_op_pair) = Ok T
    /\ shape T = [8; 8]%nat
    /\ forall a m x a' m' y,
         (a < 2)%nat -> (m < 2)%nat -> (x < 2)%nat ->
         (a' < 2)%nat -> (m' < 2)%nat -> (y < 2)%nat ->
         get T [((a * 2 + m) * 2 + x)%nat; ((a' * 2 + m') * 2 + y)%nat]
         = triple_mul 2 2 (site_sandwich a_generic u_swap)
             (site_sandwich a_swap u_swap) a m x a' m' y.
Proof.
  apply (transfer_matrix_operator_is_ordered_product [a_swap; a_generic]
           (Finite 1) [Some ket0; None]
           (mps_of [a_swap; a_generic] (Finite 1) None) swap_op_pair
           eq_refl eq_refl eq_refl eq_refl).
Defined.

(** The identity on a physical leg and an operator bond, both of
    dimension 2: shape (2,2,2,2). *)
Definition id_op_bond2 : ndarray :=
  mk_ndarray [2; 2; 2; 2]%nat
    (map z [1; 0; 0; 0;  0; 1; 0; 0;  0; 0; 1; 0;  0; 0; 0; 1]%Z).

Definition id_mpo_bond2 : MPO :=
  {| o_l_uc := 1; o_L := Finite 2; o_tensors := [id_op_bond2]; o_d := 2;
     o_chi := 2; o_bdry_vecs := [ket_i; ket_i] |}.

Lemma id_op_bond2_identity : identity_op 2 2 id_op_bond2.
Proof.
  split; [reflexivity|]. intros p m q m' Hp Hm Hq Hm'.
  destruct p as [|[|p]]; [| |lia]; (destruct m as [|[|m]]; [| |lia]);
    (destruct q as [|[|q]]; [| |lia]); (destruct m' as [|[|m']]; [| |lia]);
    reflexivity.
Defined.

Lemma expect_identity_operator_witness :
  exists v : C,
    expect noinv (mps_of [a_generic] (Finite 2) None) None = Ok (scalar v)
    /\ expect noinv (mps_of [a_generic] (Finite 2) None) (Some id_mpo_bond2)
       = Ok (scalar (Csum 2 (fun m => vec ket_i m * vec ket_i m) * v)%C).
Proof.
  apply (expect_identity_operator noinv [a_generic] 2 ket0
           (mps_of [a_generic] (Finite 2) None) id_mpo_bond2 ket_i ket_i []
           eq_refl eq_refl eq_refl);
    try reflexivity; try lia.
  apply Forall_cons; [exact id_op_bond2_identity | apply Forall_nil].
Defined.

Lemma expect_identity_operator_fixed_witness :
  exists v : C,
    expect noinv (mps_of [a_generic] (Finite 2) (Some ket_i)) None
    = Ok (scalar v)
    /\ expect noinv (mps_of [a_generic] (Finite 2) (Some ket_i))
         (Some id_mpo_bond2)
       = Ok (scalar (Csum 2 (fun m => (vec ket_i m)^* * vec ket_i m) * v)%C).
Proof.
  apply (expect_identity_operator_fixed noinv [a_generic] 2 ket0 ket_i
           (mps_of [a_generic] (Finite 2) (Some ket_i)) id_mpo_bond2
           ket_i ket_i [] eq_refl eq_refl eq_refl eq_refl eq_refl);
    try reflexivity; try lia.
  apply Forall_cons; [exact id_op_bond2_identity | apply Forall_nil].
Defined.

End Examples.

(** * holovqa.py: class IsoTensor

    The circuit simulator is cirq; building the empty circuit and
    resolving and simulating a circuit are taken from it as they are. *)

Section Holovqa.

Import String.

Context {F : Scalar}.

Context {Qubit Circuit : Type}.

(** [cirq.Circuit()] *)
Variable empty_circuit : Circuit.

(** [cirq.resolve_parameters(circuit, cirq.ParamResolver(param_dict))]
    followed by [.unitary(qubit_order = qubit_order)] *)
Variable cirq_unitary :
  Circuit -> list (String.string * C) -> list Qubit -> result ndarray.

(** [str(j)] *)
Definition str (j : nat) : String.string :=
  DecimalString.NilEmpty.string_of_uint (Nat.to_uint j).

Record IsoTensor : Type := mk_IsoTensor {
  n_params : nat;
  circuit_format : String.string;
  regdims : nat;
  qubits : list (list Qubit);
  tensor_shape : list nat;
  param_names : list String.string;
  circuit : Circuit
}.

(** [IsoTensor.__init__(qubits, n_params, circuit_format)]: [regdims] is
    the number of registers, and [tensor_shape] is
    [np.append(2**regdims, 2**regdims)]. *)
Definition IsoTensor_init (qubits : list (list Qubit)) (n_params : nat)
  (circuit_format : String.string) : result IsoTensor :=
  let regdims := List.length qubits in
  let tensor_shape := [2 ^ regdims; 2 ^ regdims]%nat in
  if String.eqb circuit_format "cirq"%string then
    Ok {| n_params := n_params; circuit_format := circuit_format;
          regdims := regdims; qubits := qubits;
          tensor_shape := tensor_shape;
          param_names :=
            map (fun j => String.append "x"%string (str j)) (seq 0 n_params);
          circuit := empty_circuit |}
  else Err NotImplementedError.

(** [IsoTensor.unitary_cirq(params)]; [dict(zip(names, params))] is kept
    as the list of pairs. *)
Definition unitary_cirq (self : IsoTensor) (params : list C)
  : result ndarray :=
  let param_dict := combine (param_names self) params in
  let qubit_order := List.concat (qubits self) in
  u <- cirq_unitary (circuit self) param_dict qubit_order ;;
  reshape u (tensor_shape self).

(** [IsoTensor.unitary(params)] *)
Definition unitary (self : IsoTensor) (params : list C) : result ndarray :=
  if String.eqb (circuit_format self) "cirq"%string
  then unitary_cirq self params
  else Err NotImplementedError.

(** The object after the user has edited [self.circuit] in place. *)
Definition with_circuit (self : IsoTensor) (circ : Circuit) : IsoTensor :=
  {| n_params := n_params self; circuit_format := circuit_format self;
     regdims := regdims self; qubits := qubits self;
     tensor_shape := tensor_shape self; param_names := param_names self;
     circuit := circ |}.

(** X19.  [tensor_shape] counts registers, the simulator counts qubits: for a
    constructed tensor whose circuit simulates to a 2^N x 2^N matrix on
    its N qubits, [unitary] returns that matrix unchanged when N equals
    the number of registers, and raises ValueError in its reshape
    otherwise (so whenever some register holds two qubits and none is
    empty).  It never raises NotImplementedError. *)
Theorem unitary_reshape (qs : list (list Qubit)) (n : nat)
  (fmt : String.string) (t : IsoTensor) (circ : Circuit)
  (params : list C) (u : ndarray) :
  IsoTensor_init qs n fmt = Ok t ->
  cirq_unitary circ (combine (param_names t) params) (List.concat qs) = Ok u ->
  shape u = [2 ^ List.length (List.concat qs); 2 ^ List.length (List.concat qs)]%nat ->
  (List.length (List.concat qs) = List.length qs ->
   unitary (with_circuit t circ) params = Ok u)
  /\ (List.length (List.concat qs) <> List.length qs ->
      unitary (with_circuit t circ) params = Err ValueError).
Proof.
  unfold IsoTensor_init. destruct (String.eqb fmt "cirq"%string) eqn:Ef;
    [|discriminate].
  intros [= <-] Hu Su. unfold unitary, unitary_cirq, with_circuit.
  cbn [circuit_format param_names qubits circuit tensor_shape].
  cbn [param_names] in Hu. rewrite Ef, Hu. cbn [bind].
  unfold reshape, nd_size. rewrite Su. cbn [size_of fold_right]. split.
  - intros E. rewrite E, Nat.eqb_refl. destruct u as [sh dt].
    cbn [shape data] in *. subst sh. rewrite E. reflexivity.
  - intros Hne.
    destruct (Nat.eqb_spec
                (2 ^ List.length (List.concat qs) * (2 ^ List.length (List.concat qs) * 1))
                (2 ^ List.length qs * (2 ^ List.length qs * 1))) as [E|_];
      [|reflexivity].
    exfalso. apply Hne. rewrite !Nat.mul_1_r in E.
    apply square_inj in E. apply Nat.pow_inj_r in E; [exact E | lia].
Qed.

End Holovqa.

Module HolovqaExamples.

Import String.
#[local] Open Scope string_scope.

#[local] Existing Instance GaussZ.scalar.

(** Qubits by name; the only circuit is the empty one, which simulates
    to the identity on the qubits it is asked about. *)
Definition empty_unitary (c : unit) (param_dict : list (String.string * C))
  (qubit_order : list String.string) : result ndarray :=
  Ok (np_eye (2 ^ List.length qubit_order) (2 ^ List.length qubit_order)).

(** The registers of the source's debug script: one physical and one bond
    qubit. *)
Definition debug_qubits : list (list String.string) :=
  [["p0"]; ["b0"]].

(** Two physical qubits and one bond qubit. *)
Definition wide_qubits : list (list String.string) :=
  [["p0"; "p1"]; ["b0"]].

Lemma unitary_reshape_witness :
  (exists t,
     IsoTensor_init tt debug_qubits 2 "cirq" = Ok t
     /\ unitary empty_unitary (with_circuit t tt) [C0; C1]
        = Ok (np_eye 4 4))
  /\ (exists t,
        IsoTensor_init tt wide_qubits 2 "cirq" = Ok t
        /\ unitary empty_unitary (with_circuit t tt) [C0; C1]
           = Err ValueError).
Proof.
  split; eexists; (split; [reflexivity|]).
  - apply (unitary_reshape tt empty_unitary
             debug_qubits 2 "cirq" _ tt [C0; C1] (np_eye 4 4) eq_refl);
      reflexivity.
  - apply (unitary_reshape tt empty_unitary
             wide_qubits 2 "cirq" _ tt [C0; C1] (np_eye 8 8) eq_refl);
      first [reflexivity | (cbn; lia)].
Defined.

End HolovqaExamples.
